(** * Dynamic pathfinding agent: grid model and search engine

    A shallow embedding of [modules/constants.py], [modules/heuristics.py],
    [modules/algorithms.py] and [modules/grid.py], followed by the properties
    of the search engine and of the grid operations.

    Conventions of the embedding.
    - Python integers are [Z]; a coordinate [(row, col)] is a pair of [Z].
    - A Python list indexed by an integer follows Python's rule: an index in
      [0 .. len-1] is taken as it is, an index in [-len .. -1] counts from
      the end, anything else raises [IndexError].
    - A function that can raise returns a value of [res]: [Ret] for a normal
      return, [Raise] for an exception.  Loops whose termination is not
      structural take fuel; [OutOfFuel] stands for a run that did not finish
      within the fuel, and the fuel the top-level functions pass is shown to
      be enough.
    - [dict] is [gmap], [set] and [frozenset] are [gset].
    - The [heapq] priority structure is modelled by the list of its entries;
      [heappop] removes a least entry in Python's tuple order.  The source
      only observes the popped entry and the set of coordinates present, so
      the internal array layout of the binary heap is not represented. *)

From Stdlib Require Import ZArith QArith Lia.
From stdpp Require Import gmap strings list.

Local Open Scope Z_scope.

(** ** Results of fallible code *)

Inductive pyexn := IndexError | KeyError | ValueError.

Inductive res (A : Type) : Type :=
| Ret (a : A)
| Raise (e : pyexn)
| OutOfFuel.
Arguments Ret {A} a.
Arguments Raise {A} e.
Arguments OutOfFuel {A}.

#[global] Instance res_ret : MRet res := fun A a => Ret a.
#[global] Instance res_bind : MBind res := fun A B f m =>
  match m with
  | Ret a => f a
  | Raise e => Raise e
  | OutOfFuel => OutOfFuel
  end.

(** A [for] loop over a list whose body can raise. *)
Fixpoint foldM {S A : Type} (body : S -> A -> res S) (s : S) (l : list A) : res S :=
  match l with
  | [] => Ret s
  | x :: l' => s' ← body s x; foldM body s' l'
  end.

(** One turn of a [while] loop: go round again, or return from the function. *)
Inductive loop_step (S A : Type) : Type :=
| Continue (s : S)
| Return (a : A).
Arguments Continue {S A} s.
Arguments Return {S A} a.

(** A [while] loop run for at most [fuel] turns. *)
Fixpoint run_loop {S A : Type} (iter : S -> res (loop_step S A)) (fuel : nat) (s : S) : res A :=
  match fuel with
  | O => OutOfFuel
  | S fuel' =>
      r ← iter s;
      match r with
      | Return a => Ret a
      | Continue s' => run_loop iter fuel' s'
      end
  end.

(** ** constants.py *)

Definition EMPTY : Z := 0.
Definition OBSTACLE : Z := 1.
Definition START : Z := 2.
Definition GOAL : Z := 3.

(** ** Python list indexing *)

Definition coord : Type := Z * Z.

Definition py_index (len : nat) (i : Z) : option nat :=
  if (0 <=? i) && (i <? Z.of_nat len) then Some (Z.to_nat i)
  else if (- Z.of_nat len <=? i) && (i <? 0) then Some (Z.to_nat (Z.of_nat len + i))
  else None.

Definition py_getitem {A : Type} (l : list A) (i : Z) : option A :=
  n ← py_index (length l) i; l !! n.

Definition py_setitem {A : Type} (l : list A) (i : Z) (v : A) : option (list A) :=
  n ← py_index (length l) i; Some (<[n := v]> l).

(** [cells[r][c]] *)
Definition cells_get (cells : list (list Z)) (r c : Z) : option Z :=
  row ← py_getitem cells r; py_getitem row c.

(** [cells[r][c] = v]; the rows are distinct list objects. *)
Definition cells_set (cells : list (list Z)) (r c : Z) (v : Z) : option (list (list Z)) :=
  n ← py_index (length cells) r;
  row ← cells !! n;
  row' ← py_setitem row c v;
  Some (<[n := row']> cells).

(** ** heuristics.py *)

Definition manhattan_distance (a b : coord) : Z :=
  Z.abs (a.1 - b.1) + Z.abs (a.2 - b.2).

(** ** algorithms.py *)

Definition directions : list (Z * Z) := [(-1, 0); (1, 0); (0, -1); (0, 1)].

Definition neighbor_step (grid : list (list Z)) (row col rows cols : Z)
    (neighbors : list coord) (d : Z * Z) : res (list coord) :=
  let nr := row + d.1 in
  let nc := col + d.2 in
  if (0 <=? nr) && (nr <? rows) && (0 <=? nc) && (nc <? cols) then
    match cells_get grid nr nc with
    | None => Raise IndexError
    | Some x => if x =? OBSTACLE then Ret neighbors else Ret (neighbors ++ [(nr, nc)])
    end
  else Ret neighbors.

Definition get_neighbors (grid : list (list Z)) (row col rows cols : Z) : res (list coord) :=
  foldM (neighbor_step grid row col rows cols) [] directions.

(** The [while current is not None] loop of [reconstruct_path]; a
    coordinate that [came_from] does not hold raises KeyError, whatever the
    fuel. *)
Fixpoint reconstruct_loop (fuel : nat) (came_from : gmap coord (option coord))
    (current : option coord) (path : list coord) : res (list coord) :=
  match current with
  | None => Ret path
  | Some c =>
      match came_from !! c with
      | None => Raise KeyError
      | Some next =>
          match fuel with
          | O => OutOfFuel
          | S fuel' => reconstruct_loop fuel' came_from next (path ++ [c])
          end
      end
  end.

(** A walk that ends visits each key of [came_from] at most once, so
    [size came_from] turns of the loop are all a finishing run can take. *)
Definition reconstruct_path (came_from : gmap coord (option coord)) (goal : coord)
    : res (list coord) :=
  path ← reconstruct_loop (size came_from) came_from (Some goal) [];
  Ret (reverse path).

(** *** The priority structure *)

Section heap.
Context {E : Type} (leb : E -> E -> bool).

Definition heappush (h : list E) (e : E) : list E := h ++ [e].

Fixpoint heappop (h : list E) : option (E * list E) :=
  match h with
  | [] => None
  | x :: t =>
      match heappop t with
      | None => Some (x, [])
      | Some (m, rest) => if leb x m then Some (x, t) else Some (m, x :: rest)
      end
  end.
End heap.

(** Python's order on tuples of integers. *)
Definition coord_leb (a b : coord) : bool :=
  (a.1 <? b.1) || ((a.1 =? b.1) && (a.2 <=? b.2)).

Definition greedy_leb (x y : Z * coord) : bool :=
  (x.1 <? y.1) || ((x.1 =? y.1) && coord_leb x.2 y.2).

Definition astar_leb (x y : Z * Z * coord) : bool :=
  (x.1.1 <? y.1.1) ||
  ((x.1.1 =? y.1.1) && ((x.1.2 <? y.1.2) || ((x.1.2 =? y.1.2) && coord_leb x.2 y.2))).

Definition search_result : Type :=
  option (list coord) * list coord * list (gset coord).

(** Turns of the main loop that the searches can take on a [rows] by [cols]
    grid: every turn pops one entry, and at most four entries are pushed for
    each of the at most [rows * cols + 1] coordinates that get expanded. *)
Definition search_fuel (rows cols : Z) : nat :=
  (4 * (Z.to_nat rows * Z.to_nat cols + 1) + 2)%nat.

(** *** Greedy best-first search *)

Record greedy_state := GreedyState {
  g_open_list : list (Z * coord);
  g_came_from : gmap coord (option coord);
  g_visited_order : list coord;
  g_frontier_snapshots : list (gset coord)
}.

Definition greedy_discover (heuristic_fn : coord -> coord -> Z) (goal current : coord)
    (s : greedy_state) (neighbor : coord) : res greedy_state :=
  match g_came_from s !! neighbor with
  | Some _ => Ret s
  | None =>
      Ret {| g_open_list := heappush (g_open_list s) (heuristic_fn neighbor goal, neighbor);
             g_came_from := <[neighbor := Some current]> (g_came_from s);
             g_visited_order := g_visited_order s;
             g_frontier_snapshots := g_frontier_snapshots s |}
  end.

(** The statements of the loop body that change the state. *)
Definition greedy_pop (s : greedy_state) (rest : list (Z * coord)) : greedy_state :=
  {| g_open_list := rest;
     g_came_from := g_came_from s;
     g_visited_order := g_visited_order s;
     g_frontier_snapshots := g_frontier_snapshots s |}.

Definition greedy_visit (s : greedy_state) (current : coord) : greedy_state :=
  {| g_open_list := g_open_list s;
     g_came_from := g_came_from s;
     g_visited_order := g_visited_order s ++ [current];
     g_frontier_snapshots := g_frontier_snapshots s |}.

Definition greedy_snapshot (s : greedy_state) : greedy_state :=
  {| g_open_list := g_open_list s;
     g_came_from := g_came_from s;
     g_visited_order := g_visited_order s;
     g_frontier_snapshots :=
       g_frontier_snapshots s ++ [list_to_set (snd <$> g_open_list s)] |}.

Definition greedy_iter (grid : list (list Z)) (goal : coord) (rows cols : Z)
    (heuristic_fn : coord -> coord -> Z) (s : greedy_state)
    : res (loop_step greedy_state search_result) :=
  match heappop greedy_leb (g_open_list s) with
  | None => Ret (Return (None, g_visited_order s, g_frontier_snapshots s))
  | Some ((_, current), rest) =>
      let s := greedy_visit (greedy_pop s rest) current in
      if decide (current = goal) then
        path ← reconstruct_path (g_came_from s) goal;
        Ret (Return (Some path, g_visited_order s, g_frontier_snapshots s))
      else
        nbrs ← get_neighbors grid current.1 current.2 rows cols;
        s ← foldM (greedy_discover heuristic_fn goal current) s nbrs;
        Ret (Continue (greedy_snapshot s))
  end.

Definition greedy_init (start goal : coord) (heuristic_fn : coord -> coord -> Z) : greedy_state :=
  {| g_open_list := heappush [] (heuristic_fn start goal, start);
     g_came_from := {[start := None]};
     g_visited_order := [];
     g_frontier_snapshots := [] |}.

Definition greedy_bfs (grid : list (list Z)) (start goal : coord) (rows cols : Z)
    (heuristic_fn : coord -> coord -> Z) : res search_result :=
  run_loop (greedy_iter grid goal rows cols heuristic_fn) (search_fuel rows cols)
    (greedy_init start goal heuristic_fn).

(** *** A* *)

Record astar_state := AstarState {
  a_open_list : list (Z * Z * coord);
  a_came_from : gmap coord (option coord);
  a_g_score : gmap coord Z;
  a_visited_order : list coord;
  a_frontier_snapshots : list (gset coord);
  a_closed_set : gset coord
}.

Definition astar_relax (heuristic_fn : coord -> coord -> Z) (goal current : coord)
    (s : astar_state) (neighbor : coord) : res astar_state :=
  if decide (neighbor ∈ a_closed_set s) then Ret s
  else
    match a_g_score s !! current with
    | None => Raise KeyError
    | Some gc =>
        let tentative_g := gc + 1 in
        let better :=
          match a_g_score s !! neighbor with
          | None => true
          | Some gn => tentative_g <? gn
          end in
        if better then
          Ret {| a_open_list :=
                   heappush (a_open_list s)
                     (tentative_g + heuristic_fn neighbor goal, tentative_g, neighbor);
                 a_came_from := <[neighbor := Some current]> (a_came_from s);
                 a_g_score := <[neighbor := tentative_g]> (a_g_score s);
                 a_visited_order := a_visited_order s;
                 a_frontier_snapshots := a_frontier_snapshots s;
                 a_closed_set := a_closed_set s |}
        else Ret s
    end.

(** The statements of the loop body that change the state. *)
Definition astar_pop (s : astar_state) (rest : list (Z * Z * coord)) : astar_state :=
  {| a_open_list := rest;
     a_came_from := a_came_from s;
     a_g_score := a_g_score s;
     a_visited_order := a_visited_order s;
     a_frontier_snapshots := a_frontier_snapshots s;
     a_closed_set := a_closed_set s |}.

Definition astar_close (s : astar_state) (current : coord) : astar_state :=
  {| a_open_list := a_open_list s;
     a_came_from := a_came_from s;
     a_g_score := a_g_score s;
     a_visited_order := a_visited_order s ++ [current];
     a_frontier_snapshots := a_frontier_snapshots s;
     a_closed_set := {[current]} ∪ a_closed_set s |}.

Definition astar_snapshot (s : astar_state) : astar_state :=
  {| a_open_list := a_open_list s;
     a_came_from := a_came_from s;
     a_g_score := a_g_score s;
     a_visited_order := a_visited_order s;
     a_frontier_snapshots :=
       a_frontier_snapshots s ++ [list_to_set (snd <$> a_open_list s)];
     a_closed_set := a_closed_set s |}.

Definition astar_iter (grid : list (list Z)) (goal : coord) (rows cols : Z)
    (heuristic_fn : coord -> coord -> Z) (s : astar_state)
    : res (loop_step astar_state search_result) :=
  match heappop astar_leb (a_open_list s) with
  | None => Ret (Return (None, a_visited_order s, a_frontier_snapshots s))
  | Some ((_, _, current), rest) =>
      let s := astar_pop s rest in
      if decide (current ∈ a_closed_set s) then Ret (Continue s)
      else
        let s := astar_close s current in
        if decide (current = goal) then
          path ← reconstruct_path (a_came_from s) goal;
          Ret (Return (Some path, a_visited_order s, a_frontier_snapshots s))
        else
          nbrs ← get_neighbors grid current.1 current.2 rows cols;
          s ← foldM (astar_relax heuristic_fn goal current) s nbrs;
          Ret (Continue (astar_snapshot s))
  end.

Definition astar_init (start goal : coord) (heuristic_fn : coord -> coord -> Z) : astar_state :=
  {| a_open_list := heappush [] (heuristic_fn start goal, 0, start);
     a_came_from := {[start := None]};
     a_g_score := {[start := 0]};
     a_visited_order := [];
     a_frontier_snapshots := [];
     a_closed_set := ∅ |}.

Definition astar (grid : list (list Z)) (start goal : coord) (rows cols : Z)
    (heuristic_fn : coord -> coord -> Z) : res search_result :=
  run_loop (astar_iter grid goal rows cols heuristic_fn) (search_fuel rows cols)
    (astar_init start goal heuristic_fn).

Definition run_algorithm (algo_name : string) (grid : list (list Z)) (start goal : coord)
    (rows cols : Z) (heuristic_fn : coord -> coord -> Z) : res search_result :=
  if String.eqb algo_name "A*" then astar grid start goal rows cols heuristic_fn
  else greedy_bfs grid start goal rows cols heuristic_fn.

(** ** grid.py *)

(** The module-level random generator: a tape of raw draws and the position
    of the next one.  [random.random()] yields a multiple of 2^-53 in
    [0, 1); [random.randint(a, b)] yields an integer of [a .. b] and raises
    [ValueError] on an empty range.  Every value either call can return is
    the decoding of some raw draw. *)
Record rng_state := Rng {
  rng_tape : nat -> Z;
  rng_pos : nat
}.

Definition rng_next (g : rng_state) : rng_state :=
  {| rng_tape := rng_tape g; rng_pos := S (rng_pos g) |}.

Definition random_value (g : rng_state) : Q :=
  Qmake (rng_tape g (rng_pos g) mod 2 ^ 53) (2 ^ 53)%positive.

Definition py_random (g : rng_state) : Q * rng_state :=
  (random_value g, rng_next g).

Definition randint_value (a b : Z) (g : rng_state) : Z :=
  a + rng_tape g (rng_pos g) mod (b - a + 1).

Definition py_randint (a b : Z) (g : rng_state) : res Z * rng_state :=
  if b <? a then (Raise ValueError, g)
  else (Ret (randint_value a b g), rng_next g).

(** [range(n)] *)
Definition py_range (n : Z) : list Z := Z.of_nat <$> seq 0 (Z.to_nat n).

(** A [for] loop whose body mutates a state and can raise: the state at the
    point of the exception is kept. *)
Fixpoint for_each {St A : Type} (body : A -> St -> res unit * St) (l : list A) (s : St)
    : res unit * St :=
  match l with
  | [] => (Ret tt, s)
  | x :: l' =>
      match body x s with
      | (Ret _, s') => for_each body l' s'
      | other => other
      end
  end.

Record GridManager := Grid {
  gm_rows : Z;
  gm_cols : Z;
  gm_start : coord;
  gm_goal : coord;
  gm_cells : list (list Z)
}.

Definition set_cells (self : GridManager) (cells : list (list Z)) : GridManager :=
  {| gm_rows := gm_rows self; gm_cols := gm_cols self;
     gm_start := gm_start self; gm_goal := gm_goal self; gm_cells := cells |}.

Definition set_start (self : GridManager) (p : coord) : GridManager :=
  {| gm_rows := gm_rows self; gm_cols := gm_cols self;
     gm_start := p; gm_goal := gm_goal self; gm_cells := gm_cells self |}.

Definition set_goal (self : GridManager) (p : coord) : GridManager :=
  {| gm_rows := gm_rows self; gm_cols := gm_cols self;
     gm_start := gm_start self; gm_goal := p; gm_cells := gm_cells self |}.

(** [self.cells[r][c] = v] *)
Definition assign_cell (r c v : Z) (self : GridManager) : res unit * GridManager :=
  match cells_set (gm_cells self) r c v with
  | None => (Raise IndexError, self)
  | Some cells' => (Ret tt, set_cells self cells')
  end.

Definition _make_empty_grid (rows cols : Z) : list (list Z) :=
  replicate (Z.to_nat rows) (replicate (Z.to_nat cols) EMPTY).

(** [GridManager(rows, cols)]: an exception in the constructor leaves no object. *)
Definition GridManager_init (rows cols : Z) : res GridManager :=
  let self := {| gm_rows := rows; gm_cols := cols;
                 gm_start := (0, 0); gm_goal := (rows - 1, cols - 1);
                 gm_cells := _make_empty_grid rows cols |} in
  match assign_cell 0 0 START self with
  | (Ret _, self1) =>
      match assign_cell (rows - 1) (cols - 1) GOAL self1 with
      | (Ret _, self2) => Ret self2
      | (Raise e, _) => Raise e
      | (OutOfFuel, _) => OutOfFuel
      end
  | (Raise e, _) => Raise e
  | (OutOfFuel, _) => OutOfFuel
  end.

Definition _is_safe_to_edit (self : GridManager) (row col : Z) : bool :=
  if decide ((row, col) = gm_start self) then false
  else if decide ((row, col) = gm_goal self) then false
  else if negb ((0 <=? row) && (row <? gm_rows self)) then false
  else if negb ((0 <=? col) && (col <? gm_cols self)) then false
  else true.

Definition clear_obstacles (self : GridManager) : res unit * GridManager :=
  for_each (fun r =>
    for_each (fun c self =>
      match cells_get (gm_cells self) r c with
      | None => (Raise IndexError, self)
      | Some x => if x =? OBSTACLE then assign_cell r c EMPTY self else (Ret tt, self)
      end) (py_range (gm_cols self)))
    (py_range (gm_rows self)) self.

Definition toggle_obstacle (self : GridManager) (row col : Z) : res (option Z) * GridManager :=
  if negb (_is_safe_to_edit self row col) then (Ret None, self)
  else
    match cells_get (gm_cells self) row col with
    | None => (Raise IndexError, self)
    | Some x =>
        if x =? OBSTACLE then
          match assign_cell row col EMPTY self with
          | (Ret _, self') => (Ret (Some EMPTY), self')
          | (Raise e, self') => (Raise e, self')
          | (OutOfFuel, self') => (OutOfFuel, self')
          end
        else
          match assign_cell row col OBSTACLE self with
          | (Ret _, self') => (Ret (Some OBSTACLE), self')
          | (Raise e, self') => (Raise e, self')
          | (OutOfFuel, self') => (OutOfFuel, self')
          end
    end.

Definition place_obstacle (self : GridManager) (row col : Z) : res bool * GridManager :=
  if negb (_is_safe_to_edit self row col) then (Ret false, self)
  else
    match cells_get (gm_cells self) row col with
    | None => (Raise IndexError, self)
    | Some x =>
        if x =? OBSTACLE then (Ret false, self)
        else
          match assign_cell row col OBSTACLE self with
          | (Ret _, self') => (Ret true, self')
          | (Raise e, self') => (Raise e, self')
          | (OutOfFuel, self') => (OutOfFuel, self')
          end
    end.

(** [generate_random].  The density is kept as the exact quotient
    [density_percent / 100].  The code divides by [100.0] and compares every
    draw with the float nearest to the quotient; a draw is a multiple of
    2^-53, and so the float comparison and the exact one give the same answer
    for every draw [x] with [density <= x] or [x + 2^-53 <= density].  The
    OverflowError of the division, for an integer beyond the floats, is not
    modelled. *)
Definition generate_random_cell (density : Q) (r c : Z) (w : GridManager * rng_state)
    : res unit * (GridManager * rng_state) :=
  let '(self, g) := w in
  if decide ((r, c) = gm_start self) then (Ret tt, w)
  else if decide ((r, c) = gm_goal self) then (Ret tt, w)
  else
    let '(x, g') := py_random g in
    let '(out, self') :=
      if Qlt_le_dec x density then assign_cell r c OBSTACLE self
      else assign_cell r c EMPTY self in
    (out, (self', g')).

Definition generate_random (self : GridManager) (density_percent : Z) (g : rng_state)
    : res unit * (GridManager * rng_state) :=
  let density := (inject_Z density_percent / 100)%Q in
  for_each (fun r =>
    for_each (fun c => generate_random_cell density r c) (py_range (gm_cols self)))
    (py_range (gm_rows self)) (self, g).

(** One turn of the [for _ in range(20)] loop of [try_spawn_dynamic_obstacle];
    [Return] is the [return] inside the loop, [Continue] each [continue]. *)
Definition spawn_attempt (agent_pos : coord) (current_path : list coord)
    (w : GridManager * rng_state)
    : res (loop_step unit (option coord * bool)) * (GridManager * rng_state) :=
  let '(self, g) := w in
  match py_randint 0 (gm_rows self - 1) g with
  | (Ret r, g1) =>
      match py_randint 0 (gm_cols self - 1) g1 with
      | (Ret c, g2) =>
          if decide ((r, c) = gm_start self) then (Ret (Continue tt), (self, g2))
          else if decide ((r, c) = gm_goal self) then (Ret (Continue tt), (self, g2))
          else if decide ((r, c) = agent_pos) then (Ret (Continue tt), (self, g2))
          else
            match cells_get (gm_cells self) r c with
            | None => (Raise IndexError, (self, g2))
            | Some x =>
                if x =? OBSTACLE then (Ret (Continue tt), (self, g2))
                else
                  match assign_cell r c OBSTACLE self with
                  | (Ret _, self') =>
                      (Ret (Return (Some (r, c), bool_decide ((r, c) ∈ current_path))),
                       (self', g2))
                  | (Raise e, self') => (Raise e, (self', g2))
                  | (OutOfFuel, self') => (OutOfFuel, (self', g2))
                  end
            end
      | (Raise e, g2) => (Raise e, (self, g2))
      | (OutOfFuel, g2) => (OutOfFuel, (self, g2))
      end
  | (Raise e, g1) => (Raise e, (self, g1))
  | (OutOfFuel, g1) => (OutOfFuel, (self, g1))
  end.

Fixpoint spawn_attempts (n : nat) (agent_pos : coord) (current_path : list coord)
    (w : GridManager * rng_state) : res (option coord * bool) * (GridManager * rng_state) :=
  match n with
  | O => (Ret (None, false), w)
  | S n' =>
      match spawn_attempt agent_pos current_path w with
      | (Ret (Continue _), w') => spawn_attempts n' agent_pos current_path w'
      | (Ret (Return v), w') => (Ret v, w')
      | (Raise e, w') => (Raise e, w')
      | (OutOfFuel, w') => (OutOfFuel, w')
      end
  end.

Definition try_spawn_dynamic_obstacle (self : GridManager) (agent_pos : coord)
    (current_path : list coord) (spawn_prob : Q) (g : rng_state)
    : res (option coord * bool) * (GridManager * rng_state) :=
  let '(x, g') := py_random g in
  if Qlt_le_dec spawn_prob x then (Ret (None, false), (self, g'))
  else spawn_attempts 20 agent_pos current_path (self, g').

Definition move_start (self : GridManager) (new_row new_col : Z)
    : res (option coord) * GridManager :=
  if decide ((new_row, new_col) = gm_goal self) then (Ret None, self)
  else
    let old_start := gm_start self in
    match assign_cell old_start.1 old_start.2 EMPTY self with
    | (Ret _, self1) =>
        let self2 := set_start self1 (new_row, new_col) in
        match assign_cell new_row new_col START self2 with
        | (Ret _, self3) => (Ret (Some old_start), self3)
        | (Raise e, self3) => (Raise e, self3)
        | (OutOfFuel, self3) => (OutOfFuel, self3)
        end
    | (Raise e, self1) => (Raise e, self1)
    | (OutOfFuel, self1) => (OutOfFuel, self1)
    end.

Definition move_goal (self : GridManager) (new_row new_col : Z)
    : res (option coord) * GridManager :=
  if decide ((new_row, new_col) = gm_start self) then (Ret None, self)
  else
    let old_goal := gm_goal self in
    match assign_cell old_goal.1 old_goal.2 EMPTY self with
    | (Ret _, self1) =>
        let self2 := set_goal self1 (new_row, new_col) in
        match assign_cell new_row new_col GOAL self2 with
        | (Ret _, self3) => (Ret (Some old_goal), self3)
        | (Raise e, self3) => (Raise e, self3)
        | (OutOfFuel, self3) => (OutOfFuel, self3)
        end
    | (Raise e, self1) => (Raise e, self1)
    | (OutOfFuel, self1) => (OutOfFuel, self1)
    end.


(** [resize]: the fields are replaced one by one, so an exception in one of
    the two cell assignments leaves the manager with what was stored up to
    there. *)
Definition resize (self : GridManager) (new_rows new_cols : Z) : res unit * GridManager :=
  let self1 := {| gm_rows := new_rows; gm_cols := new_cols;
                  gm_start := (0, 0); gm_goal := (new_rows - 1, new_cols - 1);
                  gm_cells := _make_empty_grid new_rows new_cols |} in
  match assign_cell 0 0 START self1 with
  | (Ret _, self2) => assign_cell (new_rows - 1) (new_cols - 1) GOAL self2
  | other => other
  end.

Definition get_cell (self : GridManager) (row col : Z) : res Z :=
  match cells_get (gm_cells self) row col with
  | None => Raise IndexError
  | Some x => Ret x
  end.

Definition is_obstacle (self : GridManager) (row col : Z) : res bool :=
  match cells_get (gm_cells self) row col with
  | None => Raise IndexError
  | Some x => Ret (x =? OBSTACLE)
  end.
(** * Vocabulary of the properties *)

(** ** Grids, steps and paths *)

Definition in_bounds (rows cols : Z) (p : coord) : Prop :=
  0 <= p.1 < rows ∧ 0 <= p.2 < cols.

(** Up, down, left or right of each other. *)
Definition adjacent4 (u v : coord) : Prop :=
  Z.abs (u.1 - v.1) + Z.abs (u.2 - v.2) = 1.

(** A cell the search may move into. *)
Definition walkable (grid : list (list Z)) (rows cols : Z) (v : coord) : Prop :=
  in_bounds rows cols v ∧ ∃ x, cells_get grid v.1 v.2 = Some x ∧ x ≠ OBSTACLE.

(** One step of cost 1. *)
Definition edge (grid : list (list Z)) (rows cols : Z) (u v : coord) : Prop :=
  adjacent4 u v ∧ walkable grid rows cols v.

Fixpoint linked (R : coord -> coord -> Prop) (l : list coord) : Prop :=
  match l with
  | a :: (b :: _) as t => R a b ∧ linked R t
  | _ => True
  end.

(** [l] leads from [a] to [b] by steps of the grid. *)
Definition is_path (grid : list (list Z)) (rows cols : Z) (a b : coord) (l : list coord) : Prop :=
  head l = Some a ∧ last l = Some b ∧ linked (edge grid rows cols) l.

(** [b] is reached from [a] in [n] steps. *)
Inductive walk (R : coord -> coord -> Prop) (a : coord) : coord -> nat -> Prop :=
| walk_here : walk R a a 0
| walk_step b c n : walk R a b n -> R b c -> walk R a c (S n).

(** The list of lists is a [rows] by [cols] rectangle. *)
Definition grid_wf (grid : list (list Z)) (rows cols : Z) : Prop :=
  Z.of_nat (length grid) = rows ∧ Forall (fun row => Z.of_nat (length row) = cols) grid.

Definition obstacle_free (grid : list (list Z)) : Prop :=
  Forall (Forall (fun x => x ≠ OBSTACLE)) grid.

(** ** Heuristics *)

(** Never more than the number of steps of any path to the goal. *)
Definition admissible (h : coord -> coord -> Z) (grid : list (list Z)) (rows cols : Z)
    (goal : coord) : Prop :=
  ∀ n, 0 <= h n goal ∧
       ∀ l, is_path grid rows cols n goal l -> h n goal <= Z.of_nat (length l) - 1.

(** Drops by at most 1 along every step. *)
Definition consistent (h : coord -> coord -> Z) (grid : list (list Z)) (rows cols : Z)
    (goal : coord) : Prop :=
  ∀ u v, edge grid rows cols u v -> h u goal <= 1 + h v goal.

(** ** The search tree held in [came_from]

    [d] gives every discovered coordinate its depth in the tree: the g-score
    in A*, a ghost map in greedy best-first search. *)
Record tree_ok (R : coord -> coord -> Prop) (start : coord)
    (cf : gmap coord (option coord)) (d : gmap coord Z) : Prop := TreeOk {
  tree_d_start : d !! start = Some 0;
  tree_cf_start : cf !! start = Some None;
  tree_d_nonneg : ∀ n g, d !! n = Some g -> 0 <= g;
  tree_dom : ∀ n, is_Some (cf !! n) ↔ is_Some (d !! n);
  tree_parent : ∀ n p, cf !! n = Some (Some p) ->
                  R p n ∧ ∃ gp, d !! p = Some gp ∧ d !! n = Some (gp + 1);
  tree_root : ∀ n, cf !! n = Some None -> n = start
}.

(** Coordinates a search can ever hold: the start and the cells of the grid. *)
Definition universe (start : coord) (rows cols : Z) : gset coord :=
  {[start]} ∪ list_to_set (r ← py_range rows; c ← py_range cols; [(r, c)]).

(** ** Invariant of the A* loop

    [pending u v] marks the steps out of the node under expansion whose
    neighbour the inner loop has not looked at yet. *)
Record astar_inv_gen (grid : list (list Z)) (start goal : coord) (rows cols : Z)
    (h : coord -> coord -> Z) (pending : coord -> coord -> Prop) (s : astar_state)
    : Prop := AstarInv {
  ai_tree : tree_ok (edge grid rows cols) start (a_came_from s) (a_g_score s);
  ai_parent_closed : ∀ n p, a_came_from s !! n = Some (Some p) -> p ∈ a_closed_set s;
  ai_heap : ∀ f g n, (f, g, n) ∈ a_open_list s ->
              ∃ gn, a_g_score s !! n = Some gn ∧ gn <= g ∧ f = g + h n goal;
  ai_open : ∀ n g, a_g_score s !! n = Some g -> n ∉ a_closed_set s ->
              (g + h n goal, g, n) ∈ a_open_list s;
  ai_closed_dom : ∀ n, n ∈ a_closed_set s -> is_Some (a_g_score s !! n);
  ai_expanded : ∀ u v gu, u ∈ a_closed_set s -> edge grid rows cols u v ->
                  v ∉ a_closed_set s -> ¬ pending u v ->
                  a_g_score s !! u = Some gu ->
                  ∃ gv, a_g_score s !! v = Some gv ∧ gv <= gu + 1;
  ai_visited_nodup : NoDup (a_visited_order s);
  ai_visited_closed : ∀ n, n ∈ a_visited_order s ↔ n ∈ a_closed_set s;
  ai_goal : goal ∉ a_closed_set s;
  ai_cells : ∀ n, is_Some (a_g_score s !! n) -> n = start ∨ walkable grid rows cols n
}.

Definition astar_inv (grid : list (list Z)) (start goal : coord) (rows cols : Z)
    (h : coord -> coord -> Z) (s : astar_state) : Prop :=
  astar_inv_gen grid start goal rows cols h (fun _ _ => False) s.

(** Every closed node carries the least number of steps from the start. *)
Definition astar_opt (grid : list (list Z)) (start : coord) (rows cols : Z)
    (s : astar_state) : Prop :=
  ∀ u gu n, u ∈ a_closed_set s -> a_g_score s !! u = Some gu ->
            walk (edge grid rows cols) start u n -> gu <= Z.of_nat n.

Definition astar_measure (start : coord) (rows cols : Z) (s : astar_state) : nat :=
  (length (a_open_list s) + 4 * size (universe start rows cols ∖ a_closed_set s))%nat.

(** ** Invariant of the greedy best-first loop *)
Record greedy_inv (grid : list (list Z)) (start goal : coord) (rows cols : Z)
    (s : greedy_state) : Prop := GreedyInv {
  gi_tree : ∃ d, tree_ok (edge grid rows cols) start (g_came_from s) d;
  gi_heap : ∀ e, e ∈ g_open_list s -> is_Some (g_came_from s !! e.2);
  gi_visited : ∀ n, n ∈ g_visited_order s -> is_Some (g_came_from s !! n);
  gi_nodup : NoDup (g_visited_order s ++ (snd <$> g_open_list s));
  gi_cells : ∀ n, is_Some (g_came_from s !! n) -> n = start ∨ walkable grid rows cols n
}.

Definition greedy_measure (start : coord) (rows cols : Z) (s : greedy_state) : nat :=
  (length (g_open_list s) + size (universe start rows cols ∖ dom (g_came_from s)))%nat.

(** ** States the loops pass through, and where a snapshot comes from *)

Inductive astar_reach (grid : list (list Z)) (start goal : coord) (rows cols : Z)
    (h : coord -> coord -> Z) : astar_state -> Prop :=
| astar_reach_init : astar_reach grid start goal rows cols h (astar_init start goal h)
| astar_reach_step s s' :
    astar_reach grid start goal rows cols h s ->
    astar_iter grid goal rows cols h s = Ret (Continue s') ->
    astar_reach grid start goal rows cols h s'.

Inductive greedy_reach (grid : list (list Z)) (start goal : coord) (rows cols : Z)
    (h : coord -> coord -> Z) : greedy_state -> Prop :=
| greedy_reach_init : greedy_reach grid start goal rows cols h (greedy_init start goal h)
| greedy_reach_step s s' :
    greedy_reach grid start goal rows cols h s ->
    greedy_iter grid goal rows cols h s = Ret (Continue s') ->
    greedy_reach grid start goal rows cols h s'.

(** Visited nodes without a snapshot: the goal, when the search finds it. *)
Definition goal_pops (p : option (list coord)) : nat :=
  match p with
  | Some _ => 1
  | None => 0
  end.

(** The path of a search that returned one. *)
Definition search_path (r : res search_result) : option (list coord) :=
  match r with
  | Ret (Some path, _, _) => Some path
  | _ => None
  end.

(** The [k]-th snapshot of [fr] was taken at the end of the loop turn that
    popped the [k]-th node of [vis], and holds the coordinates of all the
    entries the priority structure had when that turn ended. *)
Definition astar_log_ok (grid : list (list Z)) (start goal : coord) (rows cols : Z)
    (h : coord -> coord -> Z) (vis : list coord) (fr : list (gset coord)) : Prop :=
  ∀ k snap, fr !! k = Some snap ->
    ∃ s s' f g cur rest,
      astar_reach grid start goal rows cols h s ∧
      heappop astar_leb (a_open_list s) = Some ((f, g, cur), rest) ∧
      astar_iter grid goal rows cols h s = Ret (Continue s') ∧
      length (a_visited_order s) = k ∧
      a_visited_order s' = a_visited_order s ++ [cur] ∧
      vis !! k = Some cur ∧
      snap = list_to_set (snd <$> a_open_list s').

Definition greedy_log_ok (grid : list (list Z)) (start goal : coord) (rows cols : Z)
    (h : coord -> coord -> Z) (vis : list coord) (fr : list (gset coord)) : Prop :=
  ∀ k snap, fr !! k = Some snap ->
    ∃ s s' p cur rest,
      greedy_reach grid start goal rows cols h s ∧
      heappop greedy_leb (g_open_list s) = Some ((p, cur), rest) ∧
      greedy_iter grid goal rows cols h s = Ret (Continue s') ∧
      length (g_visited_order s) = k ∧
      g_visited_order s' = g_visited_order s ++ [cur] ∧
      vis !! k = Some cur ∧
      snap = list_to_set (snd <$> g_open_list s').

(** ** A grid on which an admissible heuristic misleads A*

    Two ways lead from (0,0) round the obstacle at (1,1) to (1,2): three steps
    along the top row, five along the bottom row.  The heuristic is exact at
    (0,2), below the true cost at (1,0) and zero elsewhere, so it never
    overestimates, but it drops by 4 on the step from (0,2) to (1,2). *)
Definition detour_grid : list (list Z) :=
  [[0; 0; 0; 1; 1; 1];
   [0; 1; 0; 0; 0; 0];
   [0; 0; 0; 1; 1; 1]].

Definition detour_h (a b : coord) : Z :=
  if decide (a = (0, 2)) then 4 else if decide (a = (1, 0)) then 5 else 0.

(** Steps to (1,5) from every free cell of [detour_grid]. *)
Definition detour_dist : list (list Z) :=
  [[6; 5; 4; 0; 0; 0];
   [7; 0; 3; 2; 1; 0];
   [6; 5; 4; 0; 0; 0]].

Definition detour_potential (p : coord) : Z :=
  if (0 <=? p.1) && (0 <=? p.2) then
    default 0 (row ← detour_dist !! Z.to_nat p.1; row !! Z.to_nat p.2)
  else 0.

Definition detour_long : list coord :=
  [(0, 0); (1, 0); (2, 0); (2, 1); (2, 2); (1, 2); (1, 3); (1, 4); (1, 5)].

Definition detour_short : list coord :=
  [(0, 0); (0, 1); (0, 2); (1, 2); (1, 3); (1, 4); (1, 5)].

(** A grid whose start cell is blocked. *)
Definition blocked_start_grid : list (list Z) :=
  [[OBSTACLE; EMPTY];
   [EMPTY; EMPTY]].

(** The path both searches find on the empty 2 by 2 grid. *)
Definition corner_path : list coord := [(0, 0); (0, 1); (1, 1)].

(** ** The grid manager *)

(** The coordinates of a [rows] by [cols] grid, row by row. *)
Definition grid_coords (rows cols : Z) : list coord :=
  r ← py_range rows; c ← py_range cols; [(r, c)].

(** The coordinates of the cells that hold state [v]. *)
Definition cells_holding (self : GridManager) (v : Z) : list coord :=
  filter (fun p => cells_get (gm_cells self) p.1 p.2 = Some v)
    (grid_coords (gm_rows self) (gm_cols self)).

(** What the grid operations keep true of a grid of [rows] by [cols] cells
    whose anchors lie apart: the Start state is held by the cell at the
    stored start and by no other, and so for Goal. *)
Record grid_inv (rows cols : Z) (self : GridManager) : Prop := GridInv {
  inv_rows : gm_rows self = rows;
  inv_cols : gm_cols self = cols;
  inv_wf : grid_wf (gm_cells self) rows cols;
  inv_start : in_bounds rows cols (gm_start self);
  inv_goal : in_bounds rows cols (gm_goal self);
  inv_apart : gm_start self ≠ gm_goal self;
  inv_start_cell : ∀ p, in_bounds rows cols p ->
    (cells_get (gm_cells self) p.1 p.2 = Some START ↔ p = gm_start self);
  inv_goal_cell : ∀ p, in_bounds rows cols p ->
    (cells_get (gm_cells self) p.1 p.2 = Some GOAL ↔ p = gm_goal self)
}.

(** The stored dimensions are those of the cell lists. *)
Definition manager_wf (self : GridManager) : Prop :=
  grid_wf (gm_cells self) (gm_rows self) (gm_cols self).

(** A call of one of the mutating operations. *)
Inductive grid_op : Type :=
| OpToggle (row col : Z)
| OpPlace (row col : Z)
| OpGenerate (density_percent : Z)
| OpClear
| OpMoveStart (new_row new_col : Z)
| OpMoveGoal (new_row new_col : Z)
| OpSpawn (agent_pos : coord) (current_path : list coord) (spawn_prob : Q).

(** The outcome of a call without its return value. *)
Definition outcome {A : Type} (r : res A) : res unit :=
  match r with
  | Ret _ => Ret tt
  | Raise e => Raise e
  | OutOfFuel => OutOfFuel
  end.

Definition apply_op (op : grid_op) (w : GridManager * rng_state)
    : res unit * (GridManager * rng_state) :=
  let '(self, g) := w in
  match op with
  | OpToggle row col =>
      let '(r, self') := toggle_obstacle self row col in (outcome r, (self', g))
  | OpPlace row col =>
      let '(r, self') := place_obstacle self row col in (outcome r, (self', g))
  | OpGenerate density_percent => generate_random self density_percent g
  | OpClear =>
      let '(r, self') := clear_obstacles self in (r, (self', g))
  | OpMoveStart new_row new_col =>
      let '(r, self') := move_start self new_row new_col in (outcome r, (self', g))
  | OpMoveGoal new_row new_col =>
      let '(r, self') := move_goal self new_row new_col in (outcome r, (self', g))
  | OpSpawn agent_pos current_path spawn_prob =>
      let '(r, w') := try_spawn_dynamic_obstacle self agent_pos current_path spawn_prob g in
      (outcome r, w')
  end.

(** The operations one after the other, up to the first that raises. *)
Definition run_ops (ops : list grid_op) (w : GridManager * rng_state)
    : res unit * (GridManager * rng_state) :=
  for_each apply_op ops w.

(** The moves of [ops] target cells of the grid. *)
Definition op_in_bounds (rows cols : Z) (op : grid_op) : Prop :=
  match op with
  | OpMoveStart r c | OpMoveGoal r c => in_bounds rows cols (r, c)
  | _ => True
  end.

(** *** Obstacle spawning *)

Definition rng_skip (n : nat) (g : rng_state) : rng_state :=
  {| rng_tape := rng_tape g; rng_pos := (rng_pos g + n)%nat |}.

(** The [k]-th cell that the attempts loop picks when it starts in state [g]. *)
Definition spawn_pick (self : GridManager) (g : rng_state) (k : nat) : coord :=
  (randint_value 0 (gm_rows self - 1) (rng_skip (2 * k) g),
   randint_value 0 (gm_cols self - 1) (rng_skip (2 * k + 1) g)).

(** A pick the loop accepts. *)
Definition spawn_free (self : GridManager) (agent_pos : coord) (p : coord) : Prop :=
  p ≠ gm_start self ∧ p ≠ gm_goal self ∧ p ≠ agent_pos ∧
  cells_get (gm_cells self) p.1 p.2 ≠ Some OBSTACLE.

#[global] Instance spawn_free_dec self agent_pos p : Decision (spawn_free self agent_pos p).
Proof. unfold spawn_free. apply _. Defined.

(** The 3 by 3 grid as the constructor leaves it. *)
Definition fresh_3x3 : GridManager :=
  {| gm_rows := 3; gm_cols := 3; gm_start := (0, 0); gm_goal := (2, 2);
     gm_cells := [[START; EMPTY; EMPTY]; [EMPTY; EMPTY; EMPTY]; [EMPTY; EMPTY; GOAL]] |}.

(** The 1 by 1 grid as the constructor leaves it. *)
Definition fresh_1x1 : GridManager :=
  {| gm_rows := 1; gm_cols := 1; gm_start := (0, 0); gm_goal := (0, 0);
     gm_cells := [[GOAL]] |}.

(** A tape of raw draws for the examples. *)
Definition sample_rng : rng_state :=
  {| rng_tape := fun n => Z.of_nat n * 7919 + 3; rng_pos := 0 |}.

(** *** Random generation *)

(** One of the two cells that [generate_random] skips. *)
Definition anchor (self : GridManager) (q : coord) : Prop :=
  q = gm_start self ∨ q = gm_goal self.

(** While [generate_random] runs on [self]: the dimensions and anchors stay,
    the cells at the anchors stay, and every other cell that is no longer
    [todo] holds a state allowed by [V]. *)
Definition generate_done (self : GridManager) (V : Z -> Prop) (todo : coord -> Prop)
    (w : GridManager * rng_state) : Prop :=
  gm_rows w.1 = gm_rows self ∧ gm_cols w.1 = gm_cols self ∧
  gm_start w.1 = gm_start self ∧ gm_goal w.1 = gm_goal self ∧
  grid_wf (gm_cells w.1) (gm_rows self) (gm_cols self) ∧
  (∀ q, in_bounds (gm_rows self) (gm_cols self) q -> anchor self q ->
        cells_get (gm_cells w.1) q.1 q.2 = cells_get (gm_cells self) q.1 q.2) ∧
  (∀ q, in_bounds (gm_rows self) (gm_cols self) q -> ¬ anchor self q -> ¬ todo q ->
        ∃ v, cells_get (gm_cells w.1) q.1 q.2 = Some v ∧ V v).


(** [self'] is [self] with the cell at [p] turned into an Obstacle. *)
Definition marked (self : GridManager) (p : coord) (self' : GridManager) : Prop :=
  gm_rows self' = gm_rows self ∧ gm_cols self' = gm_cols self ∧
  gm_start self' = gm_start self ∧ gm_goal self' = gm_goal self ∧
  grid_wf (gm_cells self') (gm_rows self) (gm_cols self) ∧
  ∀ q, in_bounds (gm_rows self) (gm_cols self) q ->
       cells_get (gm_cells self') q.1 q.2 =
         if decide (q = p) then Some OBSTACLE else cells_get (gm_cells self) q.1 q.2.

(** The cells that the 20 attempts pick, in order, from state [g]. *)
Definition spawn_picks (self : GridManager) (g : rng_state) (n : nat) : list coord :=
  spawn_pick self g <$> seq 0 n.

(** A call sequence that exercises every operation on the 3 by 3 grid. *)
Definition sample_ops : list grid_op :=
  [OpMoveStart 1 1; OpGenerate 50; OpToggle 0 0; OpSpawn (1, 1) [(0, 1); (0, 2)] (1 # 2);
   OpMoveGoal 0 2; OpClear; OpPlace 2 2].

(** The remaining path of the spawning example. *)
Definition sample_path : list coord := [(1, 1); (2, 1)].

(** ** Further vocabulary of the searches *)

(** [x] can be reached from [start] by steps of the grid. *)
Definition reachable (grid : list (list Z)) (rows cols : Z) (start x : coord) : Prop :=
  ∃ n, walk (edge grid rows cols) start x n.

(** What the greedy loop has looked at: every discovered coordinate is
    visited or waits in the priority structure, every step out of a visited
    coordinate leads to a discovered one (but for the [pending] steps out of
    the coordinate under expansion), parents are visited, the goal is not,
    and the start is the first to be visited. *)
Record greedy_cover (grid : list (list Z)) (start goal : coord) (rows cols : Z)
    (pending : coord -> coord -> Prop) (s : greedy_state) : Prop := GreedyCover {
  gc_found : ∀ n, is_Some (g_came_from s !! n) ->
               n ∈ g_visited_order s ∨ n ∈ (snd <$> g_open_list s);
  gc_expanded : ∀ u v, u ∈ g_visited_order s -> edge grid rows cols u v -> ¬ pending u v ->
                  is_Some (g_came_from s !! v);
  gc_parent : ∀ n p, g_came_from s !! n = Some (Some p) -> p ∈ g_visited_order s;
  gc_goal : goal ∉ g_visited_order s;
  gc_head : (g_visited_order s = [] ∧ snd <$> g_open_list s = [start]) ∨
            head (g_visited_order s) = Some start
}.

(** The start is the first coordinate that A* closes. *)
Definition astar_first (start : coord) (s : astar_state) : Prop :=
  (a_visited_order s = [] ∧ snd <$> a_open_list s = [start] ∧ a_closed_set s = ∅) ∨
  head (a_visited_order s) = Some start.

(** [b] is the parent of [a] in the came-from map. *)
Definition parent_of (cf : gmap coord (option coord)) (a b : coord) : Prop :=
  cf !! a = Some (Some b).

(** The came-from map of a path: every coordinate maps to the one before it,
    the first to [prev]. *)
Fixpoint chain_map (prev : option coord) (l : list coord) : gmap coord (option coord) :=
  match l with
  | [] => ∅
  | x :: t => <[x := prev]> (chain_map (Some x) t)
  end.

(** The four cells around [(row, col)]: up, down, left, right. *)
Definition around (row col : Z) : list coord :=
  [(row - 1, col); (row + 1, col); (row, col - 1); (row, col + 1)].

#[global] Instance walkable_dec grid rows cols v : Decision (walkable grid rows cols v).
Proof.
  unfold walkable, in_bounds.
  destruct (cells_get grid v.1 v.2) as [x|].
  - destruct (decide (x = OBSTACLE)) as [He|Hne].
    + right. intros [_ (y & [= <-] & Hy)]. done.
    + destruct (decide (0 <= v.1 < rows ∧ 0 <= v.2 < cols)) as [Hb|Hb].
      * left. split; [exact Hb|]. exists x. split; [reflexivity|exact Hne].
      * right. intros [Hb' _]. exact (Hb Hb').
  - right. intros [_ (y & Hy & _)]. discriminate Hy.
Defined.

(** The 2 by 3 grid with an Obstacle in the middle of the top row. *)
Definition wall_grid : list (list Z) :=
  [[EMPTY; OBSTACLE; EMPTY];
   [EMPTY; EMPTY; EMPTY]].

(** A grid whose goal is walled in. *)
Definition sealed_grid : list (list Z) :=
  [[EMPTY; OBSTACLE; EMPTY];
   [EMPTY; OBSTACLE; EMPTY]].

(** What both searches return on [wall_grid] from (0,0) to (0,2), and on
    [sealed_grid], where no path exists. *)
Definition wall_path : list coord := [(0, 0); (1, 0); (1, 1); (1, 2); (0, 2)].

Definition wall_frontier : list (gset coord) :=
  [{[(1, 0)]}; {[(1, 1)]}; {[(1, 2)]}; {[(0, 2)]}].

Definition sealed_visited : list coord := [(0, 0); (1, 0)].

Definition sealed_frontier : list (gset coord) := [{[(1, 0)]}; ∅].

(** ** Further vocabulary of the grid manager *)

(** Python's list indexing: [i] is a valid index of a list of [n] items, and
    the position it stands for. *)
Definition in_range (n i : Z) : Prop := - n <= i < n.

Definition wrap_index (n i : Z) : Z := if i <? 0 then n + i else i.

(** The cell that [cells[r][c]] stands for. *)
Definition wrap_cell (self : GridManager) (p : coord) : coord :=
  (wrap_index (gm_rows self) p.1, wrap_index (gm_cols self) p.2).

(** [self'] has the dimensions, the rectangular shape and the anchors of [self]. *)
Definition same_frame (self self' : GridManager) : Prop :=
  gm_rows self' = gm_rows self ∧ gm_cols self' = gm_cols self ∧
  gm_start self' = gm_start self ∧ gm_goal self' = gm_goal self ∧
  manager_wf self'.

(** The cells of [self'] are those of [self] but for the cell at [p], which
    holds [v]. *)
Definition cells_written (self : GridManager) (p : coord) (v : Z) (self' : GridManager) : Prop :=
  ∀ q, in_bounds (gm_rows self) (gm_cols self) q ->
       cells_get (gm_cells self') q.1 q.2 =
         if decide (q = p) then Some v else cells_get (gm_cells self) q.1 q.2.

(** The cells of [self'] are those of [self] but for the cell at [old], which
    is Empty, and the cell at [new], which holds [v] (also when [new] is [old]). *)
Definition cells_moved (self : GridManager) (old new : coord) (v : Z)
    (self' : GridManager) : Prop :=
  ∀ q, in_bounds (gm_rows self) (gm_cols self) q ->
       cells_get (gm_cells self') q.1 q.2 =
         if decide (q = new) then Some v
         else if decide (q = old) then Some EMPTY
         else cells_get (gm_cells self) q.1 q.2.

(** A cell that [_is_safe_to_edit] lets through. *)
Definition editable (self : GridManager) (p : coord) : Prop :=
  in_bounds (gm_rows self) (gm_cols self) p ∧ p ≠ gm_start self ∧ p ≠ gm_goal self.

#[global] Instance editable_dec self p : Decision (editable self p).
Proof. unfold editable, in_bounds. apply _. Defined.

#[global] Instance in_range_dec n i : Decision (in_range n i).
Proof. unfold in_range. apply _. Defined.

#[global] Instance anchor_dec self q : Decision (anchor self q).
Proof. unfold anchor. apply _. Defined.

(** The state a toggle leaves in a cell that held [x]. *)
Definition toggled (x : Z) : Z := if x =? OBSTACLE then EMPTY else OBSTACLE.

(** The cells that [generate_random] re-rolls, in the order of its loops. *)
Definition free_cells (self : GridManager) : list coord :=
  filter (fun q => ¬ anchor self q) (grid_coords (gm_rows self) (gm_cols self)).

(** What [generate_random] leaves in the cell that gets the draw of state [g]. *)
Definition rolled (density_percent : Z) (g : rng_state) : Z :=
  if Qlt_le_dec (random_value g) (inject_Z density_percent / 100) then OBSTACLE else EMPTY.

(** [density_percent / 100.0] turns the integer into a float before it
    divides, and Python raises OverflowError for an integer beyond the floats;
    every integer below 2^1023 in absolute value has a float. *)
Definition density_fits (density_percent : Z) : Prop := Z.abs density_percent < 2 ^ 1023.

Definition op_density_fits (op : grid_op) : Prop :=
  match op with
  | OpGenerate density_percent => density_fits density_percent
  | _ => True
  end.

(** The distance between two neighbouring values of [random.random()]. *)
Definition draw_step : Q := Qmake 1 (2 ^ 53)%positive.

(** The manager a failed [resize] leaves behind. *)
Definition blank_grid (rows cols : Z) : GridManager :=
  {| gm_rows := rows; gm_cols := cols; gm_start := (0, 0);
     gm_goal := (rows - 1, cols - 1); gm_cells := _make_empty_grid rows cols |}.

(** The outcome of an operation is a return or an IndexError. *)
Definition returns_or_index_error {A : Type} (r : res A) : Prop :=
  (∃ a, r = Ret a) ∨ r = Raise IndexError.

(** A 3 by 3 grid with two Obstacles. *)
Definition dotted_3x3 : GridManager :=
  {| gm_rows := 3; gm_cols := 3; gm_start := (0, 0); gm_goal := (2, 2);
     gm_cells := [[START; OBSTACLE; EMPTY]; [EMPTY; EMPTY; OBSTACLE]; [EMPTY; EMPTY; GOAL]] |}.

(** [self'] has the dimensions and the rectangular shape of [self]. *)
Definition same_shape (self self' : GridManager) : Prop :=
  gm_rows self' = gm_rows self ∧ gm_cols self' = gm_cols self ∧ manager_wf self'.

(** Every cell of the grid away from the anchors is Empty or an Obstacle. *)
Definition plain_cells (self : GridManager) : Prop :=
  ∀ q, in_bounds (gm_rows self) (gm_cols self) q -> ¬ anchor self q ->
       cells_get (gm_cells self) q.1 q.2 = Some EMPTY ∨
       cells_get (gm_cells self) q.1 q.2 = Some OBSTACLE.
(** * Lemmas on the building blocks *)

(** ** Fallible code and loops *)

Lemma bind_Ret {A B : Type} (m : res A) (f : A -> res B) (b : B) :
  m ≫= f = Ret b -> ∃ a, m = Ret a ∧ f a = Ret b.
Proof. destruct m; simpl; [eauto | done | done]. Qed.

Lemma foldM_inv {S A : Type} (body : S -> A -> res S) (P : list A -> S -> Prop) :
  (∀ s x rest s', P (x :: rest) s -> body s x = Ret s' -> P rest s') ->
  ∀ l s s', P l s -> foldM body s l = Ret s' -> P [] s'.
Proof.
  intros Hbody l. induction l as [|x l IH]; intros s s' HP Hrun; simpl in Hrun.
  - by inversion Hrun; subst.
  - apply bind_Ret in Hrun as (s1 & H1 & H2). eapply IH; [|done]. eauto.
Qed.

Lemma foldM_total {S A : Type} (body : S -> A -> res S) (P : list A -> S -> Prop) :
  (∀ s x rest, P (x :: rest) s -> ∃ s', body s x = Ret s' ∧ P rest s') ->
  ∀ l s, P l s -> ∃ s', foldM body s l = Ret s' ∧ P [] s'.
Proof.
  intros Hbody l. induction l as [|x l IH]; intros s HP; simpl.
  - eauto.
  - destruct (Hbody _ _ _ HP) as (s1 & -> & HP1). simpl. by apply IH.
Qed.

Lemma run_loop_inv {S A : Type} (iter : S -> res (loop_step S A))
    (P : S -> Prop) (Q : A -> Prop) :
  (∀ s s', P s -> iter s = Ret (Continue s') -> P s') ->
  (∀ s a, P s -> iter s = Ret (Return a) -> Q a) ->
  ∀ fuel s a, P s -> run_loop iter fuel s = Ret a -> Q a.
Proof.
  intros Hc Hr fuel. induction fuel as [|fuel IH]; intros s a HP Hrun; [done|].
  simpl in Hrun. apply bind_Ret in Hrun as ([s1|a1] & Hi & Hk).
  - eapply IH; [|done]. eauto.
  - inversion Hk; subst. eauto.
Qed.

Lemma run_loop_total {S A : Type} (iter : S -> res (loop_step S A))
    (P : S -> Prop) (mu : S -> nat) :
  (∀ s, P s -> (∃ a, iter s = Ret (Return a)) ∨
                (∃ s', iter s = Ret (Continue s') ∧ P s' ∧ (mu s' < mu s)%nat)) ->
  ∀ fuel s, P s -> (mu s < fuel)%nat -> ∃ a, run_loop iter fuel s = Ret a.
Proof.
  intros Hstep fuel. induction fuel as [|fuel IH]; intros s HP Hmu; [lia|].
  simpl. destruct (Hstep _ HP) as [(a & ->)|(s' & -> & HP' & Hlt)]; simpl.
  - eauto.
  - apply IH; [done|lia].
Qed.

(** ** The priority structure *)

Section heap_lemmas.
Context {E : Type} (leb : E -> E -> bool).
Hypothesis leb_total : ∀ x y, leb x y = false -> leb y x = true.
Hypothesis leb_trans : ∀ x y z, leb x y = true -> leb y z = true -> leb x z = true.

Lemma heappop_None (h : list E) : heappop leb h = None -> h = [].
Proof.
  destruct h as [|x t]; [done|]. simpl.
  destruct (heappop leb t) as [[m rest]|]; [|done]. by destruct (leb x m).
Qed.

Lemma heappop_perm (h : list E) m rest :
  heappop leb h = Some (m, rest) -> h ≡ₚ m :: rest.
Proof.
  revert m rest. induction h as [|x t IH]; intros m rest; simpl; [done|].
  destruct (heappop leb t) as [[m' rest']|] eqn:Ht.
  - destruct (leb x m'); intros [= <- <-]; [done|].
    rewrite (IH _ _ eq_refl). apply Permutation_swap.
  - intros [= <- <-]. by rewrite (heappop_None _ Ht).
Qed.

Lemma leb_refl x : leb x x = true.
Proof. destruct (leb x x) eqn:H; [done|]. by apply leb_total in H as H'; rewrite H in H'. Qed.

Lemma heappop_min (h : list E) m rest :
  heappop leb h = Some (m, rest) -> ∀ y, y ∈ h -> leb m y = true.
Proof.
  revert m rest. induction h as [|x t IH]; intros m rest; simpl; [done|].
  destruct (heappop leb t) as [[m' rest']|] eqn:Ht.
  - destruct (leb x m') eqn:Hx; intros [= <- <-] y [->|Hy]%elem_of_cons.
    + apply leb_refl.
    + eapply leb_trans; [exact Hx|]. by eapply IH.
    + by apply leb_total.
    + by eapply IH.
  - intros [= <- <-] y [->|Hy]%elem_of_cons; [apply leb_refl|].
    rewrite (heappop_None _ Ht) in Hy. by apply elem_of_nil in Hy.
Qed.

Lemma heappop_length (h : list E) m rest :
  heappop leb h = Some (m, rest) -> length h = S (length rest).
Proof. intros H. by rewrite (heappop_perm _ _ _ H). Qed.

Lemma heappop_elem (h : list E) m rest y :
  heappop leb h = Some (m, rest) -> y ∈ h ↔ y = m ∨ y ∈ rest.
Proof. intros H. rewrite (heappop_perm _ _ _ H). apply elem_of_cons. Qed.
End heap_lemmas.

Ltac zbool :=
  repeat match goal with
  | H : _ || _ = true |- _ => apply orb_true_iff in H
  | H : _ && _ = true |- _ => apply andb_true_iff in H
  | H : _ || _ = false |- _ => apply orb_false_iff in H
  | H : _ && _ = false |- _ => apply andb_false_iff in H
  | H : negb _ = true |- _ => apply negb_true_iff in H
  | H : negb _ = false |- _ => apply negb_false_iff in H
  | H : (_ <? _) = true |- _ => apply Z.ltb_lt in H
  | H : (_ <? _) = false |- _ => apply Z.ltb_ge in H
  | H : (_ <=? _) = true |- _ => apply Z.leb_le in H
  | H : (_ <=? _) = false |- _ => apply Z.leb_gt in H
  | H : (_ =? _) = true |- _ => apply Z.eqb_eq in H
  | H : (_ =? _) = false |- _ => apply Z.eqb_neq in H
  | H : _ ∧ _ |- _ => destruct H
  | H : _ ∨ _ |- _ => destruct H
  end.

Ltac zbool_goal :=
  repeat first
    [ rewrite orb_true_iff | rewrite andb_true_iff
    | rewrite Z.ltb_lt | rewrite Z.leb_le | rewrite Z.eqb_eq ].

Lemma coord_leb_total x y : coord_leb x y = false -> coord_leb y x = true.
Proof.
  destruct x as [a b], y as [c d]. unfold coord_leb; simpl. intros H.
  zbool; zbool_goal; lia.
Qed.

Lemma coord_leb_trans x y z : coord_leb x y = true -> coord_leb y z = true -> coord_leb x z = true.
Proof.
  destruct x as [a b], y as [c d], z as [e f]. unfold coord_leb; simpl. intros H1 H2.
  zbool; zbool_goal; lia.
Qed.

Lemma greedy_leb_total x y : greedy_leb x y = false -> greedy_leb y x = true.
Proof.
  destruct x as [p [a b]], y as [q [c d]]. unfold greedy_leb, coord_leb; simpl. intros H.
  zbool; zbool_goal; lia.
Qed.

Lemma greedy_leb_trans x y z :
  greedy_leb x y = true -> greedy_leb y z = true -> greedy_leb x z = true.
Proof.
  destruct x as [p [a b]], y as [q [c d]], z as [r [e f]].
  unfold greedy_leb, coord_leb; simpl. intros H1 H2.
  zbool; zbool_goal; lia.
Qed.

Lemma astar_leb_total x y : astar_leb x y = false -> astar_leb y x = true.
Proof.
  destruct x as [[p p'] [a b]], y as [[q q'] [c d]].
  unfold astar_leb, coord_leb; simpl. intros H.
  zbool; zbool_goal; lia.
Qed.

Lemma astar_leb_trans x y z :
  astar_leb x y = true -> astar_leb y z = true -> astar_leb x z = true.
Proof.
  destruct x as [[p p'] [a b]], y as [[q q'] [c d]], z as [[r r'] [e f]].
  unfold astar_leb, coord_leb; simpl. intros H1 H2.
  zbool; zbool_goal; lia.
Qed.

(** The f-value of a least entry is a least f-value. *)
Lemma astar_leb_f x y : astar_leb x y = true -> x.1.1 <= y.1.1.
Proof.
  destruct x as [[p p'] [a b]], y as [[q q'] [c d]].
  unfold astar_leb; simpl. intros H. zbool; lia.
Qed.

(** ** Grid cells and neighbours *)

Lemma py_index_nonneg (len : nat) (i : Z) :
  0 <= i -> py_index len i = if i <? Z.of_nat len then Some (Z.to_nat i) else None.
Proof.
  intros Hi. unfold py_index.
  destruct (0 <=? i) eqn:H0; [|zbool; lia]. simpl.
  destruct (i <? Z.of_nat len) eqn:H1; [done|].
  destruct ((- Z.of_nat len <=? i) && (i <? 0)) eqn:H2; [zbool; lia|done].
Qed.

Lemma py_getitem_nonneg {A : Type} (l : list A) (i : Z) :
  0 <= i -> py_getitem l i = l !! Z.to_nat i.
Proof.
  intros Hi. unfold py_getitem. rewrite py_index_nonneg by done.
  destruct (i <? Z.of_nat (length l)) eqn:H; simpl; [done|].
  symmetry. apply lookup_ge_None. zbool. lia.
Qed.

Lemma cells_get_nonneg (cells : list (list Z)) (r c : Z) :
  0 <= r -> 0 <= c ->
  cells_get cells r c = (cells !! Z.to_nat r) ≫= (fun row => row !! Z.to_nat c).
Proof.
  intros Hr Hc. unfold cells_get. rewrite py_getitem_nonneg by done.
  destruct (cells !! Z.to_nat r) as [row|]; simpl; [|done].
  by apply py_getitem_nonneg.
Qed.

Lemma grid_wf_row (grid : list (list Z)) (rows cols : Z) (i : nat) row :
  grid_wf grid rows cols -> grid !! i = Some row -> Z.of_nat (length row) = cols.
Proof.
  intros [_ Hrows] Hi. rewrite Forall_forall in Hrows. apply Hrows.
  eapply list_elem_of_lookup_2. exact Hi.
Qed.

Lemma cells_get_in_bounds (grid : list (list Z)) (rows cols : Z) (p : coord) :
  grid_wf grid rows cols -> in_bounds rows cols p -> is_Some (cells_get grid p.1 p.2).
Proof.
  intros Hwf [Hr Hc]. rewrite cells_get_nonneg by lia.
  destruct (lookup_lt_is_Some_2 grid (Z.to_nat p.1)) as [row Hrow].
  { destruct Hwf as [Hlen _]. lia. }
  rewrite Hrow. simpl. apply lookup_lt_is_Some_2.
  pose proof (grid_wf_row _ _ _ _ _ Hwf Hrow). lia.
Qed.

Lemma adjacent4_cases (u v : coord) :
  adjacent4 u v ↔ ∃ d, d ∈ directions ∧ v = (u.1 + d.1, u.2 + d.2).
Proof.
  destruct u as [r c], v as [r' c']. unfold adjacent4, directions. simpl. split.
  - intros H.
    assert ((r' = r - 1 ∧ c' = c) ∨ (r' = r + 1 ∧ c' = c) ∨
            (r' = r ∧ c' = c - 1) ∨ (r' = r ∧ c' = c + 1)) as Hc by lia.
    destruct Hc as [[-> ->]|[[-> ->]|[[-> ->]|[-> ->]]]].
    + exists (-1, 0). split; [repeat constructor|]. simpl. f_equal; lia.
    + exists (1, 0). split; [repeat constructor|]. simpl. f_equal; lia.
    + exists (0, -1). split; [repeat constructor|]. simpl. f_equal; lia.
    + exists (0, 1). split; [repeat constructor|]. simpl. f_equal; lia.
  - intros (d & Hd & [= -> ->]).
    repeat (apply elem_of_cons in Hd as [->|Hd]); simpl; try lia.
    by apply elem_of_nil in Hd.
Qed.

Lemma adjacent4_irrefl (u : coord) : ¬ adjacent4 u u.
Proof. unfold adjacent4. lia. Qed.

Lemma adjacent4_sym (u v : coord) : adjacent4 u v -> adjacent4 v u.
Proof. unfold adjacent4. lia. Qed.

Section neighbours.
Context (grid : list (list Z)) (rows cols : Z).

Lemma neighbor_step_spec row col acc d l :
  neighbor_step grid row col rows cols acc d = Ret l ->
  let v := (row + d.1, col + d.2) in
  (walkable grid rows cols v ∧ l = acc ++ [v]) ∨ (¬ walkable grid rows cols v ∧ l = acc).
Proof.
  unfold neighbor_step. simpl.
  destruct ((0 <=? row + d.1) && (row + d.1 <? rows) && (0 <=? col + d.2) &&
            (col + d.2 <? cols)) eqn:Hb.
  - destruct (cells_get grid (row + d.1) (col + d.2)) as [x|] eqn:Hx; [|done].
    destruct (x =? OBSTACLE) eqn:Ho; intros [= <-].
    + right. split; [|done]. intros [_ (y & Hy & Hne)]. simpl in Hy.
      rewrite Hx in Hy. inversion Hy; subst. zbool. done.
    + left. split; [|done]. split.
      * unfold in_bounds; simpl. zbool. lia.
      * exists x. simpl. split; [done|]. zbool. done.
  - intros [= <-]. right. split; [|done]. intros [[Hr Hc] _]. simpl in *.
    zbool; lia.
Qed.

(** [get_neighbors] lists exactly the cells one step away, at most four. *)
Lemma get_neighbors_spec row col l :
  get_neighbors grid row col rows cols = Ret l ->
  (∀ v, v ∈ l ↔ edge grid rows cols (row, col) v) ∧ (length l <= 4)%nat.
Proof.
  intros Hrun. unfold get_neighbors in Hrun.
  pose (P := fun (rest : list (Z * Z)) (acc : list coord) =>
    ∃ seen, directions = seen ++ rest ∧ (length acc <= length seen)%nat ∧
      ∀ v, v ∈ acc ↔
        walkable grid rows cols v ∧ ∃ d, d ∈ seen ∧ v = (row + d.1, col + d.2)).
  assert (P [] l) as (seen & Hseen & Hlen & Hl).
  { eapply (foldM_inv _ P); [| |exact Hrun].
    - intros acc d rest acc' (seen & Hseen & Hlen & Hacc) Hstep.
      exists (seen ++ [d]). split; [by rewrite <- app_assoc|].
      apply neighbor_step_spec in Hstep as [[Hw ->]|[Hw ->]].
      + split; [rewrite !length_app; simpl; lia|]. intros v.
        rewrite elem_of_app, Hacc, list_elem_of_singleton. split.
        * intros [(Hv & d' & Hd' & ->)| ->].
          -- split; [done|]. exists d'. split; [apply elem_of_app; by left|done].
          -- split; [done|]. exists d. split; [|done].
             apply elem_of_app. right. by apply list_elem_of_singleton.
        * intros (Hv & d' & Hd' & ->). apply elem_of_app in Hd' as [Hd'|Hd'].
          -- left. eauto.
          -- apply list_elem_of_singleton in Hd' as ->. by right.
      + split; [rewrite length_app; simpl; lia|]. intros v. rewrite Hacc. split.
        * intros (Hv & d' & Hd' & ->). split; [done|]. exists d'.
          split; [apply elem_of_app; by left|done].
        * intros (Hv & d' & Hd' & ->). apply elem_of_app in Hd' as [Hd'|Hd'].
          -- eauto.
          -- apply list_elem_of_singleton in Hd' as ->. done.
    - exists []. split; [done|]. split; [done|]. intros v. split.
      + intros Hv. by apply elem_of_nil in Hv.
      + intros (_ & d & Hd & _). by apply elem_of_nil in Hd. }
  rewrite app_nil_r in Hseen. subst seen. split; [|exact Hlen].
  intros v. rewrite Hl. unfold edge. rewrite adjacent4_cases. simpl. tauto.
Qed.

Lemma get_neighbors_total row col :
  grid_wf grid rows cols -> ∃ l, get_neighbors grid row col rows cols = Ret l.
Proof.
  intros Hwf. unfold get_neighbors.
  destruct (foldM_total (neighbor_step grid row col rows cols) (fun _ _ => True))
    with (l := directions) (s := @nil coord) as (l & Hl & _); [|done|eauto].
  intros acc d rest _. unfold neighbor_step.
  destruct ((0 <=? row + d.1) && (row + d.1 <? rows) && (0 <=? col + d.2) &&
            (col + d.2 <? cols)) eqn:Hb; [|eauto].
  destruct (cells_get_in_bounds grid rows cols (row + d.1, col + d.2) Hwf) as [x Hx].
  { unfold in_bounds; simpl. zbool. lia. }
  simpl in Hx. rewrite Hx. destruct (x =? OBSTACLE); eauto.
Qed.
End neighbours.

(** ** Paths and walks *)

Section paths.
Context (R : coord -> coord -> Prop).

Lemma walk_cons a b c n : R a b -> walk R b c n -> walk R a c (S n).
Proof.
  intros Hab Hw. induction Hw as [|x y n Hw IH Hxy].
  - eapply walk_step; [apply walk_here|done].
  - eapply walk_step; [exact IH|done].
Qed.

Lemma walk_app a b c n m : walk R a b n -> walk R b c m -> walk R a c (n + m).
Proof.
  intros Hab Hbc. induction Hbc as [|x y m Hw IH Hxy].
  - by rewrite Nat.add_0_r.
  - rewrite Nat.add_succ_r. eapply walk_step; [exact IH|done].
Qed.

Lemma linked_walk l a b :
  head l = Some a -> last l = Some b -> linked R l -> walk R a b (pred (length l)).
Proof.
  revert a. induction l as [|x l IH]; intros a Hh Hl Hlink; [done|].
  simpl in Hh. inversion Hh; subst x. destruct l as [|y l].
  - simpl in Hl. inversion Hl; subst. apply walk_here.
  - destruct Hlink as [Hay Hlink]. rewrite last_cons_cons in Hl.
    apply (walk_cons a y b); [done|]. by apply IH.
Qed.

Lemma linked_app l1 l2 x y :
  linked R (l1 ++ [x]) -> R x y -> linked R (y :: l2) -> linked R ((l1 ++ [x]) ++ y :: l2).
Proof.
  intros H1 Hxy H2. induction l1 as [|a l1 IH]; simpl in *; [done|].
  destruct l1 as [|b l1]; simpl in *.
  - split; [tauto|]. done.
  - destruct H1 as [Hab H1]. split; [done|]. by apply IH.
Qed.

Lemma linked_snoc l x y : linked R (l ++ [x]) -> R x y -> linked R ((l ++ [x]) ++ [y]).
Proof. intros H1 Hxy. by apply linked_app. Qed.

Lemma linked_tail a l : linked R (a :: l) -> linked R l.
Proof. destruct l; simpl; tauto. Qed.

Lemma linked_elem l x y :
  linked R l -> head l = Some x -> y ∈ l -> y = x ∨ ∃ z, R z y.
Proof.
  revert x. induction l as [|a l IH]; intros x Hl Hh Hy; [by apply elem_of_nil in Hy|].
  simpl in Hh. inversion Hh; subst a.
  apply elem_of_cons in Hy as [->|Hy]; [by left|]. right.
  destruct l as [|b l]; [by apply elem_of_nil in Hy|]. destruct Hl as [Hxb Hl].
  destruct (IH b Hl eq_refl Hy) as [->|Hz]; eauto.
Qed.
End paths.

Lemma linked_reverse (R : coord -> coord -> Prop) l :
  linked (flip R) l -> linked R (reverse l).
Proof.
  induction l as [|a l IH]; [done|]. intros Hl. rewrite reverse_cons.
  destruct l as [|b l]; [done|]. destruct Hl as [Hab Hl].
  rewrite reverse_cons in *. apply linked_snoc; [by apply IH|done].
Qed.

(** ** Reading a path off the search tree *)

Lemma reconstruct_loop_mono fuel fuel' cf cur acc l :
  reconstruct_loop fuel cf cur acc = Ret l -> (fuel <= fuel')%nat ->
  reconstruct_loop fuel' cf cur acc = Ret l.
Proof.
  revert fuel' cur acc. induction fuel as [|fuel IH]; intros fuel' cur acc Hrun Hle.
  - destruct cur as [c|]; [|by destruct fuel']. simpl in Hrun.
    by destruct (cf !! c).
  - destruct cur as [c|]; [|by destruct fuel'].
    destruct fuel' as [|fuel']; [lia|]. simpl in *.
    destruct (cf !! c); [|done]. apply IH; [done|lia].
Qed.

Lemma nodup_length_size (l : list coord) (X : gset coord) :
  NoDup l -> (∀ x, x ∈ l -> x ∈ X) -> (length l <= size X)%nat.
Proof.
  intros Hnd Hsub. rewrite <- (size_list_to_set (C := gset coord) l) by done.
  apply subseteq_size. intros x Hx. apply elem_of_list_to_set in Hx. auto.
Qed.

Lemma tree_ok_insert (R : coord -> coord -> Prop) start cf d n p gp :
  tree_ok R start cf d -> n ≠ start -> R p n -> p ≠ n -> d !! p = Some gp ->
  (∀ m, cf !! m ≠ Some (Some n)) ->
  tree_ok R start (<[n := Some p]> cf) (<[n := gp + 1]> d).
Proof.
  intros Ht Hns Hpn Hne Hp Hleaf. constructor.
  - rewrite lookup_insert_ne by done. apply (tree_d_start _ _ _ _ Ht).
  - rewrite lookup_insert_ne by done. apply (tree_cf_start _ _ _ _ Ht).
  - intros m g [[<- <-]|[_ Hm]]%lookup_insert_Some.
    + pose proof (tree_d_nonneg _ _ _ _ Ht p gp Hp). lia.
    + by apply (tree_d_nonneg _ _ _ _ Ht m).
  - intros m. rewrite !lookup_insert_is_Some. rewrite (tree_dom _ _ _ _ Ht m). done.
  - intros m q [[<- [= <-]]|[Hm Hq]]%lookup_insert_Some.
    + split; [done|]. exists gp. rewrite lookup_insert_ne by done.
      by rewrite lookup_insert_eq.
    + destruct (tree_parent _ _ _ _ Ht m q Hq) as (Hqm & gq & Hgq & Hgm).
      split; [done|]. exists gq. rewrite !lookup_insert_ne; [done|done|].
      intros <-. by apply (Hleaf m).
  - intros m [[_ [=]]|[_ Hm]]%lookup_insert_Some. by apply (tree_root _ _ _ _ Ht).
Qed.

Section tree.
Context (R : coord -> coord -> Prop) (start : coord).
Context (cf : gmap coord (option coord)) (d : gmap coord Z).
Hypothesis Htree : tree_ok R start cf d.

Lemma tree_chain (k : nat) :
  ∀ n, d !! n = Some (Z.of_nat k) ->
    ∃ l, (∀ acc, reconstruct_loop (S k) cf (Some n) acc = Ret (acc ++ l)) ∧
         length l = S k ∧ head l = Some n ∧ last l = Some start ∧
         linked (flip R) l ∧ NoDup l ∧
         (∀ x, x ∈ l -> ∃ gx, d !! x = Some gx ∧ gx <= Z.of_nat k).
Proof.
  induction k as [|k IH]; intros n Hn.
  - destruct (proj2 (tree_dom _ _ _ _ Htree n)) as [[p|] Hcf]; [by eexists| |].
    + destruct (tree_parent _ _ _ _ Htree n p Hcf) as (_ & gp & Hp & Hn').
      rewrite Hn in Hn'. inversion Hn'.
      pose proof (tree_d_nonneg _ _ _ _ Htree p gp Hp). lia.
    + pose proof (tree_root _ _ _ _ Htree n Hcf) as ->.
      exists [start]. simpl. rewrite Hcf. repeat split; try done.
      * apply NoDup_singleton.
      * intros x ->%list_elem_of_singleton. exists 0. split; [|done].
        apply (tree_d_start _ _ _ _ Htree).
  - destruct (proj2 (tree_dom _ _ _ _ Htree n)) as [[p|] Hcf]; [by eexists| |].
    + destruct (tree_parent _ _ _ _ Htree n p Hcf) as (Hpn & gp & Hp & Hn').
      rewrite Hn in Hn'. inversion Hn' as [Hk].
      assert (gp = Z.of_nat k) as -> by lia.
      destruct (IH p Hp) as (l & Hloop & Hlen & Hhead & Hlast & Hlink & Hnd & Hd).
      exists (n :: l). repeat split.
      * intros acc. simpl. rewrite Hcf.
        change (reconstruct_loop (S k) cf (Some p) (acc ++ [n]) = Ret (acc ++ n :: l)).
        rewrite Hloop. by rewrite <- app_assoc.
      * simpl. by rewrite Hlen.
      * destruct l as [|y l]; [done|]. by rewrite last_cons_cons.
      * destruct l as [|y l]; [done|]. simpl in Hhead. inversion Hhead; subst y.
        split; [exact Hpn|done].
      * apply NoDup_cons. split; [|done]. intros Hin.
        destruct (Hd n Hin) as (gx & Hgx & Hle). rewrite Hn in Hgx.
        inversion Hgx. lia.
      * intros x [->|Hx]%elem_of_cons.
        -- exists (Z.of_nat (S k)). split; [done|lia].
        -- destruct (Hd x Hx) as (gx & Hgx & Hle). exists gx. split; [done|lia].
    + pose proof (tree_root _ _ _ _ Htree n Hcf) as ->.
      rewrite (tree_d_start _ _ _ _ Htree) in Hn. inversion Hn; lia.
Qed.

(** [reconstruct_path] returns the branch of the tree that ends in [n]. *)
Lemma reconstruct_path_tree n g :
  d !! n = Some g ->
  ∃ path, reconstruct_path cf n = Ret path ∧
          head path = Some start ∧ last path = Some n ∧
          linked R path ∧ NoDup path ∧ Z.of_nat (length path) = g + 1.
Proof.
  intros Hn. pose proof (tree_d_nonneg _ _ _ _ Htree n g Hn) as Hg.
  destruct (tree_chain (Z.to_nat g) n) as (l & Hloop & Hlen & Hh & Hl & Hlink & Hnd & Hd).
  { by rewrite Z2Nat.id. }
  exists (reverse l). repeat split.
  - unfold reconstruct_path.
    rewrite (reconstruct_loop_mono _ (size cf) _ _ _ _ (Hloop [])); [done|].
    rewrite <- Hlen, <- (size_dom (D := gset coord)).
    apply nodup_length_size; [done|]. intros x Hx.
    destruct (Hd x Hx) as (gx & Hgx & _). apply elem_of_dom.
    apply (tree_dom _ _ _ _ Htree). by eexists.
  - by rewrite head_reverse.
  - by rewrite last_reverse.
  - by apply linked_reverse.
  - by rewrite reverse_Permutation.
  - rewrite length_reverse, Hlen. lia.
Qed.
End tree.

(** ** The coordinates of a grid *)

Lemma elem_of_py_range (x n : Z) : x ∈ py_range n ↔ 0 <= x < n.
Proof.
  unfold py_range. rewrite list_elem_of_fmap. split.
  - intros (k & -> & Hk). apply elem_of_seq in Hk. lia.
  - intros Hx. exists (Z.to_nat x). split; [lia|]. apply elem_of_seq. lia.
Qed.

Lemma length_py_range (n : Z) : length (py_range n) = Z.to_nat n.
Proof. unfold py_range. by rewrite length_fmap, length_seq. Qed.

Lemma elem_of_all_cells (rows cols : Z) (p : coord) :
  p ∈ (r ← py_range rows; c ← py_range cols; [(r, c)]) ↔ in_bounds rows cols p.
Proof.
  unfold in_bounds. rewrite list_elem_of_bind. split.
  - intros (r & Hp & Hr). apply list_elem_of_bind in Hp as (c & Hp & Hc).
    apply list_elem_of_singleton in Hp as ->. simpl.
    apply elem_of_py_range in Hr, Hc. done.
  - intros [Hr Hc]. exists p.1. split; [|by apply elem_of_py_range].
    apply list_elem_of_bind. exists p.2. split; [|by apply elem_of_py_range].
    apply list_elem_of_singleton. by destruct p.
Qed.

Lemma length_all_cells (rows cols : Z) :
  length (r ← py_range rows; c ← py_range cols; [(r, c)]) = (Z.to_nat rows * Z.to_nat cols)%nat.
Proof.
  rewrite <- (length_py_range rows). generalize (py_range rows) as rs.
  induction rs as [|r rs IH]; [done|].
  rewrite bind_cons, length_app, IH. simpl. f_equal.
  rewrite <- (length_py_range cols). generalize (py_range cols) as cs.
  induction cs as [|c cs IHc]; [done|].
  rewrite bind_cons, length_app, IHc. done.
Qed.

Lemma size_list_to_set_le (l : list coord) :
  (size (list_to_set l : gset coord) <= length l)%nat.
Proof.
  induction l as [|x l IH].
  - by rewrite list_to_set_nil, size_empty.
  - rewrite list_to_set_cons, size_union_alt, size_singleton. simpl.
    pose proof (subseteq_size (list_to_set l ∖ {[x]}) (list_to_set l : gset coord)) as Hs.
    assert (list_to_set l ∖ {[x]} ⊆ (list_to_set l : gset coord)) as Hsub.
    { intros y [Hy _]%elem_of_difference. done. }
    specialize (Hs Hsub). lia.
Qed.

Lemma in_bounds_universe (start : coord) (rows cols : Z) (p : coord) :
  in_bounds rows cols p -> p ∈ universe start rows cols.
Proof.
  intros Hp. unfold universe. apply elem_of_union. right.
  apply elem_of_list_to_set. by apply elem_of_all_cells.
Qed.

Lemma start_universe (start : coord) (rows cols : Z) : start ∈ universe start rows cols.
Proof. unfold universe. apply elem_of_union. left. by apply elem_of_singleton. Qed.

Lemma universe_size (start : coord) (rows cols : Z) :
  (size (universe start rows cols) <= S (Z.to_nat rows * Z.to_nat cols))%nat.
Proof.
  unfold universe. rewrite size_union_alt, size_singleton.
  rewrite <- (length_all_cells rows cols).
  set (l := r ← py_range rows; c ← py_range cols; [(r, c)]).
  pose proof (size_list_to_set_le l) as Hl.
  pose proof (subseteq_size (list_to_set l ∖ {[start]}) (list_to_set l : gset coord)) as Hs.
  assert (list_to_set l ∖ {[start]} ⊆ (list_to_set l : gset coord)) as Hsub.
  { intros y [Hy _]%elem_of_difference. done. }
  specialize (Hs Hsub). simpl. apply le_n_S. etrans; [apply Hs|apply Hl].
Qed.

Lemma size_difference_step (U C : gset coord) (x : coord) :
  x ∈ U -> x ∉ C -> size (U ∖ C) = S (size (U ∖ ({[x]} ∪ C))).
Proof.
  intros HxU HxC.
  assert (U ∖ C = {[x]} ∪ U ∖ ({[x]} ∪ C)) as ->.
  { apply set_eq. intros y. rewrite elem_of_union, !elem_of_difference, elem_of_union,
      elem_of_singleton. split.
    - intros [Hy Hyc]. destruct (decide (y = x)) as [->|Hne]; [by left|].
      right. split; [done|]. intros [?|?]; done.
    - intros [->|[Hy Hn]]; [done|]. split; [done|]. intros Hc. apply Hn. by right. }
  rewrite size_union, size_singleton; [done|].
  intros y Hy%elem_of_singleton [_ Hn]%elem_of_difference. subst y.
  apply Hn. apply elem_of_union. left. by apply elem_of_singleton.
Qed.

(** * The A* loop *)

Section astar.
Context (grid : list (list Z)) (start goal : coord) (rows cols : Z).
Context (h : coord -> coord -> Z).

Abbreviation E := (edge grid rows cols).
Abbreviation inv_gen := (astar_inv_gen grid start goal rows cols h).
Abbreviation inv := (astar_inv grid start goal rows cols h).

Lemma astar_init_inv : inv (astar_init start goal h).
Proof.
  constructor; unfold heappush; simpl.
  - constructor.
    + apply lookup_singleton_eq.
    + apply lookup_singleton_eq.
    + intros n g [-> <-]%lookup_singleton_Some. done.
    + intros n. rewrite <- !elem_of_dom, !dom_singleton_L. done.
    + intros n p [_ [=]]%lookup_singleton_Some.
    + by intros n [-> _]%lookup_singleton_Some.
  - intros n p [_ [=]]%lookup_singleton_Some.
  - intros f g n Hin. apply list_elem_of_singleton in Hin as [= -> -> ->].
    exists 0. rewrite lookup_singleton_eq. split; [done|]. split; lia.
  - intros n g [-> <-]%lookup_singleton_Some _. rewrite Z.add_0_l.
    by apply list_elem_of_singleton.
  - intros n Hn. by apply not_elem_of_empty in Hn.
  - intros u v gu Hu. by apply not_elem_of_empty in Hu.
  - apply NoDup_nil_2.
  - intros n. split; intros Hn; [by apply elem_of_nil in Hn|by apply not_elem_of_empty in Hn].
  - apply not_elem_of_empty.
  - intros n [g [-> _]%lookup_singleton_Some]. by left.
Qed.

Lemma astar_inv_gen_weaken (pending pending' : coord -> coord -> Prop) s :
  (∀ u v, pending u v -> pending' u v) -> inv_gen pending s -> inv_gen pending' s.
Proof.
  intros Himp [H1 H2 H3 H4 H5 H6 H7 H8 H9 H10]. constructor; try done.
  intros u v gu Hu He Hv Hp Hgu. apply (H6 u v gu); try done.
  intros Hp'. apply Hp. auto.
Qed.

Lemma astar_inv_gen_next cur nb rest s :
  inv_gen (fun u v => u = cur ∧ v ∈ nb :: rest) s ->
  (∀ gu, nb ∉ a_closed_set s -> a_g_score s !! cur = Some gu ->
         ∃ gv, a_g_score s !! nb = Some gv ∧ gv <= gu + 1) ->
  inv_gen (fun u v => u = cur ∧ v ∈ rest) s.
Proof.
  intros [H1 H2 H3 H4 H5 H6 H7 H8 H9 H10] Hnew. constructor; try done.
  intros u v gu Hu He Hv Hp Hgu.
  destruct (decide (u = cur)) as [->|Hne]; [destruct (decide (v = nb)) as [->|Hne]|].
  - by apply Hnew.
  - apply (H6 cur v gu); try done. intros [_ [?|?]%elem_of_cons]; [done|]. by apply Hp.
  - apply (H6 u v gu); try done. by intros [? _].
Qed.

(** One turn of the neighbour loop. *)
Lemma astar_relax_spec cur nb rest s s' :
  inv_gen (fun u v => u = cur ∧ v ∈ nb :: rest) s ->
  cur ∈ a_closed_set s -> E cur nb ->
  astar_relax h goal cur s nb = Ret s' ->
  inv_gen (fun u v => u = cur ∧ v ∈ rest) s' ∧
  a_closed_set s' = a_closed_set s ∧
  a_visited_order s' = a_visited_order s ∧
  a_frontier_snapshots s' = a_frontier_snapshots s ∧
  (∀ u, u ∈ a_closed_set s -> a_g_score s' !! u = a_g_score s !! u) ∧
  (length (a_open_list s') <= S (length (a_open_list s)))%nat.
Proof.
  intros Hinv Hcur Hedge Hrun. unfold astar_relax in Hrun.
  destruct (decide (nb ∈ a_closed_set s)) as [Hnb|Hnb].
  { inversion Hrun; subst s'. split; [|split_and!; auto].
    apply (astar_inv_gen_next cur nb); [done|]. by intros gu Hn. }
  destruct (a_g_score s !! cur) as [gc|] eqn:Hgc; [|done].
  destruct (match a_g_score s !! nb with
            | Some gn => gc + 1 <? gn
            | None => true
            end) eqn:Hbet.
  2:{ inversion Hrun; subst s'. split; [|split_and!; auto].
      apply (astar_inv_gen_next cur nb); [done|]. intros gu _ Hgu.
      rewrite Hgc in Hgu. inversion Hgu; subst gu.
      destruct (a_g_score s !! nb) as [gn|]; [|done]. exists gn. split; [done|].
      zbool. lia. }
  inversion Hrun; subst s'; clear Hrun.
  destruct Hinv as [H1 H2 H3 H4 H5 H6 H7 H8 H9 H10].
  pose proof (tree_d_nonneg _ _ _ _ H1 cur gc Hgc) as Hgc0.
  assert (nb ≠ start) as Hns.
  { intros ->. rewrite (tree_d_start _ _ _ _ H1) in Hbet. zbool. lia. }
  assert (cur ≠ nb) as Hne.
  { intros ->. destruct Hedge as [Ha _]. by apply adjacent4_irrefl in Ha. }
  assert (∀ u, u ∈ a_closed_set s -> u ≠ nb) as Hclosed by (intros u Hu ->; done).
  split; [|split_and!; simpl; auto].
  - constructor; unfold heappush; simpl.
    + apply tree_ok_insert; try done. intros m Hm. apply Hnb. by apply (H2 m).
    + intros n p [[<- [= <-]]|[_ Hn]]%lookup_insert_Some; [done|]. by apply (H2 n).
    + intros f g n [Hin|Hin]%elem_of_app.
      * destruct (H3 f g n Hin) as (gn & Hgn & Hle & Hf).
        destruct (decide (n = nb)) as [->|Hn].
        -- exists (gc + 1). rewrite lookup_insert_eq. split; [done|]. split; [|done].
           rewrite Hgn in Hbet. zbool. lia.
        -- exists gn. by rewrite lookup_insert_ne.
      * apply list_elem_of_singleton in Hin as [= -> -> ->].
        exists (gc + 1). rewrite lookup_insert_eq. split; [done|]. split; lia.
    + intros n g [[<- <-]|[Hn Hg]]%lookup_insert_Some Hnc; apply elem_of_app.
      * right. by apply list_elem_of_singleton.
      * left. by apply H4.
    + intros n Hn. rewrite lookup_insert_ne by (apply not_eq_sym; auto). by apply H5.
    + intros u v gu Hu He Hv Hp Hgu.
      rewrite lookup_insert_ne in Hgu by (apply not_eq_sym; auto).
      destruct (decide (v = nb)) as [->|Hvn].
      * exists (gc + 1). rewrite lookup_insert_eq. split; [done|].
        destruct (decide (u = cur)) as [->|Huc].
        -- rewrite Hgc in Hgu. inversion Hgu. lia.
        -- destruct (H6 u nb gu) as (gv & Hgv & Hle); try done; [by intros [? _]|].
           rewrite Hgv in Hbet. zbool. lia.
      * rewrite lookup_insert_ne by (apply not_eq_sym; auto).
        apply (H6 u v gu); try done.
        intros [-> [?|?]%elem_of_cons]; [done|]. by apply Hp.
    + done.
    + done.
    + done.
    + intros n [<-|[_ Hn]]%lookup_insert_is_Some; [|by apply H10].
      right. by destruct Hedge.
  - intros u Hu. rewrite lookup_insert_ne; [done|]. apply not_eq_sym. auto.
  - unfold heappush. rewrite length_app. simpl. lia.
Qed.

Lemma astar_relax_total cur nb s :
  is_Some (a_g_score s !! cur) -> ∃ s', astar_relax h goal cur s nb = Ret s'.
Proof.
  intros [gc Hgc]. unfold astar_relax. rewrite Hgc.
  destruct (decide (nb ∈ a_closed_set s)); [eauto|].
  destruct (a_g_score s !! nb) as [gn|]; [destruct (gc + 1 <? gn)|]; eauto.
Qed.

(** The neighbour loop as a whole. *)
Lemma astar_expand_spec cur nbrs s1 :
  inv_gen (fun u v => u = cur ∧ v ∈ nbrs) s1 ->
  cur ∈ a_closed_set s1 -> (∀ v, v ∈ nbrs -> E cur v) ->
  ∃ s2, foldM (astar_relax h goal cur) s1 nbrs = Ret s2 ∧
        inv s2 ∧
        a_closed_set s2 = a_closed_set s1 ∧
        a_visited_order s2 = a_visited_order s1 ∧
        a_frontier_snapshots s2 = a_frontier_snapshots s1 ∧
        (∀ u, u ∈ a_closed_set s1 -> a_g_score s2 !! u = a_g_score s1 !! u) ∧
        (length (a_open_list s2) <= length (a_open_list s1) + length nbrs)%nat.
Proof.
  intros Hinv Hcur Hnbrs.
  pose (P := fun (rest : list coord) (s : astar_state) =>
    inv_gen (fun u v => u = cur ∧ v ∈ rest) s ∧
    a_closed_set s = a_closed_set s1 ∧
    a_visited_order s = a_visited_order s1 ∧
    a_frontier_snapshots s = a_frontier_snapshots s1 ∧
    (∀ u, u ∈ a_closed_set s1 -> a_g_score s !! u = a_g_score s1 !! u) ∧
    (length (a_open_list s) + length rest <= length (a_open_list s1) + length nbrs)%nat ∧
    (∀ v, v ∈ rest -> E cur v)).
  destruct (foldM_total (astar_relax h goal cur) P) with (l := nbrs) (s := s1)
    as (s2 & Hrun & Hi & HC & Hv & Hf & Hg & Hlen & _).
  - intros s x rest (Hi & HC & Hv & Hf & Hg & Hlen & He).
    destruct (astar_relax_total cur x s) as [s' Hs'].
    { apply (ai_closed_dom _ _ _ _ _ _ _ _ Hi). by rewrite HC. }
    exists s'. split; [done|].
    destruct (astar_relax_spec cur x rest s s') as (Hi' & HC' & Hv' & Hf' & Hg' & Hlen');
      [done|by rewrite HC|apply He; by left|done|].
    unfold P. rewrite HC', Hv', Hf'. split_and!; try done.
    + intros u Hu. rewrite Hg' by (by rewrite HC). by apply Hg.
    + simpl in Hlen. lia.
    + intros v Hv0. apply He. by right.
  - unfold P. split_and!; try done; lia.
  - exists s2. split; [done|]. split.
    { eapply astar_inv_gen_weaken; [|exact Hi].
      intros u v [_ Hin]. by apply elem_of_nil in Hin. }
    split_and!; try done. simpl in Hlen; lia.
Qed.

Lemma astar_iter_cases s r :
  astar_iter grid goal rows cols h s = Ret r ->
  (heappop astar_leb (a_open_list s) = None ∧
   r = Return (None, a_visited_order s, a_frontier_snapshots s)) ∨
  ∃ f g cur rest,
    heappop astar_leb (a_open_list s) = Some ((f, g, cur), rest) ∧
    ((cur ∈ a_closed_set s ∧ r = Continue (astar_pop s rest)) ∨
     ((cur ∉ a_closed_set s) ∧ cur = goal ∧
      ∃ path, reconstruct_path (a_came_from s) goal = Ret path ∧
              r = Return (Some path, a_visited_order s ++ [cur], a_frontier_snapshots s)) ∨
     ((cur ∉ a_closed_set s) ∧ cur ≠ goal ∧
      ∃ nbrs s2,
        get_neighbors grid cur.1 cur.2 rows cols = Ret nbrs ∧
        foldM (astar_relax h goal cur) (astar_close (astar_pop s rest) cur) nbrs = Ret s2 ∧
        r = Continue (astar_snapshot s2))).
Proof.
  unfold astar_iter.
  destruct (heappop astar_leb (a_open_list s)) as [[[[f g] cur] rest]|] eqn:Hpop.
  2:{ intros [= <-]. by left. }
  intros Hrun. right. exists f, g, cur, rest. split; [done|]. simpl in Hrun.
  destruct (decide (cur ∈ a_closed_set s)) as [Hc|Hc].
  { inversion Hrun. by left. }
  right. destruct (decide (cur = goal)) as [Hg|Hg].
  - left. apply bind_Ret in Hrun as (path & Hpath & [= <-]). eauto.
  - right. apply bind_Ret in Hrun as (nbrs & Hn & Hrun).
    apply bind_Ret in Hrun as (s2 & Hfold & [= <-]). eauto 10.
Qed.

Lemma astar_pop_inv s f g cur rest :
  inv s -> heappop astar_leb (a_open_list s) = Some ((f, g, cur), rest) ->
  cur ∈ a_closed_set s -> inv (astar_pop s rest).
Proof.
  intros [H1 H2 H3 H4 H5 H6 H7 H8 H9 H10] Hpop Hcur. constructor; simpl; try done.
  - intros f' g' n Hin. apply H3. apply (heappop_elem _ _ _ _ _ Hpop). by right.
  - intros n g' Hn Hnc. pose proof (H4 n g' Hn Hnc) as Hin.
    apply (heappop_elem _ _ _ _ _ Hpop) in Hin as [[= _ _ ->]|Hin]; done.
Qed.

Lemma astar_close_inv s f g cur rest (nbrs : list coord) :
  inv s -> heappop astar_leb (a_open_list s) = Some ((f, g, cur), rest) ->
  cur ∉ a_closed_set s -> cur ≠ goal -> (∀ v, E cur v -> v ∈ nbrs) ->
  inv_gen (fun u v => u = cur ∧ v ∈ nbrs) (astar_close (astar_pop s rest) cur).
Proof.
  intros [H1 H2 H3 H4 H5 H6 H7 H8 H9 H10] Hpop Hcur Hgoal Hnbrs.
  assert ((f, g, cur) ∈ a_open_list s) as Hin.
  { apply (heappop_elem _ _ _ _ _ Hpop). by left. }
  constructor; simpl; try done.
  - intros n p Hn. apply elem_of_union. right. by apply (H2 n).
  - intros f' g' n Hin'. apply H3. apply (heappop_elem _ _ _ _ _ Hpop). by right.
  - intros n g' Hn Hnc. apply not_elem_of_union in Hnc as [Hne Hnc].
    pose proof (H4 n g' Hn Hnc) as Hin'.
    apply (heappop_elem _ _ _ _ _ Hpop) in Hin' as [[= _ _ ->]|Hin']; [|done].
    by apply not_elem_of_singleton in Hne.
  - intros n [->%elem_of_singleton|Hn]%elem_of_union; [|by apply H5].
    destruct (H3 _ _ _ Hin) as (gn & Hgn & _). by eexists.
  - intros u v gu [->%elem_of_singleton|Hu]%elem_of_union He Hv Hp Hgu.
    + exfalso. apply Hp. split; [done|]. by apply Hnbrs.
    + apply not_elem_of_union in Hv as [_ Hv].
      apply (H6 u v gu); [done|done|done|tauto|done].
  - apply NoDup_app. split; [done|]. split; [|apply NoDup_singleton].
    intros x Hx ->%list_elem_of_singleton. apply Hcur. by apply H8.
  - intros n. rewrite elem_of_app, elem_of_union, list_elem_of_singleton, elem_of_singleton.
    rewrite H8. tauto.
  - intros [->%elem_of_singleton|Hn]%elem_of_union; done.
Qed.

Lemma astar_snapshot_inv s : inv s -> inv (astar_snapshot s).
Proof. intros [H1 H2 H3 H4 H5 H6 H7 H8 H9 H10]. by constructor. Qed.

(** What a turn that expands a node leaves behind. *)
Lemma astar_expand_turn s f g cur rest nbrs :
  inv s -> heappop astar_leb (a_open_list s) = Some ((f, g, cur), rest) ->
  cur ∉ a_closed_set s -> cur ≠ goal ->
  get_neighbors grid cur.1 cur.2 rows cols = Ret nbrs ->
  ∃ s2, foldM (astar_relax h goal cur) (astar_close (astar_pop s rest) cur) nbrs = Ret s2 ∧
        inv s2 ∧
        a_closed_set s2 = {[cur]} ∪ a_closed_set s ∧
        a_visited_order s2 = a_visited_order s ++ [cur] ∧
        a_frontier_snapshots s2 = a_frontier_snapshots s ∧
        (∀ u, u ∈ a_closed_set s2 -> a_g_score s2 !! u = a_g_score s !! u) ∧
        (length (a_open_list s2) <= length rest + 4)%nat.
Proof.
  intros Hinv Hpop Hcur Hgoal Hn.
  destruct cur as [r c]. simpl in Hn.
  apply get_neighbors_spec in Hn as [Hn Hlen].
  destruct (astar_expand_spec (r, c) nbrs (astar_close (astar_pop s rest) (r, c)))
    as (s2 & Hrun & Hi & HC & Hv & Hf & Hg & Hl).
  - eapply astar_close_inv; try done. intros v. apply Hn.
  - simpl. apply elem_of_union. left. by apply elem_of_singleton.
  - intros v. apply Hn.
  - exists s2. simpl in *. rewrite HC. split_and!; try done. lia.
Qed.

Lemma astar_iter_inv s s' :
  inv s -> astar_iter grid goal rows cols h s = Ret (Continue s') -> inv s'.
Proof.
  intros Hinv Hrun.
  apply astar_iter_cases in Hrun as [[_ [=]]|(f & g & cur & rest & Hpop & Hcase)].
  destruct Hcase as [[Hc [= ->]]|[(_ & _ & path & _ & [=])|(Hc & Hg & nbrs & s2 & Hn & Hfold & [= ->])]].
  - by eapply astar_pop_inv.
  - destruct (astar_expand_turn s f g cur rest nbrs) as (s2' & Hrun & Hi & _); try done.
    rewrite Hfold in Hrun. inversion Hrun; subst s2'. by apply astar_snapshot_inv.
Qed.

(** *** Least costs *)

(** On every walk from the start to an open node lies an open node whose
    f-value is no more than the walk promises. *)
Lemma astar_frontier_node s x n :
  inv s -> astar_opt grid start rows cols s -> consistent h grid rows cols goal ->
  walk E start x n -> x ∉ a_closed_set s ->
  ∃ y gy, (y ∉ a_closed_set s) ∧ a_g_score s !! y = Some gy ∧
          gy + h y goal <= Z.of_nat n + h x goal.
Proof.
  intros Hinv Hopt Hcons Hw. induction Hw as [|b c n Hw IH Hbc]; intros Hx.
  - exists start, 0. split; [done|]. split; [|lia].
    apply (tree_d_start _ _ _ _ (ai_tree _ _ _ _ _ _ _ _ Hinv)).
  - destruct (decide (b ∈ a_closed_set s)) as [Hb|Hb].
    + destruct (ai_closed_dom _ _ _ _ _ _ _ _ Hinv b Hb) as [gb Hgb].
      pose proof (Hopt b gb n Hb Hgb Hw) as Hle.
      destruct (ai_expanded _ _ _ _ _ _ _ _ Hinv b c gb) as (gc & Hgc & Hle');
        [done|done|done|tauto|done|].
      exists c, gc. split; [done|]. split; [done|lia].
    + destruct (IH Hb) as (y & gy & Hy & Hgy & Hle).
      exists y, gy. split; [done|]. split; [done|].
      pose proof (Hcons b c Hbc). lia.
Qed.

(** The node that gets closed carries its least cost. *)
Lemma astar_pop_optimal s f g cur rest gc n :
  inv s -> astar_opt grid start rows cols s -> consistent h grid rows cols goal ->
  heappop astar_leb (a_open_list s) = Some ((f, g, cur), rest) ->
  cur ∉ a_closed_set s -> a_g_score s !! cur = Some gc ->
  walk E start cur n -> gc <= Z.of_nat n.
Proof.
  intros Hinv Hopt Hcons Hpop Hcur Hgc Hw.
  destruct (astar_frontier_node s cur n) as (y & gy & Hy & Hgy & Hle); try done.
  pose proof (ai_open _ _ _ _ _ _ _ _ Hinv y gy Hgy Hy) as Hin.
  pose proof (heappop_min astar_leb astar_leb_total astar_leb_trans _ _ _ Hpop _ Hin) as Hmin.
  apply astar_leb_f in Hmin. simpl in Hmin.
  destruct (ai_heap _ _ _ _ _ _ _ _ Hinv f g cur) as (gn & Hgn & Hge & Hf).
  { apply (heappop_elem _ _ _ _ _ Hpop). by left. }
  rewrite Hgc in Hgn. inversion Hgn; subst gn. lia.
Qed.

Lemma astar_iter_opt s s' :
  inv s -> astar_opt grid start rows cols s -> consistent h grid rows cols goal ->
  astar_iter grid goal rows cols h s = Ret (Continue s') ->
  astar_opt grid start rows cols s'.
Proof.
  intros Hinv Hopt Hcons Hrun.
  apply astar_iter_cases in Hrun as [[_ [=]]|(f & g & cur & rest & Hpop & Hcase)].
  destruct Hcase as [[Hc [= ->]]|[(_ & _ & path & _ & [=])|(Hc & Hg & nbrs & s2 & Hn & Hfold & [= ->])]].
  - exact Hopt.
  - destruct (astar_expand_turn s f g cur rest nbrs) as (s2' & Hrun & Hi & HC & _ & _ & HG & _);
      try done.
    rewrite Hfold in Hrun. inversion Hrun; subst s2'.
    intros u gu n Hu Hgu Hw. simpl in *. rewrite HG in Hgu by done.
    rewrite HC in Hu. apply elem_of_union in Hu as [->%elem_of_singleton|Hu].
    + by apply (astar_pop_optimal s f g cur rest gu n).
    + by apply (Hopt u gu n).
Qed.

(** *** What the loop returns *)

Lemma astar_return_some s path vis fr :
  inv s -> astar_iter grid goal rows cols h s = Ret (Return (Some path, vis, fr)) ->
  (∃ f g rest, heappop astar_leb (a_open_list s) = Some ((f, g, goal), rest)) ∧
  (goal ∉ a_closed_set s) ∧
  vis = a_visited_order s ++ [goal] ∧ fr = a_frontier_snapshots s ∧
  is_path grid rows cols start goal path ∧ NoDup path ∧
  ∃ gg, a_g_score s !! goal = Some gg ∧ Z.of_nat (length path) = gg + 1.
Proof.
  intros Hinv Hrun.
  apply astar_iter_cases in Hrun as [[_ [=]]|(f & g & cur & rest & Hpop & Hcase)].
  destruct Hcase as [[Hc [=]]|[(Hc & -> & path' & Hpath & [= <- <- <-])|(_ & _ & nbrs & s2 & _ & _ & [=])]].
  destruct (ai_heap _ _ _ _ _ _ _ _ Hinv f g goal) as (gg & Hgg & _).
  { apply (heappop_elem _ _ _ _ _ Hpop). by left. }
  destruct (reconstruct_path_tree _ _ _ _ (ai_tree _ _ _ _ _ _ _ _ Hinv) goal gg Hgg)
    as (p & Hp & Hh & Hl & Hlink & Hnd & Hlen).
  rewrite Hpath in Hp. inversion Hp; subst p.
  split; [eauto|]. split_and!; try done. eauto.
Qed.

Lemma astar_closed_reach s x n :
  inv s -> a_open_list s = [] -> walk E start x n -> x ∈ a_closed_set s.
Proof.
  intros Hinv Hopen Hw.
  assert (∀ y gy, a_g_score s !! y = Some gy -> y ∈ a_closed_set s) as Hall.
  { intros y gy Hgy. destruct (decide (y ∈ a_closed_set s)) as [|Hy]; [done|].
    pose proof (ai_open _ _ _ _ _ _ _ _ Hinv y gy Hgy Hy) as Hin.
    rewrite Hopen in Hin. by apply elem_of_nil in Hin. }
  induction Hw as [|b c n Hw IH Hbc].
  - eapply Hall. apply (tree_d_start _ _ _ _ (ai_tree _ _ _ _ _ _ _ _ Hinv)).
  - destruct (decide (c ∈ a_closed_set s)) as [|Hc]; [done|].
    destruct (ai_closed_dom _ _ _ _ _ _ _ _ Hinv b IH) as [gb Hgb].
    destruct (ai_expanded _ _ _ _ _ _ _ _ Hinv b c gb) as (gc & Hgc & _);
      [done|done|done|tauto|done|].
    by eapply Hall.
Qed.

Lemma astar_return_none s vis fr :
  inv s -> astar_iter grid goal rows cols h s = Ret (Return (None, vis, fr)) ->
  vis = a_visited_order s ∧ fr = a_frontier_snapshots s ∧
  ∀ n, ¬ walk E start goal n.
Proof.
  intros Hinv Hrun.
  apply astar_iter_cases in Hrun as [[Hpop [= <- <-]]|(f & g & cur & rest & Hpop & Hcase)].
  - split; [done|]. split; [done|]. intros n Hw.
    apply (ai_goal _ _ _ _ _ _ _ _ Hinv).
    eapply astar_closed_reach; [done| |done].
    by apply (heappop_None astar_leb).
  - destruct Hcase as [[Hc [=]]|[(_ & _ & path' & _ & [=])|(_ & _ & nbrs & s2 & _ & _ & [=])]].
Qed.

(** *** Termination *)

Lemma astar_iter_progress s :
  grid_wf grid rows cols -> inv s ->
  (∃ a, astar_iter grid goal rows cols h s = Ret (Return a)) ∨
  (∃ s', astar_iter grid goal rows cols h s = Ret (Continue s') ∧ inv s' ∧
         (astar_measure start rows cols s' < astar_measure start rows cols s)%nat).
Proof.
  intros Hwf Hinv. unfold astar_iter.
  destruct (heappop astar_leb (a_open_list s)) as [[[[f g] cur] rest]|] eqn:Hpop; [|eauto].
  pose proof (heappop_length _ _ _ _ Hpop) as Hlen. simpl.
  destruct (decide (cur ∈ a_closed_set s)) as [Hc|Hc].
  { right. eexists. split; [done|]. split; [by eapply astar_pop_inv|].
    unfold astar_measure. simpl. lia. }
  destruct (ai_heap _ _ _ _ _ _ _ _ Hinv f g cur) as (gc & Hgc & _).
  { apply (heappop_elem _ _ _ _ _ Hpop). by left. }
  destruct (decide (cur = goal)) as [->|Hg].
  { left.
    destruct (reconstruct_path_tree _ _ _ _ (ai_tree _ _ _ _ _ _ _ _ Hinv) goal gc Hgc)
      as (p & -> & _). simpl. eauto. }
  right. destruct (get_neighbors_total grid rows cols cur.1 cur.2 Hwf) as [nbrs Hn].
  rewrite Hn. simpl.
  destruct (astar_expand_turn s f g cur rest nbrs) as (s2 & -> & Hi & HC & _ & _ & _ & Hl);
    try done.
  simpl. eexists. split; [done|]. split; [by apply astar_snapshot_inv|].
  unfold astar_measure. simpl. rewrite HC.
  rewrite (size_difference_step (universe start rows cols) (a_closed_set s) cur); [lia| |done].
  destruct (ai_cells _ _ _ _ _ _ _ _ Hinv cur) as [->|[Hb _]]; [by eexists| |].
  - apply start_universe.
  - by apply in_bounds_universe.
Qed.

Lemma astar_total :
  grid_wf grid rows cols -> ∃ r, astar grid start goal rows cols h = Ret r.
Proof.
  intros Hwf. unfold astar.
  apply (run_loop_total _ inv (astar_measure start rows cols)).
  - intros s Hs. by apply astar_iter_progress.
  - apply astar_init_inv.
  - unfold astar_measure, search_fuel, astar_init, heappush. simpl.
    pose proof (universe_size start rows cols) as Hu.
    rewrite difference_empty_L. lia.
Qed.

(** *** The result of a search *)

Lemma astar_result p vis fr :
  astar grid start goal rows cols h = Ret (p, vis, fr) ->
  NoDup vis ∧
  match p with
  | Some path => is_path grid rows cols start goal path ∧ NoDup path
  | None => ∀ n, ¬ walk E start goal n
  end.
Proof.
  intros Hrun.
  apply (run_loop_inv _ inv
           (fun r => NoDup r.1.2 ∧
              match r.1.1 with
              | Some path => is_path grid rows cols start goal path ∧ NoDup path
              | None => ∀ n, ¬ walk E start goal n
              end) astar_iter_inv) with (a := (p, vis, fr)) in Hrun;
    [done| |apply astar_init_inv].
  intros s [[[path|] vis'] fr'] Hinv Hret; simpl.
  - apply astar_return_some in Hret as (_ & Hg & -> & _ & Hp & Hnd & _); [|done].
    split; [|done]. apply NoDup_app. split; [apply (ai_visited_nodup _ _ _ _ _ _ _ _ Hinv)|].
    split; [|apply NoDup_singleton].
    intros x Hx ->%list_elem_of_singleton. apply Hg.
    by apply (ai_visited_closed _ _ _ _ _ _ _ _ Hinv).
  - apply astar_return_none in Hret as (-> & _ & Hno); [|done].
    split; [apply (ai_visited_nodup _ _ _ _ _ _ _ _ Hinv)|done].
Qed.

(** With a consistent heuristic no walk to the goal is shorter than the path. *)
Lemma astar_least path vis fr :
  consistent h grid rows cols goal ->
  astar grid start goal rows cols h = Ret (Some path, vis, fr) ->
  ∀ n, walk E start goal n -> (length path <= S n)%nat.
Proof.
  intros Hcons Hrun.
  apply (run_loop_inv _ (fun s => inv s ∧ astar_opt grid start rows cols s)
           (fun r => match r.1.1 with
                     | Some path => ∀ n, walk E start goal n -> (length path <= S n)%nat
                     | None => True
                     end)) with (a := (Some path, vis, fr)) in Hrun; [done| | |].
  - intros s s' [Hi Ho] Hit. split; [by eapply astar_iter_inv|by eapply astar_iter_opt].
  - intros s [[[path'|] vis'] fr'] [Hinv Hopt] Hret; simpl; [|done].
    pose proof Hret as Hret'.
    apply astar_return_some in Hret as ((f & g & rest & Hpop) & Hg & _ & _ & _ & _ & gg & Hgg & Hlen);
      [|done].
    intros n Hw.
    pose proof (astar_pop_optimal s f g goal rest gg n Hinv Hopt Hcons Hpop Hg Hgg Hw). lia.
  - split; [apply astar_init_inv|]. intros u gu n Hu. by apply not_elem_of_empty in Hu.
Qed.
End astar.
(** * The greedy best-first loop *)

Section greedy.
Context (grid : list (list Z)) (start goal : coord) (rows cols : Z).
Context (h : coord -> coord -> Z).

Abbreviation E := (edge grid rows cols).
Abbreviation inv := (greedy_inv grid start goal rows cols).
Abbreviation mu := (greedy_measure start rows cols).

Lemma greedy_init_inv : inv (greedy_init start goal h).
Proof.
  constructor; unfold heappush; simpl.
  - exists {[start := 0]}. constructor.
    + apply lookup_singleton_eq.
    + apply lookup_singleton_eq.
    + intros n g [-> <-]%lookup_singleton_Some. done.
    + intros n. rewrite <- !elem_of_dom, !dom_singleton_L. done.
    + intros n p [_ [=]]%lookup_singleton_Some.
    + by intros n [-> _]%lookup_singleton_Some.
  - intros e ->%list_elem_of_singleton. simpl. by rewrite lookup_singleton_eq.
  - intros n Hn. by apply elem_of_nil in Hn.
  - apply NoDup_singleton.
  - intros n [g [-> _]%lookup_singleton_Some]. by left.
Qed.

Lemma greedy_visit_inv s p cur rest :
  inv s -> heappop greedy_leb (g_open_list s) = Some ((p, cur), rest) ->
  inv (greedy_visit (greedy_pop s rest) cur) ∧
  is_Some (g_came_from s !! cur) ∧ cur ∉ g_visited_order s.
Proof.
  intros [H1 H2 H3 H4 H5] Hpop.
  pose proof (heappop_perm _ _ _ _ Hpop) as Hperm.
  assert (is_Some (g_came_from s !! cur)) as Hcur.
  { apply (H2 (p, cur)). apply (heappop_elem _ _ _ _ _ Hpop). by left. }
  rewrite Hperm in H4. simpl in H4.
  split; [|split; [done|]].
  - constructor; simpl; try done.
    + intros e He. apply H2. apply (heappop_elem _ _ _ _ _ Hpop). by right.
    + intros n [Hn| ->%list_elem_of_singleton]%elem_of_app; [by apply H3|done].
    + rewrite <- app_assoc. exact H4.
  - apply NoDup_app in H4 as (_ & Hdis & _). intros Hin.
    apply (Hdis cur Hin). by left.
Qed.

(** One turn of the neighbour loop. *)
Lemma greedy_discover_spec cur nb s :
  inv s -> is_Some (g_came_from s !! cur) -> E cur nb ->
  ∃ s', greedy_discover h goal cur s nb = Ret s' ∧
        inv s' ∧
        g_visited_order s' = g_visited_order s ∧
        g_frontier_snapshots s' = g_frontier_snapshots s ∧
        is_Some (g_came_from s' !! cur) ∧
        mu s' = mu s.
Proof.
  intros Hinv Hcur Hedge. unfold greedy_discover.
  destruct (g_came_from s !! nb) as [x|] eqn:Hnb.
  { exists s. by split_and!. }
  eexists. split; [done|].
  destruct Hinv as [[d Ht] H2 H3 H4 H5].
  assert (nb ≠ start) as Hns.
  { intros ->. by rewrite (tree_cf_start _ _ _ _ Ht) in Hnb. }
  assert (cur ≠ nb) as Hne.
  { intros ->. destruct Hedge as [Ha _]. by apply adjacent4_irrefl in Ha. }
  destruct (proj1 (tree_dom _ _ _ _ Ht cur) Hcur) as [gc Hgc].
  split_and!; simpl; try done.
  - constructor; unfold heappush; simpl.
    + exists (<[nb := gc + 1]> d). apply tree_ok_insert; try done.
      intros m Hm. destruct (tree_parent _ _ _ _ Ht m nb Hm) as (_ & gp & Hgp & _).
      destruct (proj2 (tree_dom _ _ _ _ Ht nb)) as [y Hy]; [by eexists|].
      by rewrite Hnb in Hy.
    + intros e [He| ->%list_elem_of_singleton]%elem_of_app; simpl.
      * apply lookup_insert_is_Some'. right. by apply H2.
      * by rewrite lookup_insert_eq.
    + intros n Hn. apply lookup_insert_is_Some'. right. by apply H3.
    + rewrite fmap_app. simpl. rewrite app_assoc. apply NoDup_app.
      split; [done|]. split; [|apply NoDup_singleton].
      intros x Hx ->%list_elem_of_singleton.
      apply elem_of_app in Hx as [Hx|Hx].
      * apply H3 in Hx. rewrite Hnb in Hx. by destruct Hx.
      * apply list_elem_of_fmap in Hx as (e & -> & He).
        apply H2 in He. rewrite Hnb in He. by destruct He.
    + intros n [<-|[_ Hn]]%lookup_insert_is_Some; [|by apply H5].
      right. by destruct Hedge.
  - apply lookup_insert_is_Some'. by right.
  - unfold greedy_measure, heappush. simpl. rewrite dom_insert_L, length_app. simpl.
    rewrite (size_difference_step (universe start rows cols) (dom (g_came_from s)) nb).
    + lia.
    + apply in_bounds_universe. by destruct Hedge as [_ [Hb _]].
    + by apply not_elem_of_dom.
Qed.

Lemma greedy_expand_spec cur nbrs s1 :
  inv s1 -> is_Some (g_came_from s1 !! cur) -> (∀ v, v ∈ nbrs -> E cur v) ->
  ∃ s2, foldM (greedy_discover h goal cur) s1 nbrs = Ret s2 ∧
        inv s2 ∧
        g_visited_order s2 = g_visited_order s1 ∧
        g_frontier_snapshots s2 = g_frontier_snapshots s1 ∧
        mu s2 = mu s1.
Proof.
  intros Hinv Hcur Hnbrs.
  pose (P := fun (rest : list coord) (s : greedy_state) =>
    inv s ∧ g_visited_order s = g_visited_order s1 ∧
    g_frontier_snapshots s = g_frontier_snapshots s1 ∧
    is_Some (g_came_from s !! cur) ∧ mu s = mu s1 ∧
    (∀ v, v ∈ rest -> E cur v)).
  destruct (foldM_total (greedy_discover h goal cur) P) with (l := nbrs) (s := s1)
    as (s2 & Hrun & Hi & Hv & Hf & _ & Hm & _).
  - intros s x rest (Hi & Hv & Hf & Hc & Hm & He).
    destruct (greedy_discover_spec cur x s) as (s' & Hs' & Hi' & Hv' & Hf' & Hc' & Hm');
      [done|done|apply He; by left|].
    exists s'. split; [done|]. unfold P. rewrite Hv', Hf', Hm'. split_and!; try done.
    intros v Hv0. apply He. by right.
  - unfold P. by split_and!.
  - exists s2. by split_and!.
Qed.

Lemma greedy_iter_cases s r :
  greedy_iter grid goal rows cols h s = Ret r ->
  (heappop greedy_leb (g_open_list s) = None ∧
   r = Return (None, g_visited_order s, g_frontier_snapshots s)) ∨
  ∃ p cur rest,
    heappop greedy_leb (g_open_list s) = Some ((p, cur), rest) ∧
    ((cur = goal ∧
      ∃ path, reconstruct_path (g_came_from s) goal = Ret path ∧
              r = Return (Some path, g_visited_order s ++ [cur], g_frontier_snapshots s)) ∨
     (cur ≠ goal ∧
      ∃ nbrs s2,
        get_neighbors grid cur.1 cur.2 rows cols = Ret nbrs ∧
        foldM (greedy_discover h goal cur) (greedy_visit (greedy_pop s rest) cur) nbrs
          = Ret s2 ∧
        r = Continue (greedy_snapshot s2))).
Proof.
  unfold greedy_iter.
  destruct (heappop greedy_leb (g_open_list s)) as [[[p cur] rest]|] eqn:Hpop.
  2:{ intros [= <-]. by left. }
  intros Hrun. right. exists p, cur, rest. split; [done|]. simpl in Hrun.
  destruct (decide (cur = goal)) as [Hg|Hg].
  - left. apply bind_Ret in Hrun as (path & Hpath & [= <-]). eauto.
  - right. apply bind_Ret in Hrun as (nbrs & Hn & Hrun).
    apply bind_Ret in Hrun as (s2 & Hfold & [= <-]). eauto 10.
Qed.

Lemma greedy_snapshot_inv s : inv s -> inv (greedy_snapshot s).
Proof. intros [H1 H2 H3 H4 H5]. by constructor. Qed.

(** What a turn that expands a node leaves behind. *)
Lemma greedy_expand_turn s p cur rest nbrs :
  inv s -> heappop greedy_leb (g_open_list s) = Some ((p, cur), rest) ->
  get_neighbors grid cur.1 cur.2 rows cols = Ret nbrs ->
  ∃ s2, foldM (greedy_discover h goal cur) (greedy_visit (greedy_pop s rest) cur) nbrs
          = Ret s2 ∧
        inv s2 ∧
        g_visited_order s2 = g_visited_order s ++ [cur] ∧
        g_frontier_snapshots s2 = g_frontier_snapshots s ∧
        (mu s2 < mu s)%nat.
Proof.
  intros Hinv Hpop Hn.
  destruct cur as [r c]. simpl in Hn. apply get_neighbors_spec in Hn as [Hn _].
  destruct (greedy_visit_inv s p (r, c) rest Hinv Hpop) as (Hi1 & Hc & _).
  destruct (greedy_expand_spec (r, c) nbrs (greedy_visit (greedy_pop s rest) (r, c)))
    as (s2 & Hrun & Hi & Hv & Hf & Hm); [done|done|intros v; apply Hn|].
  exists s2. split_and!; try done. rewrite Hm.
  unfold greedy_measure. simpl. rewrite (heappop_length _ _ _ _ Hpop). lia.
Qed.

Lemma greedy_iter_inv s s' :
  inv s -> greedy_iter grid goal rows cols h s = Ret (Continue s') -> inv s'.
Proof.
  intros Hinv Hrun.
  apply greedy_iter_cases in Hrun as [[_ [=]]|(p & cur & rest & Hpop & Hcase)].
  destruct Hcase as [(_ & path & _ & [=])|(Hg & nbrs & s2 & Hn & Hfold & [= ->])].
  destruct (greedy_expand_turn s p cur rest nbrs) as (s2' & Hrun & Hi & _); try done.
  rewrite Hfold in Hrun. inversion Hrun; subst s2'. by apply greedy_snapshot_inv.
Qed.

Lemma greedy_return_some s path vis fr :
  inv s -> greedy_iter grid goal rows cols h s = Ret (Return (Some path, vis, fr)) ->
  vis = g_visited_order s ++ [goal] ∧ fr = g_frontier_snapshots s ∧
  (goal ∉ g_visited_order s) ∧
  is_path grid rows cols start goal path ∧ NoDup path.
Proof.
  intros Hinv Hrun.
  apply greedy_iter_cases in Hrun as [[_ [=]]|(p & cur & rest & Hpop & Hcase)].
  destruct Hcase as [(-> & path' & Hpath & [= <- <- <-])|(_ & nbrs & s2 & _ & _ & [=])].
  destruct (greedy_visit_inv s p goal rest Hinv Hpop) as (_ & Hc & Hnv).
  destruct (gi_tree _ _ _ _ _ _ Hinv) as [d Ht].
  destruct (proj1 (tree_dom _ _ _ _ Ht goal) Hc) as [gg Hgg].
  destruct (reconstruct_path_tree _ _ _ _ Ht goal gg Hgg)
    as (q & Hq & Hh & Hl & Hlink & Hnd & Hlen).
  rewrite Hpath in Hq. inversion Hq; subst q. by split_and!.
Qed.

Lemma greedy_iter_progress s :
  grid_wf grid rows cols -> inv s ->
  (∃ a, greedy_iter grid goal rows cols h s = Ret (Return a)) ∨
  (∃ s', greedy_iter grid goal rows cols h s = Ret (Continue s') ∧ inv s' ∧
         (mu s' < mu s)%nat).
Proof.
  intros Hwf Hinv. unfold greedy_iter.
  destruct (heappop greedy_leb (g_open_list s)) as [[[p cur] rest]|] eqn:Hpop; [|eauto].
  simpl. destruct (greedy_visit_inv s p cur rest Hinv Hpop) as (_ & Hc & _).
  destruct (decide (cur = goal)) as [->|Hg].
  { left. destruct (gi_tree _ _ _ _ _ _ Hinv) as [d Ht].
    destruct (proj1 (tree_dom _ _ _ _ Ht goal) Hc) as [gg Hgg].
    destruct (reconstruct_path_tree _ _ _ _ Ht goal gg Hgg) as (q & -> & _).
    simpl. eauto. }
  right. destruct (get_neighbors_total grid rows cols cur.1 cur.2 Hwf) as [nbrs Hn].
  rewrite Hn. simpl.
  destruct (greedy_expand_turn s p cur rest nbrs) as (s2 & -> & Hi & _ & _ & Hm); try done.
  simpl. eexists. split; [done|]. split; [by apply greedy_snapshot_inv|].
  exact Hm.
Qed.

Lemma greedy_total :
  grid_wf grid rows cols -> ∃ r, greedy_bfs grid start goal rows cols h = Ret r.
Proof.
  intros Hwf. unfold greedy_bfs.
  apply (run_loop_total _ inv mu).
  - intros s Hs. by apply greedy_iter_progress.
  - apply greedy_init_inv.
  - unfold greedy_measure, search_fuel, greedy_init, heappush. simpl.
    pose proof (universe_size start rows cols) as Hu.
    pose proof (subseteq_size (universe start rows cols ∖ dom ({[start := None]} : gmap coord (option coord)))
                  (universe start rows cols)) as Hs.
    assert (universe start rows cols ∖ dom ({[start := None]} : gmap coord (option coord))
              ⊆ universe start rows cols) as Hsub.
    { intros y [Hy _]%elem_of_difference. done. }
    specialize (Hs Hsub). lia.
Qed.

(** *** The result of a search *)

Lemma greedy_result p vis fr :
  greedy_bfs grid start goal rows cols h = Ret (p, vis, fr) ->
  NoDup vis ∧
  match p with
  | Some path => is_path grid rows cols start goal path ∧ NoDup path
  | None => True
  end.
Proof.
  intros Hrun.
  apply (run_loop_inv _ inv
           (fun r => NoDup r.1.2 ∧
              match r.1.1 with
              | Some path => is_path grid rows cols start goal path ∧ NoDup path
              | None => True
              end) greedy_iter_inv) with (a := (p, vis, fr)) in Hrun;
    [done| |apply greedy_init_inv].
  intros s [[[path|] vis'] fr'] Hinv Hret; simpl.
  - apply greedy_return_some in Hret as (-> & _ & Hg & Hp & Hnd); [|done].
    split; [|done]. pose proof (gi_nodup _ _ _ _ _ _ Hinv) as Hn.
    apply NoDup_app in Hn as (Hn & _ & _).
    apply NoDup_app. split; [done|]. split; [|apply NoDup_singleton].
    by intros x Hx ->%list_elem_of_singleton.
  - apply greedy_iter_cases in Hret as [[_ [= -> _]]|(q & cur & rest & _ & Hcase)].
    + split; [|done]. pose proof (gi_nodup _ _ _ _ _ _ Hinv) as Hn.
      by apply NoDup_app in Hn as (Hn & _ & _).
    + destruct Hcase as [(_ & path' & _ & [=])|(_ & nbrs & s2 & _ & _ & [=])].
Qed.
End greedy.

(** * The frontier log *)

Section astar_log.
Context (grid : list (list Z)) (start goal : coord) (rows cols : Z).
Context (h : coord -> coord -> Z).

Abbreviation reach := (astar_reach grid start goal rows cols h).
Abbreviation log_ok := (astar_log_ok grid start goal rows cols h).

Lemma astar_reach_inv s : reach s -> astar_inv grid start goal rows cols h s.
Proof.
  induction 1 as [|s s' _ IH Hstep]; [apply astar_init_inv|by eapply astar_iter_inv].
Qed.

Lemma astar_log_ok_snoc vis fr x : log_ok vis fr -> log_ok (vis ++ [x]) fr.
Proof.
  intros Hlog k snap Hk.
  destruct (Hlog k snap Hk) as (s & s' & f & g & cur & rest & H1 & H2 & H3 & H4 & H5 & H6 & H7).
  exists s, s', f, g, cur, rest. split_and!; try done. by apply lookup_app_l_Some.
Qed.

Lemma astar_reach_log s :
  reach s ->
  length (a_frontier_snapshots s) = length (a_visited_order s) ∧
  log_ok (a_visited_order s) (a_frontier_snapshots s).
Proof.
  induction 1 as [|s s' Hreach [IHlen IHlog] Hstep].
  - split; [done|]. intros k snap Hk. simpl in Hk. by rewrite lookup_nil in Hk.
  - pose proof (astar_reach_inv s Hreach) as Hinv. pose proof Hstep as Hstep'.
    apply astar_iter_cases in Hstep as [[_ [=]]|(f & g & cur & rest & Hpop & Hcase)].
    destruct Hcase as [[Hc [= ->]]|[(_ & _ & path & _ & [=])|(Hc & Hg & nbrs & s2 & Hn & Hfold & [= ->])]].
    { done. }
    destruct (astar_expand_turn grid start goal rows cols h s f g cur rest nbrs)
      as (s2' & Hrun & _ & _ & Hv & Hf & _); try done.
    rewrite Hfold in Hrun. inversion Hrun; subst s2'. simpl. rewrite Hv, Hf.
    split; [rewrite !length_app; simpl; lia|].
    intros k snap Hk. apply lookup_app_Some in Hk as [Hk|[Hle Hk]].
    + by apply (astar_log_ok_snoc _ _ cur IHlog k snap).
    + apply list_lookup_singleton_Some in Hk as [Hk <-].
      assert (k = length (a_visited_order s)) as -> by lia.
      exists s, (astar_snapshot s2), f, g, cur, rest. simpl. rewrite Hv.
      split_and!; try done. by apply list_lookup_middle.
Qed.

(** One snapshot for every visited node, but for the goal that ends a
    successful search. *)
Lemma astar_log p vis fr :
  astar grid start goal rows cols h = Ret (p, vis, fr) ->
  length vis = (length fr + goal_pops p)%nat ∧ log_ok vis fr.
Proof.
  intros Hrun.
  apply (run_loop_inv _ reach
           (fun r : search_result =>
              length r.1.2 = (length r.2 + goal_pops r.1.1)%nat ∧
              log_ok r.1.2 r.2)) with (a := (p, vis, fr)) in Hrun; [done| | |].
  - intros s s' Hs Hstep. by eapply astar_reach_step.
  - intros s [[[path|] vis'] fr'] Hs Hret; simpl.
    + destruct (astar_reach_log s Hs) as [Hlen Hlog].
      apply (astar_return_some grid start goal rows cols h) in Hret as (_ & _ & -> & -> & _); [|by apply astar_reach_inv].
      split; [rewrite length_app; simpl; lia|]. by apply astar_log_ok_snoc.
    + destruct (astar_reach_log s Hs) as [Hlen Hlog].
      apply (astar_return_none grid start goal rows cols h) in Hret as (-> & -> & _); [|by apply astar_reach_inv].
      split; [lia|done].
  - apply astar_reach_init.
Qed.
End astar_log.

Section greedy_log.
Context (grid : list (list Z)) (start goal : coord) (rows cols : Z).
Context (h : coord -> coord -> Z).

Abbreviation reach := (greedy_reach grid start goal rows cols h).
Abbreviation log_ok := (greedy_log_ok grid start goal rows cols h).

Lemma greedy_reach_inv s : reach s -> greedy_inv grid start goal rows cols s.
Proof.
  induction 1 as [|s s' _ IH Hstep]; [apply greedy_init_inv|by eapply greedy_iter_inv].
Qed.

Lemma greedy_log_ok_snoc vis fr x : log_ok vis fr -> log_ok (vis ++ [x]) fr.
Proof.
  intros Hlog k snap Hk.
  destruct (Hlog k snap Hk) as (s & s' & p & cur & rest & H1 & H2 & H3 & H4 & H5 & H6 & H7).
  exists s, s', p, cur, rest. split_and!; try done. by apply lookup_app_l_Some.
Qed.

Lemma greedy_reach_log s :
  reach s ->
  length (g_frontier_snapshots s) = length (g_visited_order s) ∧
  log_ok (g_visited_order s) (g_frontier_snapshots s).
Proof.
  induction 1 as [|s s' Hreach [IHlen IHlog] Hstep].
  - split; [done|]. intros k snap Hk. simpl in Hk. by rewrite lookup_nil in Hk.
  - pose proof (greedy_reach_inv s Hreach) as Hinv. pose proof Hstep as Hstep'.
    apply greedy_iter_cases in Hstep as [[_ [=]]|(p & cur & rest & Hpop & Hcase)].
    destruct Hcase as [(_ & path & _ & [=])|(Hg & nbrs & s2 & Hn & Hfold & [= ->])].
    destruct (greedy_expand_turn grid start goal rows cols h s p cur rest nbrs)
      as (s2' & Hrun & _ & Hv & Hf & _); try done.
    rewrite Hfold in Hrun. inversion Hrun; subst s2'. simpl. rewrite Hv, Hf.
    split; [rewrite !length_app; simpl; lia|].
    intros k snap Hk. apply lookup_app_Some in Hk as [Hk|[Hle Hk]].
    + by apply (greedy_log_ok_snoc _ _ cur IHlog k snap).
    + apply list_lookup_singleton_Some in Hk as [Hk <-].
      assert (k = length (g_visited_order s)) as -> by lia.
      exists s, (greedy_snapshot s2), p, cur, rest. simpl. rewrite Hv.
      split_and!; try done. by apply list_lookup_middle.
Qed.

Lemma greedy_log p vis fr :
  greedy_bfs grid start goal rows cols h = Ret (p, vis, fr) ->
  length vis = (length fr + goal_pops p)%nat ∧ log_ok vis fr.
Proof.
  intros Hrun.
  apply (run_loop_inv _ reach
           (fun r : search_result =>
              length r.1.2 = (length r.2 + goal_pops r.1.1)%nat ∧
              log_ok r.1.2 r.2)) with (a := (p, vis, fr)) in Hrun; [done| | |].
  - intros s s' Hs Hstep. by eapply greedy_reach_step.
  - intros s [[[path|] vis'] fr'] Hs Hret; simpl.
    + destruct (greedy_reach_log s Hs) as [Hlen Hlog].
      apply (greedy_return_some grid start goal rows cols h) in Hret as (-> & -> & _); [|by apply greedy_reach_inv].
      split; [rewrite length_app; simpl; lia|]. by apply greedy_log_ok_snoc.
    + destruct (greedy_reach_log s Hs) as [Hlen Hlog].
      apply greedy_iter_cases in Hret as [[_ [= -> ->]]|(q & cur & rest & _ & Hcase)].
      * split; [lia|done].
      * destruct Hcase as [(_ & path' & _ & [=])|(_ & nbrs & s2 & _ & _ & [=])].
  - apply greedy_reach_init.
Qed.
End greedy_log.

(** * Properties of the search engine *)

(** ** Heuristics and distances *)

Lemma walk_potential (R : coord -> coord -> Prop) (phi : coord -> Z) :
  (∀ u v, R u v -> phi u <= 1 + phi v) ->
  ∀ a b n, walk R a b n -> phi a <= Z.of_nat n + phi b.
Proof.
  intros Hphi a b n Hw. induction Hw as [|b c n Hw IH Hbc]; [lia|].
  pose proof (Hphi b c Hbc). lia.
Qed.

Lemma manhattan_consistent grid rows cols goal :
  consistent manhattan_distance grid rows cols goal.
Proof.
  intros u v [Hadj _]. unfold manhattan_distance, adjacent4 in *. lia.
Qed.

Lemma manhattan_lower_bound grid rows cols a b n :
  walk (edge grid rows cols) a b n -> manhattan_distance a b <= Z.of_nat n.
Proof.
  intros Hw.
  pose proof (walk_potential _ (fun u => manhattan_distance u b)
                (manhattan_consistent grid rows cols b) a b n Hw) as H.
  simpl in H. unfold manhattan_distance in *. lia.
Qed.

Lemma is_path_walk grid rows cols a b l :
  is_path grid rows cols a b l -> walk (edge grid rows cols) a b (pred (length l)).
Proof. intros (Hh & Hl & Hlink). by apply linked_walk. Qed.

Lemma is_path_length grid rows cols a b l : is_path grid rows cols a b l -> (1 <= length l)%nat.
Proof. intros (Hh & _). destruct l; [done|simpl; lia]. Qed.

(** ** Obstacle-free grids *)

Section free_grid.
Context (grid : list (list Z)) (rows cols : Z).
Hypothesis Hwf : grid_wf grid rows cols.
Hypothesis Hfree : obstacle_free grid.

Lemma walkable_free p : in_bounds rows cols p -> walkable grid rows cols p.
Proof.
  intros Hp. split; [done|].
  destruct (cells_get_in_bounds grid rows cols p Hwf Hp) as [x Hx].
  exists x. split; [done|]. destruct Hp as [Hr Hc].
  rewrite cells_get_nonneg in Hx by lia.
  destruct (grid !! Z.to_nat p.1) as [row|] eqn:Hrow; [|done]. simpl in Hx.
  unfold obstacle_free in Hfree. rewrite Forall_forall in Hfree.
  pose proof (Hfree row (list_elem_of_lookup_2 _ _ _ Hrow)) as Hr'.
  rewrite Forall_forall in Hr'. apply Hr'. by eapply list_elem_of_lookup_2.
Qed.

(** Straight along a row or a column. *)
Lemma walk_line r c dr dc (k : nat) :
  Z.abs dr + Z.abs dc = 1 ->
  in_bounds rows cols (r, c) ->
  in_bounds rows cols (r + Z.of_nat k * dr, c + Z.of_nat k * dc) ->
  walk (edge grid rows cols) (r, c) (r + Z.of_nat k * dr, c + Z.of_nat k * dc) k.
Proof.
  intros Hd Hs. induction k as [|k IH]; intros He.
  - replace (r + Z.of_nat 0 * dr) with r by lia.
    replace (c + Z.of_nat 0 * dc) with c by lia. apply walk_here.
  - assert (in_bounds rows cols (r + Z.of_nat k * dr, c + Z.of_nat k * dc)) as Hk.
    { unfold in_bounds in *. simpl in *.
      assert ((dr = 1 ∧ dc = 0) ∨ (dr = -1 ∧ dc = 0) ∨ (dr = 0 ∧ dc = 1) ∨
              (dr = 0 ∧ dc = -1)) as [[-> ->]|[[-> ->]|[[-> ->]|[-> ->]]]] by lia; lia. }
    eapply walk_step; [by apply IH|]. split.
    + unfold adjacent4. simpl. lia.
    + by apply walkable_free.
Qed.

(** As many steps as the Manhattan distance lead from any cell to any other. *)
Lemma walk_manhattan a b :
  in_bounds rows cols a -> in_bounds rows cols b ->
  walk (edge grid rows cols) a b (Z.to_nat (manhattan_distance a b)).
Proof.
  destruct a as [r1 c1], b as [r2 c2]. intros Ha Hb.
  unfold manhattan_distance. simpl.
  replace (Z.to_nat (Z.abs (r1 - r2) + Z.abs (c1 - c2)))
    with (Z.to_nat (Z.abs (r1 - r2)) + Z.to_nat (Z.abs (c1 - c2)))%nat by lia.
  unfold in_bounds in *. simpl in *.
  apply walk_app with (b := (r2, c1)).
  - destruct (decide (r1 = r2)) as [->|Hne].
    { replace (Z.to_nat (Z.abs (r2 - r2))) with 0%nat by lia. apply walk_here. }
    replace (r2, c1) with
      (r1 + Z.of_nat (Z.to_nat (Z.abs (r1 - r2))) * Z.sgn (r2 - r1),
       c1 + Z.of_nat (Z.to_nat (Z.abs (r1 - r2))) * 0).
    2:{ f_equal; lia. }
    apply walk_line; unfold in_bounds; simpl; lia.
  - destruct (decide (c1 = c2)) as [->|Hne].
    { replace (Z.to_nat (Z.abs (c2 - c2))) with 0%nat by lia. apply walk_here. }
    replace (r2, c2) with
      (r2 + Z.of_nat (Z.to_nat (Z.abs (c1 - c2))) * 0,
       c1 + Z.of_nat (Z.to_nat (Z.abs (c1 - c2))) * Z.sgn (c2 - c1)).
    2:{ f_equal; lia. }
    apply walk_line; unfold in_bounds; simpl; lia.
Qed.
End free_grid.

(** ** The detour grid *)

Lemma detour_potential_consistent u v :
  edge detour_grid 3 6 u v -> detour_potential u <= 1 + detour_potential v.
Proof.
  destruct v as [r c]. intros [Hadj [[Hr Hc] (x & Hx & Hne)]]. simpl in *.
  apply adjacent4_sym, adjacent4_cases in Hadj as (d & Hd & ->). simpl.
  assert (r = 0 ∨ r = 1 ∨ r = 2) as Hr' by lia.
  assert (c = 0 ∨ c = 1 ∨ c = 2 ∨ c = 3 ∨ c = 4 ∨ c = 5) as Hc' by lia.
  destruct Hr' as [-> | [-> | ->]]; destruct Hc' as [-> | [-> | [-> | [-> | [-> | ->]]]]];
    vm_compute in Hx; inversion Hx; subst x; try (exfalso; by apply Hne);
    repeat (apply elem_of_cons in Hd as [->|Hd]); try (by apply elem_of_nil in Hd);
    apply Z.leb_le; vm_compute; reflexivity.
Qed.

Lemma detour_h_admissible : admissible detour_h detour_grid 3 6 (1, 5).
Proof.
  intros n. split.
  - unfold detour_h. repeat case_decide; lia.
  - intros l Hl. pose proof (is_path_length _ _ _ _ _ _ Hl) as Hlen.
    apply is_path_walk in Hl.
    apply (walk_potential _ detour_potential detour_potential_consistent) in Hl.
    change (detour_potential (1, 5)) with 0 in Hl.
    unfold detour_h. repeat case_decide; subst;
      try change (detour_potential (0, 2)) with 4 in Hl;
      try change (detour_potential (1, 0)) with 7 in Hl; lia.
Qed.

Ltac solve_edge :=
  split; [unfold adjacent4; simpl; lia|];
  split; [unfold in_bounds; simpl; lia|];
  eexists; split; [vm_compute; reflexivity|done].

Lemma detour_short_path : is_path detour_grid 3 6 (0, 0) (1, 5) detour_short.
Proof.
  split; [done|]. split; [done|]. unfold detour_short. simpl.
  repeat (split; [solve_edge|]). done.
Qed.

(** ** The claims about the search engine *)

(** C1: with a heuristic that never overestimates, a path that [astar]
    returns is to be a shortest one, as the docstring of [astar] says too.
    The code misses it: [detour_h] never overestimates on [detour_grid], and
    [astar] returns the path of 8 steps along the bottom row although the top
    row gives one of 6; the cell (1,2) is closed on the longer route before
    (0,2) is expanded, and a closed cell is never looked at again. *)
Theorem astar_admissible_not_shortest :
  admissible detour_h detour_grid 3 6 (1, 5) ∧
  search_path (astar detour_grid (0, 0) (1, 5) 3 6 detour_h) = Some detour_long ∧
  is_path detour_grid 3 6 (0, 0) (1, 5) detour_short ∧
  (length detour_short < length detour_long)%nat.
Proof.
  split; [apply detour_h_admissible|].
  split; [vm_compute; reflexivity|].
  split; [apply detour_short_path|]. simpl. lia.
Qed.

Lemma linked_impl (R R' : coord -> coord -> Prop) l :
  (∀ a b, R a b -> R' a b) -> linked R l -> linked R' l.
Proof.
  intros Himp. induction l as [|a l IH]; [done|].
  destruct l as [|b l]; [done|]. intros [Hab Hl]. split; [by apply Himp|by apply IH].
Qed.

Lemma is_path_shape grid rows cols start goal path :
  is_path grid rows cols start goal path ->
  head path = Some start ∧ last path = Some goal ∧ linked adjacent4 path ∧
  ∀ v, v ∈ path -> v = start ∨ walkable grid rows cols v.
Proof.
  intros (Hh & Hl & Hlink). split_and!; try done.
  - eapply linked_impl; [|exact Hlink]. by intros a b [Hadj _].
  - intros v Hv. destruct (linked_elem _ _ _ _ Hlink Hh Hv) as [->|[z [_ Hw]]]; auto.
Qed.

(** C5, as the code has it: a path returned by [astar] or [greedy_bfs]
    starts at start, ends at goal, repeats no coordinate, moves between
    4-adjacent cells, and every cell on it other than the start is in bounds
    and not an Obstacle.  The start cell itself is never inspected. *)
Theorem search_path_well_formed :
  ∀ grid start goal rows cols h path vis fr,
    astar grid start goal rows cols h = Ret (Some path, vis, fr) ∨
    greedy_bfs grid start goal rows cols h = Ret (Some path, vis, fr) ->
    head path = Some start ∧ last path = Some goal ∧ NoDup path ∧
    linked adjacent4 path ∧
    ∀ v, v ∈ path -> v = start ∨ walkable grid rows cols v.
Proof.
  intros grid start goal rows cols h path vis fr [Hrun|Hrun].
  - destruct (astar_result _ _ _ _ _ _ _ _ _ Hrun) as (_ & Hpath & Hnd).
    destruct (is_path_shape _ _ _ _ _ _ Hpath) as (H1 & H2 & H3 & H4). by split_and!.
  - destruct (greedy_result _ _ _ _ _ _ _ _ _ Hrun) as (_ & Hpath & Hnd).
    destruct (is_path_shape _ _ _ _ _ _ Hpath) as (H1 & H2 & H3 & H4). by split_and!.
Qed.

Lemma search_path_well_formed_witness :
  head [(0, 0); (0, 1)] = Some (0, 0) ∧ last [(0, 0); (0, 1)] = Some (0, 1) ∧
  NoDup [(0, 0); (0, 1)] ∧ linked adjacent4 [(0, 0); (0, 1)] ∧
  ∀ v, v ∈ [(0, 0); (0, 1)] -> v = (0, 0) ∨ walkable [[EMPTY; EMPTY]] 1 2 v.
Proof.
  eapply (search_path_well_formed [[EMPTY; EMPTY]] (0, 0) (0, 1) 1 2 manhattan_distance).
  left. vm_compute. reflexivity.
Defined.

(** C5 as stated fails: a search from a blocked start cell succeeds, and the
    path begins on the Obstacle. *)
Lemma search_path_from_obstacle :
  search_path (astar blocked_start_grid (0, 0) (0, 1) 2 2 manhattan_distance)
    = Some [(0, 0); (0, 1)] ∧
  search_path (greedy_bfs blocked_start_grid (0, 0) (0, 1) 2 2 manhattan_distance)
    = Some [(0, 0); (0, 1)] ∧
  cells_get blocked_start_grid 0 0 = Some OBSTACLE.
Proof. split; [vm_compute; reflexivity|]. split; vm_compute; reflexivity. Qed.

(** C6: with a heuristic that never overestimates, the path of [astar] is
    to have at most as many steps as the path of [greedy_bfs].  The code
    misses it, by the closed set that loses C1: on [detour_grid] with
    [detour_h], [greedy_bfs] returns 6 steps and [astar] 8. *)
Theorem astar_longer_than_greedy :
  admissible detour_h detour_grid 3 6 (1, 5) ∧
  search_path (astar detour_grid (0, 0) (1, 5) 3 6 detour_h) = Some detour_long ∧
  search_path (greedy_bfs detour_grid (0, 0) (1, 5) 3 6 detour_h) = Some detour_short ∧
  (length detour_short - 1 < length detour_long - 1)%nat.
Proof.
  split; [apply detour_h_admissible|].
  split; [vm_compute; reflexivity|].
  split; [vm_compute; reflexivity|]. simpl. lia.
Qed.

(** C7, as the code has it: the frontier log holds one snapshot for every
    node of visited_order but the goal that ends a successful search (the
    turn that pops the goal returns before the snapshot); the k-th snapshot
    is the set of the coordinates of all entries, stale ones included, that
    the priority structure holds at the end of the turn that popped the k-th
    visited node. *)
Theorem frontier_log_per_expansion :
  ∀ grid start goal rows cols h p vis fr,
    (astar grid start goal rows cols h = Ret (p, vis, fr) ->
     length vis = (length fr + goal_pops p)%nat ∧
     astar_log_ok grid start goal rows cols h vis fr) ∧
    (greedy_bfs grid start goal rows cols h = Ret (p, vis, fr) ->
     length vis = (length fr + goal_pops p)%nat ∧
     greedy_log_ok grid start goal rows cols h vis fr).
Proof.
  intros grid start goal rows cols h p vis fr. split.
  - apply astar_log.
  - apply greedy_log.
Qed.

Lemma frontier_log_per_expansion_witness :
  (length wall_path = (length wall_frontier + goal_pops (Some wall_path))%nat ∧
   astar_log_ok wall_grid (0, 0) (0, 2) 2 3 manhattan_distance wall_path wall_frontier) ∧
  (length sealed_visited = (length sealed_frontier + goal_pops None)%nat ∧
   greedy_log_ok sealed_grid (0, 0) (0, 2) 2 3 manhattan_distance
     sealed_visited sealed_frontier).
Proof.
  split.
  - apply (proj1 (frontier_log_per_expansion wall_grid (0, 0) (0, 2) 2 3 manhattan_distance
                    (Some wall_path) wall_path wall_frontier)).
    vm_compute. reflexivity.
  - apply (proj2 (frontier_log_per_expansion sealed_grid (0, 0) (0, 2) 2 3 manhattan_distance
                    None sealed_visited sealed_frontier)).
    vm_compute. reflexivity.
Defined.

(** C7 as stated fails: the goal is recorded in visited_order and no snapshot
    is taken for it. *)
Lemma goal_pop_without_snapshot :
  ∃ p vis fr,
    astar [[EMPTY]] (0, 0) (0, 0) 1 1 manhattan_distance = Ret (p, vis, fr) ∧
    (0, 0) ∈ vis ∧ (length fr < length vis)%nat.
Proof.
  exists (Some [(0, 0)]), [(0, 0)], []. split; [vm_compute; reflexivity|].
  split; [by apply list_elem_of_singleton|simpl; lia].
Qed.

(** C9: [run_algorithm] runs [astar] exactly when the name is "A*" and
    [greedy_bfs] for every other name, and returns that search's result as it
    is; on a rectangular grid no name makes it raise. *)
Theorem run_algorithm_dispatch :
  ∀ algo_name grid start goal rows cols h,
    run_algorithm algo_name grid start goal rows cols h =
      (if decide (algo_name = "A*") then astar grid start goal rows cols h
       else greedy_bfs grid start goal rows cols h) ∧
    (grid_wf grid rows cols ->
     ∃ r, run_algorithm algo_name grid start goal rows cols h = Ret r).
Proof.
  intros algo_name grid start goal rows cols h. unfold run_algorithm.
  destruct (String.eqb_spec algo_name "A*") as [->|Hne].
  - split; [by rewrite decide_True|]. apply astar_total.
  - split; [by rewrite decide_False|]. apply greedy_total.
Qed.

Lemma run_algorithm_dispatch_witness :
  run_algorithm "Dijkstra" [[EMPTY; EMPTY]] (0, 0) (0, 1) 1 2 manhattan_distance =
    greedy_bfs [[EMPTY; EMPTY]] (0, 0) (0, 1) 1 2 manhattan_distance ∧
  ∃ r, run_algorithm "Dijkstra" [[EMPTY; EMPTY]] (0, 0) (0, 1) 1 2 manhattan_distance = Ret r.
Proof.
  split.
  - apply (proj1 (run_algorithm_dispatch "Dijkstra" [[EMPTY; EMPTY]] (0, 0) (0, 1) 1 2
                    manhattan_distance)).
  - apply (proj2 (run_algorithm_dispatch "Dijkstra" [[EMPTY; EMPTY]] (0, 0) (0, 1) 1 2
                    manhattan_distance)).
    split; [reflexivity|]. repeat constructor.
Defined.

(** C10: the visited_order that [astar] or [greedy_bfs] returns holds
    pairwise distinct coordinates. *)
Theorem visited_order_distinct :
  ∀ grid start goal rows cols h p vis fr,
    astar grid start goal rows cols h = Ret (p, vis, fr) ∨
    greedy_bfs grid start goal rows cols h = Ret (p, vis, fr) ->
    NoDup vis.
Proof.
  intros grid start goal rows cols h p vis fr [Hrun|Hrun].
  - by destruct (astar_result _ _ _ _ _ _ _ _ _ Hrun) as (Hnd & _).
  - by destruct (greedy_result _ _ _ _ _ _ _ _ _ Hrun) as (Hnd & _).
Qed.

Lemma visited_order_distinct_witness : NoDup [(0, 0); (0, 1)].
Proof.
  eapply (visited_order_distinct [[EMPTY; EMPTY]] (0, 0) (0, 1) 1 2 manhattan_distance).
  right. vm_compute. reflexivity.
Defined.

(** * The grid manager *)

(** ** Reading and writing cells *)

Lemma cells_set_spec (cells : list (list Z)) (rows cols : Z) (p : coord) (v : Z) :
  grid_wf cells rows cols -> in_bounds rows cols p ->
  ∃ cells', cells_set cells p.1 p.2 v = Some cells' ∧
            grid_wf cells' rows cols ∧
            ∀ q, in_bounds rows cols q ->
                 cells_get cells' q.1 q.2 =
                   if decide (q = p) then Some v else cells_get cells q.1 q.2.
Proof.
  intros Hwf [Hr Hc]. pose proof Hwf as [Hlen Hrows].
  destruct (lookup_lt_is_Some_2 cells (Z.to_nat p.1)) as [row Hrow]; [lia|].
  pose proof (grid_wf_row _ _ _ _ _ Hwf Hrow) as Hrl.
  exists (<[Z.to_nat p.1 := <[Z.to_nat p.2 := v]> row]> cells). split_and!.
  - unfold cells_set. rewrite py_index_nonneg by lia.
    destruct (p.1 <? Z.of_nat (length cells)) eqn:H1; [|zbool; lia]. simpl.
    rewrite Hrow. simpl. unfold py_setitem. rewrite py_index_nonneg by lia.
    destruct (p.2 <? Z.of_nat (length row)) eqn:H2; [|zbool; lia]. done.
  - split; [by rewrite length_insert|]. apply Forall_insert; [done|].
    by rewrite length_insert.
  - intros q [Hqr Hqc]. rewrite !cells_get_nonneg by lia.
    destruct (decide (Z.to_nat q.1 = Z.to_nat p.1)) as [He|Hne].
    + rewrite He, list_lookup_insert_eq by lia. rewrite Hrow. simpl.
      destruct (decide (Z.to_nat q.2 = Z.to_nat p.2)) as [He2|Hne2].
      * rewrite He2, list_lookup_insert_eq by lia.
        rewrite decide_True; [done|]. destruct p, q; simpl in *. f_equal; lia.
      * rewrite list_lookup_insert_ne by done.
        rewrite decide_False; [done|]. intros ->. done.
    + rewrite list_lookup_insert_ne by done.
      rewrite decide_False; [done|]. intros ->. done.
Qed.

(** An assignment to a cell of the grid returns and leaves the other cells. *)
Lemma assign_cell_spec (self : GridManager) (rows cols : Z) (p : coord) (v : Z) :
  grid_wf (gm_cells self) rows cols -> in_bounds rows cols p ->
  ∃ cells', assign_cell p.1 p.2 v self = (Ret tt, set_cells self cells') ∧
            grid_wf cells' rows cols ∧
            ∀ q, in_bounds rows cols q ->
                 cells_get cells' q.1 q.2 =
                   if decide (q = p) then Some v else cells_get (gm_cells self) q.1 q.2.
Proof.
  intros Hwf Hp. destruct (cells_set_spec _ _ _ p v Hwf Hp) as (cells' & Hset & Hwf' & Hget).
  exists cells'. unfold assign_cell. by rewrite Hset.
Qed.

(** ** Loops over the cells *)

Lemma for_each_inv {St A : Type} (body : A -> St -> res unit * St)
    (P : list A -> St -> Prop) :
  (∀ x rest s, P (x :: rest) s -> ∃ s', body x s = (Ret tt, s') ∧ P rest s') ->
  ∀ l s, P l s -> ∃ s', for_each body l s = (Ret tt, s') ∧ P [] s'.
Proof.
  intros Hbody l. induction l as [|x l IH]; intros s HP; simpl; [eauto|].
  destruct (Hbody _ _ _ HP) as (s1 & -> & HP1). by apply IH.
Qed.

Lemma for_each_inv_mem {St A : Type} (body : A -> St -> res unit * St)
    (Q : St -> Prop) (l : list A) :
  (∀ x s, x ∈ l -> Q s -> ∃ s', body x s = (Ret tt, s') ∧ Q s') ->
  ∀ s, Q s -> ∃ s', for_each body l s = (Ret tt, s') ∧ Q s'.
Proof.
  intros Hbody s HQ.
  destruct (for_each_inv body (fun rest s => Q s ∧ ∀ x, x ∈ rest -> x ∈ l)) with (l := l) (s := s)
    as (s' & Hrun & HQ' & _).
  - intros x rest s0 [HQ0 Hin].
    destruct (Hbody x s0) as (s1 & Hs1 & HQ1); [apply Hin; by left|done|].
    exists s1. split; [done|]. split; [done|]. intros y Hy. apply Hin. by right.
  - by split.
  - eauto.
Qed.

(** ** The operations keep the anchors *)

Section grid_ops.
Context (rows cols : Z).

Abbreviation ginv := (grid_inv rows cols).

(** Writing a plain state into a cell that is no anchor. *)
Lemma assign_plain self p v :
  ginv self -> in_bounds rows cols p ->
  p ≠ gm_start self -> p ≠ gm_goal self -> v ≠ START -> v ≠ GOAL ->
  ∃ self', assign_cell p.1 p.2 v self = (Ret tt, self') ∧ ginv self' ∧
           gm_start self' = gm_start self ∧ gm_goal self' = gm_goal self ∧
           ∀ q, in_bounds rows cols q ->
                cells_get (gm_cells self') q.1 q.2 =
                  if decide (q = p) then Some v else cells_get (gm_cells self) q.1 q.2.
Proof.
  intros [H1 H2 H3 H4 H5 H6 H7 H8] Hp Hps Hpg Hv1 Hv2.
  destruct (assign_cell_spec self rows cols p v H3 Hp) as (cells' & Hset & Hwf' & Hget).
  exists (set_cells self cells'). split; [done|]. split_and!; try done.
  constructor; simpl; try done.
  - intros q Hq. rewrite (Hget q Hq). case_decide as Hqp; [|by apply H7].
    subst q. split; [intros [=]; done|done].
  - intros q Hq. rewrite (Hget q Hq). case_decide as Hqp; [|by apply H8].
    subst q. split; [intros [=]; done|done].
Qed.

Lemma safe_to_edit_true self row col :
  _is_safe_to_edit self row col = true ->
  (row, col) ≠ gm_start self ∧ (row, col) ≠ gm_goal self ∧
  in_bounds (gm_rows self) (gm_cols self) (row, col).
Proof.
  unfold _is_safe_to_edit, in_bounds. repeat case_decide; try done.
  destruct (negb ((0 <=? row) && (row <? gm_rows self))) eqn:Hr; [done|].
  destruct (negb ((0 <=? col) && (col <? gm_cols self))) eqn:Hc; [done|].
  intros _. simpl. zbool. split_and!; try done; lia.
Qed.

Lemma safe_to_edit_false self row col :
  _is_safe_to_edit self row col = false ->
  (row, col) = gm_start self ∨ (row, col) = gm_goal self ∨
  ¬ in_bounds (gm_rows self) (gm_cols self) (row, col).
Proof.
  unfold _is_safe_to_edit, in_bounds. repeat case_decide; auto.
  destruct (negb ((0 <=? row) && (row <? gm_rows self))) eqn:Hr.
  { intros _. right. right. simpl. zbool; lia. }
  destruct (negb ((0 <=? col) && (col <? gm_cols self))) eqn:Hc; [|done].
  intros _. right. right. simpl. zbool; lia.
Qed.

Lemma toggle_obstacle_inv self row col :
  ginv self -> ∃ r self', toggle_obstacle self row col = (Ret r, self') ∧ ginv self'.
Proof.
  intros Hinv. unfold toggle_obstacle.
  destruct (_is_safe_to_edit self row col) eqn:Hsafe; simpl; [|eauto].
  apply safe_to_edit_true in Hsafe as (Hs & Hg & Hb).
  rewrite (inv_rows _ _ _ Hinv), (inv_cols _ _ _ Hinv) in Hb.
  destruct (cells_get_in_bounds _ _ _ (row, col) (inv_wf _ _ _ Hinv) Hb) as [x Hx].
  simpl in Hx. rewrite Hx. destruct (x =? OBSTACLE).
  - destruct (assign_plain self (row, col) EMPTY) as (self' & Hset & Hinv' & _); try done.
    simpl in Hset. rewrite Hset. eauto.
  - destruct (assign_plain self (row, col) OBSTACLE) as (self' & Hset & Hinv' & _); try done.
    simpl in Hset. rewrite Hset. eauto.
Qed.

Lemma place_obstacle_inv self row col :
  ginv self -> ∃ r self', place_obstacle self row col = (Ret r, self') ∧ ginv self'.
Proof.
  intros Hinv. unfold place_obstacle.
  destruct (_is_safe_to_edit self row col) eqn:Hsafe; simpl; [|eauto].
  apply safe_to_edit_true in Hsafe as (Hs & Hg & Hb).
  rewrite (inv_rows _ _ _ Hinv), (inv_cols _ _ _ Hinv) in Hb.
  destruct (cells_get_in_bounds _ _ _ (row, col) (inv_wf _ _ _ Hinv) Hb) as [x Hx].
  simpl in Hx. rewrite Hx. destruct (x =? OBSTACLE); [eauto|].
  destruct (assign_plain self (row, col) OBSTACLE) as (self' & Hset & Hinv' & _); try done.
  simpl in Hset. rewrite Hset. eauto.
Qed.

Lemma clear_obstacles_inv self :
  ginv self -> ∃ self', clear_obstacles self = (Ret tt, self') ∧ ginv self'.
Proof.
  intros Hinv. unfold clear_obstacles.
  rewrite (inv_rows _ _ _ Hinv), (inv_cols _ _ _ Hinv).
  apply (for_each_inv_mem _ ginv); [|done].
  intros r s Hr Hs. apply (for_each_inv_mem _ ginv); [|done].
  intros c s' Hc Hs'. apply elem_of_py_range in Hr, Hc.
  assert (in_bounds rows cols (r, c)) as Hb by done.
  destruct (cells_get_in_bounds _ _ _ (r, c) (inv_wf _ _ _ Hs') Hb) as [x Hx].
  simpl in Hx. rewrite Hx. destruct (x =? OBSTACLE) eqn:Ho; [|eauto].
  apply Z.eqb_eq in Ho. subst x.
  destruct (assign_plain s' (r, c) EMPTY) as (s'' & Hset & Hinv' & _); try done.
  - intros Heq. apply (inv_start_cell _ _ _ Hs' (r, c) Hb) in Heq. simpl in Heq.
    rewrite Hx in Heq. done.
  - intros Heq. apply (inv_goal_cell _ _ _ Hs' (r, c) Hb) in Heq. simpl in Heq.
    rewrite Hx in Heq. done.
  - eauto.
Qed.
End grid_ops.

Section grid_moves.
Context (rows cols : Z).

Abbreviation ginv := (grid_inv rows cols).

Lemma move_start_inv self new_row new_col :
  ginv self -> in_bounds rows cols (new_row, new_col) ->
  ∃ r self', move_start self new_row new_col = (Ret r, self') ∧ ginv self'.
Proof.
  intros [H1 H2 H3 H4 H5 H6 H7 H8] Hb. unfold move_start.
  case_decide as Hng; [eexists _, _; split; [done|by constructor]|].
  destruct (assign_cell_spec self rows cols (gm_start self) EMPTY H3 H4)
    as (cells1 & -> & Hwf1 & Hget1).
  destruct (assign_cell_spec (set_start (set_cells self cells1) (new_row, new_col))
              rows cols (new_row, new_col) START Hwf1 Hb) as (cells2 & Hset2 & Hwf2 & Hget2).
  simpl in Hset2. rewrite Hset2. eexists _, _. split; [done|].
  constructor; simpl; try done.
  - intros q Hq. rewrite (Hget2 q Hq). simpl. case_decide as Hq1; [done|].
    rewrite (Hget1 q Hq). case_decide as Hq2.
    + split; [intros [=]|done].
    + rewrite (H7 q Hq). done.
  - intros q Hq. rewrite (Hget2 q Hq). simpl. case_decide as Hq1.
    + subst q. split; [intros [=]|done].
    + rewrite (Hget1 q Hq). case_decide as Hq2.
      * subst q. split; [intros [=]|done].
      * by apply H8.
Qed.

Lemma move_goal_inv self new_row new_col :
  ginv self -> in_bounds rows cols (new_row, new_col) ->
  ∃ r self', move_goal self new_row new_col = (Ret r, self') ∧ ginv self'.
Proof.
  intros [H1 H2 H3 H4 H5 H6 H7 H8] Hb. unfold move_goal.
  case_decide as Hng; [eexists _, _; split; [done|by constructor]|].
  destruct (assign_cell_spec self rows cols (gm_goal self) EMPTY H3 H5)
    as (cells1 & -> & Hwf1 & Hget1).
  destruct (assign_cell_spec (set_goal (set_cells self cells1) (new_row, new_col))
              rows cols (new_row, new_col) GOAL Hwf1 Hb) as (cells2 & Hset2 & Hwf2 & Hget2).
  simpl in Hset2. rewrite Hset2. eexists _, _. split; [done|].
  constructor; simpl; [done|done|done|done|done| | |].
  - by apply not_eq_sym.
  - intros q Hq. rewrite (Hget2 q Hq). simpl. case_decide as Hq1.
    + subst q. split; [intros [=]|intros Heq; by rewrite Heq in Hng].
    + rewrite (Hget1 q Hq). case_decide as Hq2.
      * subst q. split; [intros [=]|intros Heq; by rewrite Heq in H6].
      * by apply H7.
  - intros q Hq. rewrite (Hget2 q Hq). simpl. case_decide as Hq1; [done|].
    rewrite (Hget1 q Hq). case_decide as Hq2.
    + split; [intros [=]|done].
    + rewrite (H8 q Hq). done.
Qed.
End grid_moves.

(** ** Random generation *)

Section generate.
Context (self : GridManager) (density : Q) (V : Z -> Prop).
Hypothesis Hwf : manager_wf self.
Hypothesis HV : ∀ g, if Qlt_le_dec (random_value g) density then V OBSTACLE else V EMPTY.

Abbreviation gdone := (generate_done self V).

Lemma generate_done_weaken (todo todo' : coord -> Prop) w :
  (∀ q, in_bounds (gm_rows self) (gm_cols self) q -> todo q -> todo' q) ->
  gdone todo w -> gdone todo' w.
Proof.
  intros Himp (H1 & H2 & H3 & H4 & H5 & H6 & H7). split_and!; try done.
  intros q Hq Ha Ht. apply H7; try done. intros Ht'. apply Ht. by apply Himp.
Qed.

Lemma generate_random_cell_spec (todo todo' : coord -> Prop) r c w :
  in_bounds (gm_rows self) (gm_cols self) (r, c) ->
  (∀ q, ¬ todo' q -> q = (r, c) ∨ ¬ todo q) ->
  gdone todo w ->
  ∃ w', generate_random_cell density r c w = (Ret tt, w') ∧ gdone todo' w'.
Proof.
  intros Hb Htodo (H1 & H2 & H3 & H4 & H5 & H6 & H7).
  destruct w as [s g]. simpl in *. unfold generate_random_cell.
  rewrite H3, H4.
  assert (∀ q, anchor self q -> (r, c) = gm_start self ∨ (r, c) = gm_goal self ->
               ¬ todo' q -> True) as _ by done.
  case_decide as Hs.
  { eexists. split; [done|]. split_and!; try done. intros q Hq Ha Ht. simpl.
    destruct (Htodo q Ht) as [->|Hn]; [|by apply H7]. exfalso. apply Ha. by left. }
  case_decide as Hg.
  { eexists. split; [done|]. split_and!; try done. intros q Hq Ha Ht. simpl.
    destruct (Htodo q Ht) as [->|Hn]; [|by apply H7]. exfalso. apply Ha. by right. }
  unfold py_random. specialize (HV g).
  destruct (Qlt_le_dec (random_value g) density) as [Hlt|Hge].
  - destruct (assign_cell_spec s _ _ (r, c) OBSTACLE H5 Hb) as (cells' & Hset & Hwf' & Hget).
    simpl in Hset. rewrite Hset. eexists. split; [done|]. split_and!; simpl; try done.
    + intros q Hq Ha. rewrite (Hget q Hq). case_decide as Hq1; [|by apply H6].
      subst q. by destruct Ha.
    + intros q Hq Ha Ht. rewrite (Hget q Hq). case_decide as Hq1; [eauto|].
      destruct (Htodo q Ht) as [->|Hn]; [done|by apply H7].
  - destruct (assign_cell_spec s _ _ (r, c) EMPTY H5 Hb) as (cells' & Hset & Hwf' & Hget).
    simpl in Hset. rewrite Hset. eexists. split; [done|]. split_and!; simpl; try done.
    + intros q Hq Ha. rewrite (Hget q Hq). case_decide as Hq1; [|by apply H6].
      subst q. by destruct Ha.
    + intros q Hq Ha Ht. rewrite (Hget q Hq). case_decide as Hq1; [eauto|].
      destruct (Htodo q Ht) as [->|Hn]; [done|by apply H7].
Qed.

(** The inner loop: row [r], with the rows [rest_r] still to come. *)
Lemma generate_random_row_spec (rest_r : list Z) r w :
  0 <= r < gm_rows self ->
  gdone (fun q => q.1 ∈ r :: rest_r) w ->
  ∃ w', for_each (fun c => generate_random_cell density r c) (py_range (gm_cols self)) w
          = (Ret tt, w') ∧
        gdone (fun q => q.1 ∈ rest_r) w'.
Proof.
  intros Hr Hw.
  destruct (for_each_inv (fun c => generate_random_cell density r c)
              (fun rest_c w => gdone (fun q => q.1 ∈ rest_r ∨ (q.1 = r ∧ q.2 ∈ rest_c)) w ∧
                               ∀ c, c ∈ rest_c -> 0 <= c < gm_cols self))
    with (l := py_range (gm_cols self)) (s := w) as (w' & Hrun & Hdone & _).
  - intros c rest_c w0 [Hd Hin].
    destruct (generate_random_cell_spec
                (fun q => q.1 ∈ rest_r ∨ (q.1 = r ∧ q.2 ∈ c :: rest_c))
                (fun q => q.1 ∈ rest_r ∨ (q.1 = r ∧ q.2 ∈ rest_c)) r c w0)
      as (w1 & Hcell & Hd1); [| |done|].
    + split; [done|]. apply Hin. by left.
    + intros q Hq. destruct (decide (q = (r, c))) as [|Hne]; [by left|]. right.
      intros [H|[H1 [H2|H2]%elem_of_cons]].
      * apply Hq. by left.
      * apply Hne. destruct q. simpl in *. by subst.
      * apply Hq. right. done.
    + exists w1. split; [done|]. split; [done|]. intros c' Hc'. apply Hin. by right.
  - split.
    + eapply generate_done_weaken; [|exact Hw]. intros q [Hq1 Hq2] Hq.
      apply elem_of_cons in Hq as [Hq|Hq]; [|by left].
      right. split; [done|]. by apply elem_of_py_range.
    + intros c Hc. by apply elem_of_py_range in Hc.
  - exists w'. split; [done|]. eapply generate_done_weaken; [|exact Hdone].
    intros q _ [H|[_ H]]; [done|]. by apply elem_of_nil in H.
Qed.

Lemma generate_loops_spec g :
  ∃ w', for_each (fun r =>
          for_each (fun c => generate_random_cell density r c) (py_range (gm_cols self)))
          (py_range (gm_rows self)) (self, g) = (Ret tt, w') ∧
        gdone (fun _ => False) w'.
Proof.
  destruct (for_each_inv (fun r =>
              for_each (fun c => generate_random_cell density r c) (py_range (gm_cols self)))
              (fun rest_r w => gdone (fun q => q.1 ∈ rest_r) w ∧
                               ∀ r, r ∈ rest_r -> 0 <= r < gm_rows self))
    with (l := py_range (gm_rows self)) (s := (self, g)) as (w' & Hrun & Hdone & _).
  - intros r rest_r w0 [Hd Hin].
    destruct (generate_random_row_spec rest_r r w0) as (w1 & Hrow & Hd1);
      [apply Hin; by left|done|].
    exists w1. split; [done|]. split; [done|]. intros r' Hr'. apply Hin. by right.
  - split.
    + split_and!; simpl; try done. intros q [Hq1 Hq2] _ Hq. exfalso. apply Hq.
      by apply elem_of_py_range.
    + intros r Hr. by apply elem_of_py_range in Hr.
  - exists w'. split; [done|]. eapply generate_done_weaken; [|exact Hdone].
    intros q _ H. by apply elem_of_nil in H.
Qed.
End generate.

(** ** The draws of the generator *)

Lemma random_value_nonneg g : (0 <= random_value g)%Q.
Proof.
  unfold random_value, Qle. simpl. rewrite Z.mul_1_r.
  apply Z.mod_pos_bound. done.
Qed.

Lemma random_value_lt_1 g : (random_value g < 1)%Q.
Proof.
  unfold random_value, Qlt. simpl. rewrite Z.mul_1_r.
  apply Z.mod_pos_bound. done.
Qed.

Lemma density_0_never g :
  if Qlt_le_dec (random_value g) (inject_Z 0 / 100) then OBSTACLE = EMPTY else EMPTY = EMPTY.
Proof.
  destruct (Qlt_le_dec _ _) as [Hlt|_]; [|done]. exfalso.
  apply (Qlt_not_le _ _ Hlt). change (inject_Z 0 / 100)%Q with (0 # 100)%Q.
  assert ((0 # 100) == 0)%Q as -> by done. apply random_value_nonneg.
Qed.

Lemma density_100_always g :
  if Qlt_le_dec (random_value g) (inject_Z 100 / 100) then OBSTACLE = OBSTACLE
  else EMPTY = OBSTACLE.
Proof.
  destruct (Qlt_le_dec _ _) as [_|Hle]; [done|]. exfalso.
  apply (Qlt_not_le _ _ (random_value_lt_1 g)).
  assert (inject_Z 100 / 100 == 1)%Q as <- by done. exact Hle.
Qed.

Lemma generate_random_spec (self : GridManager) (percent : Z) (V : Z -> Prop) g :
  manager_wf self ->
  (∀ g, if Qlt_le_dec (random_value g) (inject_Z percent / 100) then V OBSTACLE else V EMPTY) ->
  ∃ w', generate_random self percent g = (Ret tt, w') ∧
        generate_done self V (fun _ => False) w'.
Proof. intros Hwf HV. unfold generate_random. by apply generate_loops_spec. Qed.

(** ** Obstacle spawning *)

Lemma rng_skip_skip a b g : rng_skip a (rng_skip b g) = rng_skip (b + a) g.
Proof. unfold rng_skip. simpl. f_equal. lia. Qed.

Lemma rng_next_skip g : rng_next g = rng_skip 1 g.
Proof. unfold rng_next, rng_skip. f_equal. lia. Qed.

Lemma spawn_pick_S self g k : spawn_pick self g (S k) = spawn_pick self (rng_skip 2 g) k.
Proof.
  unfold spawn_pick. rewrite !rng_skip_skip. do 3 f_equal; lia.
Qed.

Lemma spawn_picks_S self g n :
  spawn_picks self g (S n) = spawn_pick self g 0 :: spawn_picks self (rng_skip 2 g) n.
Proof.
  unfold spawn_picks. simpl. f_equal. rewrite <- fmap_S_seq, <- list_fmap_compose.
  apply list_fmap_ext. intros i k _. simpl. apply spawn_pick_S.
Qed.

Section spawn.
Context (self : GridManager) (agent_pos : coord) (current_path : list coord).
Hypothesis Hwf : manager_wf self.
Hypothesis Hrows : 1 <= gm_rows self.
Hypothesis Hcols : 1 <= gm_cols self.

Lemma spawn_pick_in_bounds g k : in_bounds (gm_rows self) (gm_cols self) (spawn_pick self g k).
Proof.
  unfold spawn_pick, randint_value, in_bounds. cbn [fst snd].
  replace (gm_rows self - 1 - 0 + 1) with (gm_rows self) by lia.
  replace (gm_cols self - 1 - 0 + 1) with (gm_cols self) by lia.
  rewrite !Z.add_0_l. split; apply Z.mod_pos_bound; lia.
Qed.

(** One turn of the loop: the pick is accepted and marked, or the loop goes on
    with the grid as it was. *)
Lemma spawn_attempt_spec g :
  if decide (spawn_free self agent_pos (spawn_pick self g 0)) then
    ∃ self', spawn_attempt agent_pos current_path (self, g) =
               (Ret (Return (Some (spawn_pick self g 0),
                             bool_decide (spawn_pick self g 0 ∈ current_path))),
                (self', rng_skip 2 g)) ∧
             marked self (spawn_pick self g 0) self'
  else spawn_attempt agent_pos current_path (self, g) = (Ret (Continue tt), (self, rng_skip 2 g)).
Proof.
  pose proof (spawn_pick_in_bounds g 0) as Hb.
  assert (spawn_pick self g 0 =
          (randint_value 0 (gm_rows self - 1) g,
           randint_value 0 (gm_cols self - 1) (rng_next g))) as Hp.
  { unfold spawn_pick, randint_value, rng_skip, rng_next. simpl.
    by rewrite Nat.add_0_r, Nat.add_1_r. }
  assert (rng_next (rng_next g) = rng_skip 2 g) as Hg.
  { rewrite !rng_next_skip, rng_skip_skip. done. }
  unfold spawn_attempt, py_randint.
  destruct (gm_rows self - 1 <? 0) eqn:H1; [zbool; lia|].
  destruct (gm_cols self - 1 <? 0) eqn:H2; [zbool; lia|].
  rewrite Hg. clear Hg H1 H2.
  set (r := randint_value 0 (gm_rows self - 1) g) in *.
  set (c := randint_value 0 (gm_cols self - 1) (rng_next g)) in *.
  rewrite Hp in *. clear Hp.
  destruct (cells_get_in_bounds _ _ _ (r, c) Hwf Hb) as [x Hx]. simpl in Hx.
  destruct (decide (spawn_free self agent_pos (r, c))) as [(Hs & Hgl & Ha & Hob)|Hno].
  - rewrite (decide_False (P := (r, c) = gm_start self)) by done.
    rewrite (decide_False (P := (r, c) = gm_goal self)) by done.
    rewrite (decide_False (P := (r, c) = agent_pos)) by done.
    rewrite Hx. destruct (x =? OBSTACLE) eqn:Hxo; [zbool; by subst x|].
    destruct (assign_cell_spec self _ _ (r, c) OBSTACLE Hwf Hb) as (cells' & Hset & Hwf' & Hget).
    simpl in Hset. rewrite Hset. eexists. split; [done|]. by split_and!.
  - destruct (decide ((r, c) = gm_start self)) as [|Hs]; [done|].
    destruct (decide ((r, c) = gm_goal self)) as [|Hgl]; [done|].
    destruct (decide ((r, c) = agent_pos)) as [|Ha]; [done|].
    rewrite Hx. destruct (x =? OBSTACLE) eqn:Hxo; [done|].
    exfalso. apply Hno. split_and!; try done. simpl. rewrite Hx. intros [= ->]. done.
Qed.

Lemma spawn_attempts_spec n g :
  match list_find (spawn_free self agent_pos) (spawn_picks self g n) with
  | Some (k, p) =>
      ∃ self', spawn_attempts n agent_pos current_path (self, g) =
                 (Ret (Some p, bool_decide (p ∈ current_path)), (self', rng_skip (2 * S k) g)) ∧
               marked self p self'
  | None =>
      spawn_attempts n agent_pos current_path (self, g) =
        (Ret (None, false), (self, rng_skip (2 * n) g))
  end.
Proof.
  revert g. induction n as [|n IH]; intros g.
  - simpl. unfold rng_skip. destruct g. simpl. by rewrite Nat.add_0_r.
  - rewrite spawn_picks_S. simpl list_find.
    pose proof (spawn_attempt_spec g) as Hstep.
    destruct (decide (spawn_free self agent_pos (spawn_pick self g 0))) as [Hfree|Hno].
    + destruct Hstep as (self' & Hrun & Hm). exists self'. cbn [spawn_attempts]. by rewrite Hrun.
    + specialize (IH (rng_skip 2 g)). cbn [spawn_attempts]. rewrite Hstep.
      destruct (list_find _ _) as [[k p]|]; simpl.
      * destruct IH as (self' & Hrun & Hm). exists self'. split; [|done].
        rewrite Hrun, rng_skip_skip. do 3 f_equal. lia.
      * rewrite IH, rng_skip_skip. do 3 f_equal. lia.
Qed.
End spawn.

(** ** The invariant through generation and spawning *)

Lemma generate_random_inv rows cols self percent g :
  grid_inv rows cols self ->
  ∃ w', generate_random self percent g = (Ret tt, w') ∧ grid_inv rows cols w'.1.
Proof.
  intros [H1 H2 H3 H4 H5 H6 H7 H8].
  destruct (generate_random_spec self percent (fun v => v = OBSTACLE ∨ v = EMPTY) g)
    as (w' & Hrun & G1 & G2 & G3 & G4 & G5 & G6 & G7).
  { unfold manager_wf. by rewrite H1, H2. }
  { intros g0. destruct (Qlt_le_dec _ _); auto. }
  rewrite H1, H2 in *. exists w'. split; [done|].
  constructor; try done; try congruence.
  - intros q Hq. rewrite G3. destruct (decide (anchor self q)) as [Ha|Hn].
    + rewrite (G6 q Hq Ha). by apply H7.
    + destruct (G7 q Hq Hn) as (v & -> & Hv); [tauto|].
      split; [intros [= ->]; by destruct Hv|]. intros ->. exfalso. apply Hn. by left.
  - intros q Hq. rewrite G4. destruct (decide (anchor self q)) as [Ha|Hn].
    + rewrite (G6 q Hq Ha). by apply H8.
    + destruct (G7 q Hq Hn) as (v & -> & Hv); [tauto|].
      split; [intros [= ->]; by destruct Hv|]. intros ->. exfalso. apply Hn. by right.
Qed.

Lemma marked_inv rows cols self p self' :
  grid_inv rows cols self -> marked self p self' ->
  p ≠ gm_start self -> p ≠ gm_goal self -> grid_inv rows cols self'.
Proof.
  intros [H1 H2 H3 H4 H5 H6 H7 H8] (M1 & M2 & M3 & M4 & M5 & M6) Hs Hg.
  rewrite H1, H2 in *. constructor; try congruence.
  - intros q Hq. rewrite (M6 q Hq), M3. case_decide as Hqp; [|by apply H7].
    subst q. split; [intros [=]|done].
  - intros q Hq. rewrite (M6 q Hq), M4. case_decide as Hqp; [|by apply H8].
    subst q. split; [intros [=]|done].
Qed.

Lemma try_spawn_dynamic_obstacle_inv rows cols self agent_pos current_path spawn_prob g :
  grid_inv rows cols self ->
  ∃ r w', try_spawn_dynamic_obstacle self agent_pos current_path spawn_prob g = (Ret r, w') ∧
          grid_inv rows cols w'.1.
Proof.
  intros Hinv. pose proof Hinv as [H1 H2 H3 H4 H5 H6 H7 H8].
  unfold try_spawn_dynamic_obstacle, py_random.
  destruct (Qlt_le_dec _ _); [eauto|].
  pose proof (spawn_attempts_spec self agent_pos current_path) as Hspec.
  specialize (Hspec ltac:(unfold manager_wf; by rewrite H1, H2)).
  destruct H4 as [Hr Hc].
  specialize (Hspec ltac:(lia) ltac:(lia) 20%nat (rng_next g)).
  destruct (list_find _ _) as [[k p]|] eqn:Hfind.
  - destruct Hspec as (self' & -> & Hm). eexists _, _. split; [done|]. simpl.
    apply list_find_Some in Hfind as (_ & (Hs & Hg & _) & _).
    by apply (marked_inv rows cols self p).
  - rewrite Hspec. eauto.
Qed.

(** ** Construction *)

Lemma cells_get_empty_grid rows cols q :
  in_bounds rows cols q -> cells_get (_make_empty_grid rows cols) q.1 q.2 = Some EMPTY.
Proof.
  intros [Hr Hc]. rewrite cells_get_nonneg by lia. unfold _make_empty_grid.
  rewrite lookup_replicate_2 by lia. simpl. rewrite lookup_replicate_2 by lia. done.
Qed.

Lemma empty_grid_wf rows cols : 0 <= rows -> 0 <= cols ->
  grid_wf (_make_empty_grid rows cols) rows cols.
Proof.
  intros Hr Hc. unfold _make_empty_grid. split.
  - rewrite length_replicate. lia.
  - apply Forall_replicate. rewrite length_replicate. lia.
Qed.

Lemma GridManager_init_spec rows cols self :
  GridManager_init rows cols = Ret self ->
  1 <= rows ∧ 1 <= cols ∧ manager_wf self ∧
  gm_rows self = rows ∧ gm_cols self = cols ∧
  gm_start self = (0, 0) ∧ gm_goal self = (rows - 1, cols - 1) ∧
  ∀ q, in_bounds rows cols q ->
       cells_get (gm_cells self) q.1 q.2 =
         if decide (q = (rows - 1, cols - 1)) then Some GOAL
         else if decide (q = (0, 0)) then Some START else Some EMPTY.
Proof.
  unfold GridManager_init. intros Hinit.
  assert (1 <= rows ∧ 1 <= cols) as [Hr Hc].
  { destruct (decide (1 <= rows)) as [Hr|Hr].
    - split; [done|]. destruct (decide (1 <= cols)) as [Hc|Hc]; [done|]. exfalso.
      unfold assign_cell, cells_set, _make_empty_grid in Hinit. simpl in Hinit.
      rewrite length_replicate in Hinit.
      unfold py_index in Hinit. simpl in Hinit.
      destruct (0 <? Z.of_nat (Z.to_nat rows)) eqn:H0; [|zbool; lia].
      simpl in Hinit. rewrite lookup_replicate_2 in Hinit by lia. simpl in Hinit.
      replace (Z.to_nat cols) with 0%nat in Hinit by lia. simpl in Hinit. done.
    - exfalso. unfold assign_cell, cells_set, _make_empty_grid in Hinit. simpl in Hinit.
      replace (Z.to_nat rows) with 0%nat in Hinit by lia. simpl in Hinit. done. }
  set (self0 := {| gm_rows := rows; gm_cols := cols; gm_start := (0, 0);
                   gm_goal := (rows - 1, cols - 1);
                   gm_cells := _make_empty_grid rows cols |}) in *.
  assert (grid_wf (gm_cells self0) rows cols) as Hwf0 by (apply empty_grid_wf; lia).
  destruct (assign_cell_spec self0 rows cols (0, 0) START Hwf0) as (cells1 & Hset1 & Hwf1 & Hget1).
  { unfold in_bounds. simpl. lia. }
  simpl in Hset1. rewrite Hset1 in Hinit.
  destruct (assign_cell_spec (set_cells self0 cells1) rows cols (rows - 1, cols - 1) GOAL Hwf1)
    as (cells2 & Hset2 & Hwf2 & Hget2).
  { unfold in_bounds. simpl. lia. }
  simpl in Hset2. rewrite Hset2 in Hinit. inversion Hinit; subst self. simpl.
  split_and!; try done.
  intros q Hq. rewrite (Hget2 q Hq). case_decide; [done|]. simpl.
  rewrite (Hget1 q Hq). case_decide; [done|]. simpl. by apply cells_get_empty_grid.
Qed.

Lemma GridManager_init_inv rows cols self :
  GridManager_init rows cols = Ret self -> 2 <= rows * cols -> grid_inv rows cols self.
Proof.
  intros Hinit Hsz.
  destruct (GridManager_init_spec _ _ _ Hinit) as (Hr & Hc & Hwf & E1 & E2 & E3 & E4 & Hget).
  assert ((0, 0) ≠ (rows - 1, cols - 1)) as Hne.
  { intros [= Hr0 Hc0]. assert (rows = 1) by lia. assert (cols = 1) by lia. subst. lia. }
  unfold manager_wf in Hwf. rewrite E1, E2 in Hwf.
  constructor; try done.
  - rewrite E3. unfold in_bounds. simpl. lia.
  - rewrite E4. unfold in_bounds. simpl. lia.
  - by rewrite E3, E4.
  - intros q Hq. rewrite (Hget q Hq), E3.
    repeat case_decide; subst; split; try done; by intros [=].
  - intros q Hq. rewrite (Hget q Hq), E4.
    repeat case_decide; subst; split; try done; by intros [=].
Qed.

(** ** Counting the cells that hold a state *)

Lemma NoDup_py_range n : NoDup (py_range n).
Proof.
  unfold py_range. apply NoDup_fmap_2; [|apply NoDup_seq].
  intros x y. apply Nat2Z.inj.
Qed.

Lemma NoDup_grid_coords rows cols : NoDup (grid_coords rows cols).
Proof.
  unfold grid_coords. apply NoDup_bind; [| |apply NoDup_py_range].
  - intros r1 r2 q _ _ H1 H2.
    apply list_elem_of_bind in H1 as (c1 & ->%list_elem_of_singleton & _).
    apply list_elem_of_bind in H2 as (c2 & [= -> _]%list_elem_of_singleton & _). done.
  - intros r _. apply NoDup_bind; [| |apply NoDup_py_range].
    + intros c1 c2 q _ _ ->%list_elem_of_singleton [= ->]%list_elem_of_singleton. done.
    + intros c _. apply NoDup_singleton.
Qed.

Lemma filter_none {A : Type} (P : A -> Prop) `{∀ x, Decision (P x)} (l : list A) :
  (∀ y, y ∈ l -> ¬ P y) -> filter P l = [].
Proof.
  induction l as [|a l IH]; intros HP; [done|].
  rewrite filter_cons, decide_False by (apply HP; by left).
  apply IH. intros y Hy. apply HP. by right.
Qed.

Lemma filter_singleton {A : Type} (P : A -> Prop) `{∀ x, Decision (P x)} (l : list A) (x : A) :
  NoDup l -> x ∈ l -> (∀ y, y ∈ l -> P y ↔ y = x) -> filter P l = [x].
Proof.
  induction l as [|a l IH]; intros Hnd Hx HP.
  - by apply elem_of_nil in Hx.
  - apply NoDup_cons in Hnd as [Ha Hnd]. rewrite filter_cons.
    apply elem_of_cons in Hx as [<-|Hx].
    + rewrite decide_True by (apply HP; [by left|done]). f_equal.
      apply filter_none. intros y Hy Hp. apply HP in Hp; [|by right]. by subst y.
    + rewrite decide_False.
      * apply IH; [done|done|]. intros y Hy. apply HP. by right.
      * intros Hp. apply HP in Hp; [|by left]. by subst a.
Qed.

Lemma cells_holding_anchors rows cols self :
  grid_inv rows cols self ->
  cells_holding self START = [gm_start self] ∧ cells_holding self GOAL = [gm_goal self].
Proof.
  intros [H1 H2 H3 H4 H5 H6 H7 H8]. unfold cells_holding. rewrite H1, H2. split.
  - apply filter_singleton; [apply NoDup_grid_coords|by apply elem_of_all_cells|].
    intros q Hq. apply H7. by apply elem_of_all_cells.
  - apply filter_singleton; [apply NoDup_grid_coords|by apply elem_of_all_cells|].
    intros q Hq. apply H8. by apply elem_of_all_cells.
Qed.

(** ** Sequences of operations *)

Lemma apply_op_inv rows cols op w :
  grid_inv rows cols w.1 -> op_in_bounds rows cols op ->
  ∃ w', apply_op op w = (Ret tt, w') ∧ grid_inv rows cols w'.1.
Proof.
  destruct w as [self g]. simpl. intros Hinv Hb. destruct op; simpl.
  - destruct (toggle_obstacle_inv rows cols self row col Hinv) as (r & self' & -> & Hinv').
    simpl. eauto.
  - destruct (place_obstacle_inv rows cols self row col Hinv) as (r & self' & -> & Hinv').
    simpl. eauto.
  - by apply generate_random_inv.
  - destruct (clear_obstacles_inv rows cols self Hinv) as (self' & -> & Hinv'). eauto.
  - destruct (move_start_inv rows cols self new_row new_col Hinv Hb) as (r & self' & -> & Hinv').
    simpl. eauto.
  - destruct (move_goal_inv rows cols self new_row new_col Hinv Hb) as (r & self' & -> & Hinv').
    simpl. eauto.
  - destruct (try_spawn_dynamic_obstacle_inv rows cols self agent_pos current_path spawn_prob g
                Hinv) as (r & w' & -> & Hinv').
    simpl. eauto.
Qed.

Lemma run_ops_inv rows cols ops w :
  grid_inv rows cols w.1 -> Forall (op_in_bounds rows cols) ops ->
  ∃ w', run_ops ops w = (Ret tt, w') ∧ grid_inv rows cols w'.1.
Proof.
  intros Hinv Hops. unfold run_ops.
  destruct (for_each_inv apply_op
              (fun rest w => grid_inv rows cols w.1 ∧ Forall (op_in_bounds rows cols) rest))
    with (l := ops) (s := w) as (w' & Hrun & Hinv' & _); [|done|eauto].
  intros op rest w0 [Hinv0 Hrest]. apply Forall_cons in Hrest as [Hop Hrest].
  destruct (apply_op_inv rows cols op w0 Hinv0 Hop) as (w1 & Hrun & Hinv1). eauto.
Qed.

(** * The grid manager: the claims *)

(** C2 fails in the code: [toggle_obstacle] rejects protected and
    out-of-bounds cells, and the moves reject the other anchor, but
    [move_start] and [move_goal] have no bounds check.  On the fresh 3 by 3
    grid a move to row 3 (or column 3) raises IndexError after the old anchor
    cell was cleared and the stored coordinate replaced, and a move to
    (-1, -1) is taken as the last cell and overwrites the other anchor. *)
Theorem move_out_of_bounds_not_rejected :
  GridManager_init 3 3 = Ret fresh_3x3 ∧
  toggle_obstacle fresh_3x3 3 0 = (Ret None, fresh_3x3) ∧
  toggle_obstacle fresh_3x3 0 0 = (Ret None, fresh_3x3) ∧
  move_start fresh_3x3 2 2 = (Ret None, fresh_3x3) ∧
  move_goal fresh_3x3 0 0 = (Ret None, fresh_3x3) ∧
  (move_start fresh_3x3 3 0).1 = Raise IndexError ∧
  (move_goal fresh_3x3 0 3).1 = Raise IndexError ∧
  gm_start (move_start fresh_3x3 3 0).2 = (3, 0) ∧
  cells_holding (move_start fresh_3x3 3 0).2 START = [] ∧
  (move_start fresh_3x3 (-1) (-1)).1 = Ret (Some (0, 0)) ∧
  cells_holding (move_start fresh_3x3 (-1) (-1)).2 GOAL = [].
Proof. split_and!; vm_compute; reflexivity. Qed.

(** C3: on a grid with at least one row and one column whose stored
    dimensions are those of its cells, [try_spawn_dynamic_obstacle] draws one
    value; if it exceeds [spawn_prob] the call returns (None, False) with the
    grid as it was.  Otherwise the cells picked by the up to 20 attempts lie
    in the grid, the first of them that is not Start, not Goal, not
    [agent_pos] and not an Obstacle is marked Obstacle and returned with the
    flag that tells whether it is in [remaining_path], after two draws per
    attempt made; if none of the 20 is free the call returns (None, False)
    with the grid as it was. *)
Theorem try_spawn_dynamic_obstacle_cases (self : GridManager) (agent_pos : coord)
    (remaining_path : list coord) (spawn_prob : Q) (g : rng_state) :
  manager_wf self -> 1 <= gm_rows self -> 1 <= gm_cols self ->
  ((spawn_prob < random_value g)%Q ->
     try_spawn_dynamic_obstacle self agent_pos remaining_path spawn_prob g
       = (Ret (None, false), (self, rng_next g))) ∧
  ((random_value g <= spawn_prob)%Q ->
     match list_find (spawn_free self agent_pos) (spawn_picks self (rng_next g) 20) with
     | Some (k, p) =>
         ∃ self',
           try_spawn_dynamic_obstacle self agent_pos remaining_path spawn_prob g
             = (Ret (Some p, bool_decide (p ∈ remaining_path)),
                (self', rng_skip (2 * S k) (rng_next g))) ∧
           marked self p self'
     | None =>
         try_spawn_dynamic_obstacle self agent_pos remaining_path spawn_prob g
           = (Ret (None, false), (self, rng_skip 40 (rng_next g)))
     end) ∧
  (∀ p, p ∈ spawn_picks self (rng_next g) 20 ->
        in_bounds (gm_rows self) (gm_cols self) p).
Proof.
  intros Hwf Hr Hc. unfold try_spawn_dynamic_obstacle, py_random. split_and!.
  - intros Hlt. destruct (Qlt_le_dec _ _) as [_|Hle]; [done|].
    exfalso. by apply (Qlt_not_le _ _ Hlt).
  - intros Hle. destruct (Qlt_le_dec _ _) as [Hlt|_].
    { exfalso. by apply (Qlt_not_le _ _ Hlt). }
    apply (spawn_attempts_spec self agent_pos remaining_path Hwf Hr Hc 20 (rng_next g)).
  - intros p (k & -> & _)%list_elem_of_fmap. by apply spawn_pick_in_bounds.
Qed.

Lemma try_spawn_dynamic_obstacle_cases_witness :
  ∃ self',
    try_spawn_dynamic_obstacle fresh_3x3 (0, 1) sample_path (1 # 2) sample_rng
      = (Ret (Some (2, 1), true), (self', rng_skip 2 (rng_next sample_rng))) ∧
    marked fresh_3x3 (2, 1) self'.
Proof.
  assert (manager_wf fresh_3x3) as Hwf by (split; [reflexivity|repeat constructor]).
  assert (1 <= gm_rows fresh_3x3) as Hr by (simpl; lia).
  assert (1 <= gm_cols fresh_3x3) as Hc by (simpl; lia).
  assert (random_value sample_rng <= 1 # 2)%Q as Hle by (vm_compute; discriminate).
  exact (proj1 (proj2 (try_spawn_dynamic_obstacle_cases fresh_3x3 (0, 1) sample_path (1 # 2)
                         sample_rng Hwf Hr Hc)) Hle).
Defined.

(** C4, amended: on a freshly created grid of at least two cells, every
    sequence of the mutating operations whose moves target cells of the grid
    runs without an exception, and afterwards exactly one cell holds Start and
    exactly one holds Goal, at the stored start and goal coordinates. *)
Theorem anchors_unique_after_ops (rows cols : Z) (self : GridManager)
    (ops : list grid_op) (g : rng_state) :
  GridManager_init rows cols = Ret self -> 2 <= rows * cols ->
  Forall (op_in_bounds rows cols) ops ->
  ∃ self' g',
    run_ops ops (self, g) = (Ret tt, (self', g')) ∧
    cells_holding self' START = [gm_start self'] ∧
    cells_holding self' GOAL = [gm_goal self'].
Proof.
  intros Hinit Hsz Hops.
  pose proof (GridManager_init_inv rows cols self Hinit Hsz) as Hinv.
  destruct (run_ops_inv rows cols ops (self, g) Hinv Hops) as ([self' g'] & Hrun & Hinv').
  exists self', g'. split; [done|]. by apply (cells_holding_anchors rows cols).
Qed.

Lemma anchors_unique_after_ops_witness :
  ∃ self' g',
    run_ops sample_ops (fresh_3x3, sample_rng) = (Ret tt, (self', g')) ∧
    cells_holding self' START = [gm_start self'] ∧
    cells_holding self' GOAL = [gm_goal self'].
Proof.
  apply (anchors_unique_after_ops 3 3 fresh_3x3 sample_ops sample_rng).
  - vm_compute. reflexivity.
  - lia.
  - unfold sample_ops, op_in_bounds, in_bounds. repeat constructor; simpl; lia.
Defined.

(** C4 as stated fails: the fresh 1 by 1 grid has its Start overwritten by
    the Goal, so no cell holds Start; and on the fresh 3 by 3 grid a
    [move_start] to (-1, -1) overwrites the Goal cell. *)
Lemma fresh_grid_without_start :
  GridManager_init 1 1 = Ret fresh_1x1 ∧
  run_ops [] (fresh_1x1, sample_rng) = (Ret tt, (fresh_1x1, sample_rng)) ∧
  cells_holding fresh_1x1 START = [] ∧
  GridManager_init 3 3 = Ret fresh_3x3 ∧
  (run_ops [OpMoveStart (-1) (-1)] (fresh_3x3, sample_rng)).1 = Ret tt ∧
  cells_holding (run_ops [OpMoveStart (-1) (-1)] (fresh_3x3, sample_rng)).2.1 GOAL = [].
Proof. split_and!; vm_compute; reflexivity. Qed.

(** C8: on a grid whose stored dimensions are those of its cells, whatever
    the draws, [generate_random 0] and [generate_random 100] return, keep the
    dimensions, the anchors and the cells at the anchors, and leave every
    other cell of the grid Empty, resp. an Obstacle; so after
    [generate_random 0] no cell is an Obstacle unless an anchor cell was. *)
Theorem generate_random_extremes (self : GridManager) (g : rng_state) :
  manager_wf self ->
  ∃ self0 g0 self100 g100,
    generate_random self 0 g = (Ret tt, (self0, g0)) ∧
    generate_random self 100 g = (Ret tt, (self100, g100)) ∧
    (gm_rows self0, gm_cols self0, gm_start self0, gm_goal self0)
      = (gm_rows self, gm_cols self, gm_start self, gm_goal self) ∧
    (gm_rows self100, gm_cols self100, gm_start self100, gm_goal self100)
      = (gm_rows self, gm_cols self, gm_start self, gm_goal self) ∧
    (∀ q, in_bounds (gm_rows self) (gm_cols self) q -> anchor self q ->
          cells_get (gm_cells self0) q.1 q.2 = cells_get (gm_cells self) q.1 q.2 ∧
          cells_get (gm_cells self100) q.1 q.2 = cells_get (gm_cells self) q.1 q.2) ∧
    (∀ q, in_bounds (gm_rows self) (gm_cols self) q -> ¬ anchor self q ->
          cells_get (gm_cells self0) q.1 q.2 = Some EMPTY ∧
          cells_get (gm_cells self100) q.1 q.2 = Some OBSTACLE) ∧
    ((∀ q, anchor self q -> cells_get (gm_cells self) q.1 q.2 ≠ Some OBSTACLE) ->
     cells_holding self0 OBSTACLE = []).
Proof.
  intros Hwf.
  destruct (generate_random_spec self 0 (fun v => v = EMPTY) g Hwf density_0_never)
    as ([self0 g0] & Hrun0 & A1 & A2 & A3 & A4 & A5 & A6 & A7).
  destruct (generate_random_spec self 100 (fun v => v = OBSTACLE) g Hwf density_100_always)
    as ([self100 g100] & Hrun100 & B1 & B2 & B3 & B4 & B5 & B6 & B7).
  simpl in *. exists self0, g0, self100, g100. split_and!; try done.
  - by rewrite A1, A2, A3, A4.
  - by rewrite B1, B2, B3, B4.
  - intros q Hq Ha. split; [by apply A6|by apply B6].
  - intros q Hq Ha. split.
    + destruct (A7 q Hq Ha) as (v & -> & ->); [tauto|done].
    + destruct (B7 q Hq Ha) as (v & -> & ->); [tauto|done].
  - intros Hanchor. unfold cells_holding. apply filter_none. intros q Hq.
    rewrite A1, A2 in Hq. apply elem_of_all_cells in Hq.
    destruct (decide (anchor self q)) as [Ha|Hn].
    + rewrite (A6 q Hq Ha). by apply Hanchor.
    + destruct (A7 q Hq Hn) as (v & -> & ->); [tauto|done].
Qed.

Lemma generate_random_extremes_witness :
  ∃ self0 g0 self100 g100,
    generate_random fresh_3x3 0 sample_rng = (Ret tt, (self0, g0)) ∧
    generate_random fresh_3x3 100 sample_rng = (Ret tt, (self100, g100)) ∧
    (gm_rows self0, gm_cols self0, gm_start self0, gm_goal self0)
      = (gm_rows fresh_3x3, gm_cols fresh_3x3, gm_start fresh_3x3, gm_goal fresh_3x3) ∧
    (gm_rows self100, gm_cols self100, gm_start self100, gm_goal self100)
      = (gm_rows fresh_3x3, gm_cols fresh_3x3, gm_start fresh_3x3, gm_goal fresh_3x3) ∧
    (∀ q, in_bounds (gm_rows fresh_3x3) (gm_cols fresh_3x3) q -> anchor fresh_3x3 q ->
          cells_get (gm_cells self0) q.1 q.2 = cells_get (gm_cells fresh_3x3) q.1 q.2 ∧
          cells_get (gm_cells self100) q.1 q.2 = cells_get (gm_cells fresh_3x3) q.1 q.2) ∧
    (∀ q, in_bounds (gm_rows fresh_3x3) (gm_cols fresh_3x3) q -> ¬ anchor fresh_3x3 q ->
          cells_get (gm_cells self0) q.1 q.2 = Some EMPTY ∧
          cells_get (gm_cells self100) q.1 q.2 = Some OBSTACLE) ∧
    ((∀ q, anchor fresh_3x3 q -> cells_get (gm_cells fresh_3x3) q.1 q.2 ≠ Some OBSTACLE) ->
     cells_holding self0 OBSTACLE = []).
Proof.
  apply (generate_random_extremes fresh_3x3 sample_rng).
  split; [reflexivity|repeat constructor].
Defined.
(** * More on the searches *)

(** ** The state a loop returns from *)

Lemma run_loop_final {S A : Type} (iter : S -> res (loop_step S A)) (P : S -> Prop) :
  (∀ s s', P s -> iter s = Ret (Continue s') -> P s') ->
  ∀ fuel s a, P s -> run_loop iter fuel s = Ret a ->
    ∃ s', P s' ∧ iter s' = Ret (Return a).
Proof.
  intros Hc fuel s a HP Hrun.
  apply (run_loop_inv iter P (fun a => ∃ s', P s' ∧ iter s' = Ret (Return a)) Hc) in Hrun;
    [done| |done].
  intros s0 a0 HP0 Hret. eauto.
Qed.

(** ** Branches of the search tree *)

Lemma tree_walk (R : coord -> coord -> Prop) start cf d n g :
  tree_ok R start cf d -> d !! n = Some g -> ∃ k, walk R start n k.
Proof.
  intros Ht Hn.
  destruct (reconstruct_path_tree R start cf d Ht n g Hn) as (path & _ & Hh & Hl & Hlink & _).
  eexists. by apply (linked_walk R path).
Qed.

(** The loop of [reconstruct_path] follows the parents. *)
Lemma reconstruct_loop_parents fuel cf n acc l :
  reconstruct_loop fuel cf (Some n) acc = Ret l ->
  ∃ t, l = acc ++ n :: t ∧ linked (parent_of cf) (n :: t).
Proof.
  revert n acc l. induction fuel as [|fuel IH]; intros n acc l Hrun;
    simpl in Hrun; [by destruct (cf !! n)|].
  destruct (cf !! n) as [[p|]|] eqn:Hn; [| |done].
  - apply IH in Hrun as (t & -> & Hlink). exists (p :: t).
    split; [by rewrite <- app_assoc|]. split; [exact Hn|exact Hlink].
  - destruct fuel; simpl in Hrun; inversion Hrun; subst; by exists [].
Qed.

Lemma linked_parents cf l x :
  linked (parent_of cf) l -> x ∈ l -> head l = Some x ∨ ∃ c, cf !! c = Some (Some x).
Proof.
  induction l as [|a l IH]; intros Hl Hx; [by apply elem_of_nil in Hx|].
  apply elem_of_cons in Hx as [->|Hx]; [by left|]. right.
  destruct l as [|b l]; [by apply elem_of_nil in Hx|]. destruct Hl as [Hab Hl].
  destruct (IH Hl Hx) as [[= ->]|Hc]; [by exists a|done].
Qed.

Lemma reconstruct_path_parents cf n path x :
  reconstruct_path cf n = Ret path -> x ∈ path ->
  x = n ∨ ∃ c, cf !! c = Some (Some x).
Proof.
  unfold reconstruct_path. intros Hrun Hx.
  apply bind_Ret in Hrun as (l & Hloop & [= <-]).
  apply reconstruct_loop_parents in Hloop as (t & -> & Hlink).
  rewrite app_nil_l, elem_of_reverse in Hx.
  destruct (linked_parents cf (n :: t) x Hlink Hx) as [[= ->]|Hc]; [by left|by right].
Qed.

(** ** What A* returns *)

Section astar_more.
Context (grid : list (list Z)) (start goal : coord) (rows cols : Z).
Context (h : coord -> coord -> Z).

Abbreviation E := (edge grid rows cols).
Abbreviation inv := (astar_inv grid start goal rows cols h).

Lemma astar_closed_walk s x : inv s -> is_Some (a_g_score s !! x) -> reachable grid rows cols start x.
Proof.
  intros Hinv [g Hg].
  apply (tree_walk E start (a_came_from s) (a_g_score s) x g); [|done].
  apply (ai_tree _ _ _ _ _ _ _ _ Hinv).
Qed.

Lemma astar_first_step s s' :
  inv s -> astar_first start s -> astar_iter grid goal rows cols h s = Ret (Continue s') ->
  astar_first start s'.
Proof.
  intros Hinv Hfirst Hstep.
  apply astar_iter_cases in Hstep as [[_ [=]]|(f & g & cur & rest & Hpop & Hcase)].
  destruct Hcase as [[Hc [= ->]]|[(_ & _ & path & _ & [=])|(Hc & Hg & nbrs & s2 & Hn & Hfold & [= ->])]].
  - destruct Hfirst as [(_ & _ & He)|Hh]; [|by right].
    rewrite He in Hc. by apply not_elem_of_empty in Hc.
  - destruct (astar_expand_turn grid start goal rows cols h s f g cur rest nbrs)
      as (s2' & Hrun & _ & _ & Hv & _); try done.
    rewrite Hfold in Hrun. inversion Hrun; subst s2'. right. simpl. rewrite Hv.
    destruct Hfirst as [(Hnil & Hopen & _)|Hh].
    + rewrite Hnil. simpl. f_equal.
      assert (cur ∈ snd <$> a_open_list s) as Hin.
      { apply list_elem_of_fmap. exists (f, g, cur). split; [done|].
        apply (heappop_elem astar_leb _ _ _ _ Hpop). by left. }
      rewrite Hopen in Hin. by apply list_elem_of_singleton in Hin.
    + destruct (a_visited_order s); [done|]. done.
Qed.

Lemma astar_outcome p vis fr :
  astar grid start goal rows cols h = Ret (p, vis, fr) ->
  head vis = Some start ∧
  (∀ x, x ∈ vis -> reachable grid rows cols start x) ∧
  (∀ x, x ∈ vis -> x = start ∨ walkable grid rows cols x) ∧
  match p with
  | Some path => last vis = Some goal ∧ ∀ x, x ∈ path -> x ∈ vis
  | None => (goal ∉ vis) ∧ ∀ x, reachable grid rows cols start x -> x ∈ vis
  end.
Proof.
  intros Hrun. unfold astar in Hrun.
  apply (run_loop_final _ (fun s => inv s ∧ astar_first start s)) in Hrun
    as (s & [Hinv Hfirst] & Hret).
  2:{ intros s s' [Hi Hf] Hstep. split; [by eapply astar_iter_inv|by eapply astar_first_step]. }
  2:{ split; [apply astar_init_inv|]. left. by split_and!. }
  assert (∀ x, x ∈ a_visited_order s -> is_Some (a_g_score s !! x)) as Hdom.
  { intros x Hx. apply (ai_closed_dom _ _ _ _ _ _ _ _ Hinv).
    by apply (ai_visited_closed _ _ _ _ _ _ _ _ Hinv). }
  pose proof Hret as Hcases.
  apply astar_iter_cases in Hcases as [[Hpop [= -> -> ->]]|(f & g & cur & rest & Hpop & Hcase)].
  - apply heappop_None in Hpop. split_and!.
    + destruct Hfirst as [(_ & Hopen & _)|Hh]; [|done]. by rewrite Hpop in Hopen.
    + intros x Hx. by apply (astar_closed_walk s), Hdom.
    + intros x Hx. by apply (ai_cells _ _ _ _ _ _ _ _ Hinv), Hdom.
    + intros Hg. apply (ai_goal _ _ _ _ _ _ _ _ Hinv).
      by apply (ai_visited_closed _ _ _ _ _ _ _ _ Hinv).
    + intros x [n Hw]. apply (ai_visited_closed _ _ _ _ _ _ _ _ Hinv).
      by apply (astar_closed_reach grid start goal rows cols h s x n).
  - destruct Hcase as [[_ [=]]|[(Hc & -> & path & Hpath & [= -> -> ->])|(_ & _ & _ & _ & _ & _ & [=])]].
    apply (astar_return_some grid start goal rows cols h) in Hret
      as (_ & _ & _ & _ & _ & _ & gg & Hgg & _); [|done].
    assert (∀ x, x ∈ a_visited_order s ++ [goal] -> is_Some (a_g_score s !! x)) as Hdom'.
    { intros x [Hx| ->%list_elem_of_singleton]%elem_of_app; [by apply Hdom|by eexists]. }
    split_and!.
    + destruct Hfirst as [(Hnil & Hopen & _)|Hh].
      * rewrite Hnil. simpl. f_equal.
        assert (goal ∈ snd <$> a_open_list s) as Hin.
        { apply list_elem_of_fmap. exists (f, g, goal). split; [done|].
          apply (heappop_elem astar_leb _ _ _ _ Hpop). by left. }
        rewrite Hopen in Hin. by apply list_elem_of_singleton in Hin.
      * destruct (a_visited_order s); [done|]. done.
    + intros x Hx. by apply (astar_closed_walk s), Hdom'.
    + intros x Hx. by apply (ai_cells _ _ _ _ _ _ _ _ Hinv), Hdom'.
    + apply last_snoc.
    + intros x Hx. apply elem_of_app.
      destruct (reconstruct_path_parents _ _ _ x Hpath Hx) as [->|[c Hcx]].
      * right. by apply list_elem_of_singleton.
      * left. apply (ai_visited_closed _ _ _ _ _ _ _ _ Hinv).
        by apply (ai_parent_closed _ _ _ _ _ _ _ _ Hinv c x).
Qed.
End astar_more.

(** ** What greedy best-first search returns *)

Section greedy_more.
Context (grid : list (list Z)) (start goal : coord) (rows cols : Z).
Context (h : coord -> coord -> Z).

Abbreviation E := (edge grid rows cols).
Abbreviation inv := (greedy_inv grid start goal rows cols).
Abbreviation cover := (greedy_cover grid start goal rows cols).

Lemma greedy_cover_weaken (pending pending' : coord -> coord -> Prop) s :
  (∀ u v, pending u v -> pending' u v) -> cover pending s -> cover pending' s.
Proof.
  intros Himp [H1 H2 H3 H4 H5]. constructor; try done.
  intros u v Hu He Hp. apply (H2 u v Hu He). intros Hp'. apply Hp. by apply Himp.
Qed.

Lemma greedy_cover_init : cover (fun _ _ => False) (greedy_init start goal h).
Proof.
  constructor; unfold heappush; simpl.
  - intros n [x [-> _]%lookup_singleton_Some]. right. by apply list_elem_of_singleton.
  - intros u v Hu. by apply elem_of_nil in Hu.
  - intros n p [_ [=]]%lookup_singleton_Some.
  - apply not_elem_of_nil.
  - by left.
Qed.

Lemma greedy_cover_snapshot s : cover (fun _ _ => False) s -> cover (fun _ _ => False) (greedy_snapshot s).
Proof. intros [H1 H2 H3 H4 H5]. by constructor. Qed.

Lemma greedy_cover_discover cur nb (rest : list coord) s s' :
  cover (fun u v => u = cur ∧ v ∈ nb :: rest) s -> cur ∈ g_visited_order s ->
  greedy_discover h goal cur s nb = Ret s' ->
  cover (fun u v => u = cur ∧ v ∈ rest) s' ∧ g_visited_order s' = g_visited_order s.
Proof.
  intros [H1 H2 H3 H4 H5] Hcur. unfold greedy_discover.
  destruct (g_came_from s !! nb) as [x|] eqn:Hnb; intros [= <-].
  - split; [|done]. constructor; try done.
    intros u v Hu He Hp. destruct (decide (v = nb)) as [->|Hne]; [by eexists|].
    apply (H2 u v Hu He). intros [-> [->|Hv]%elem_of_cons]; [done|]. by apply Hp.
  - split; [|done]. constructor; unfold heappush; simpl.
    + intros n [<-|[Hne Hn]]%lookup_insert_is_Some.
      * right. rewrite fmap_app. apply elem_of_app. right. by apply list_elem_of_singleton.
      * destruct (H1 n Hn) as [Hv|Ho]; [by left|]. right. rewrite fmap_app.
        apply elem_of_app. by left.
    + intros u v Hu He Hp. apply lookup_insert_is_Some'.
      destruct (decide (nb = v)) as [|Hne]; [by left|]. right.
      apply (H2 u v Hu He). intros [-> [->|Hv]%elem_of_cons]; [done|]. by apply Hp.
    + intros n p [[<- [= <-]]|[Hne Hn]]%lookup_insert_Some; [done|]. by apply (H3 n).
    + done.
    + right. destruct H5 as [[Hnil _]|Hh]; [|done]. rewrite Hnil in Hcur.
      by apply elem_of_nil in Hcur.
Qed.

Lemma greedy_cover_step s s' :
  inv s -> cover (fun _ _ => False) s ->
  greedy_iter grid goal rows cols h s = Ret (Continue s') ->
  cover (fun _ _ => False) s'.
Proof.
  intros Hinv [H1 H2 H3 H4 H5] Hstep.
  apply greedy_iter_cases in Hstep as [[_ [=]]|(p & cur & rest & Hpop & Hcase)].
  destruct Hcase as [(_ & path & _ & [=])|(Hg & nbrs & s2 & Hn & Hfold & [= ->])].
  apply greedy_cover_snapshot.
  assert (∀ n, n ∈ snd <$> g_open_list s -> n = cur ∨ n ∈ snd <$> rest) as Hopen.
  { intros n (e & -> & He)%list_elem_of_fmap.
    apply (heappop_elem greedy_leb _ _ _ _ Hpop) in He as [->|He]; [by left|].
    right. apply list_elem_of_fmap. by exists e. }
  pose (P := fun (todo : list coord) (s0 : greedy_state) =>
    cover (fun u v => u = cur ∧ v ∈ todo) s0 ∧ cur ∈ g_visited_order s0).
  assert (P [] s2) as [Hcov _].
  { eapply (foldM_inv _ P); [| |exact Hfold].
    - intros s0 x todo s1 [Hc0 Hv0] Hd.
      destruct (greedy_cover_discover cur x todo s0 s1 Hc0 Hv0 Hd) as [Hc1 Hv1].
      split; [done|]. by rewrite Hv1.
    - split; [|simpl; apply elem_of_app; right; by apply list_elem_of_singleton].
      constructor; simpl.
      + intros n Hn0. destruct (H1 n Hn0) as [Hv|Ho].
        * left. apply elem_of_app. by left.
        * destruct (Hopen n Ho) as [->|Hr]; [|by right].
          left. apply elem_of_app. right. by apply list_elem_of_singleton.
      + intros u v [Hu| ->%list_elem_of_singleton]%elem_of_app He Hp.
        * apply (H2 u v); [done|done|tauto].
        * exfalso. apply Hp. split; [done|]. destruct cur as [r c]. simpl in Hn.
          by apply (get_neighbors_spec grid rows cols r c nbrs Hn).
      + intros n q Hq. apply elem_of_app. left. by apply (H3 n).
      + intros [Hv| ->%list_elem_of_singleton]%elem_of_app; done.
      + right. destruct H5 as [[Hnil Hos]|Hh].
        * rewrite Hnil. simpl. f_equal.
          assert (cur ∈ snd <$> g_open_list s) as Hin.
          { apply list_elem_of_fmap. exists (p, cur). split; [done|].
            apply (heappop_elem greedy_leb _ _ _ _ Hpop). by left. }
          rewrite Hos in Hin. by apply list_elem_of_singleton in Hin.
        * destruct (g_visited_order s); [done|]. done. }
  eapply greedy_cover_weaken; [|exact Hcov]. intros u v [_ Hv]. by apply elem_of_nil in Hv.
Qed.

Lemma greedy_found_walk s x : inv s -> is_Some (g_came_from s !! x) -> reachable grid rows cols start x.
Proof.
  intros Hinv Hx. destruct (gi_tree _ _ _ _ _ _ Hinv) as [d Ht].
  destruct (proj1 (tree_dom _ _ _ _ Ht x) Hx) as [g Hg].
  by apply (tree_walk E start (g_came_from s) d x g).
Qed.

Lemma greedy_outcome p vis fr :
  greedy_bfs grid start goal rows cols h = Ret (p, vis, fr) ->
  head vis = Some start ∧
  (∀ x, x ∈ vis -> reachable grid rows cols start x) ∧
  (∀ x, x ∈ vis -> x = start ∨ walkable grid rows cols x) ∧
  match p with
  | Some path => last vis = Some goal ∧ ∀ x, x ∈ path -> x ∈ vis
  | None => (goal ∉ vis) ∧ ∀ x, reachable grid rows cols start x -> x ∈ vis
  end.
Proof.
  intros Hrun. unfold greedy_bfs in Hrun.
  apply (run_loop_final _ (fun s => inv s ∧ cover (fun _ _ => False) s)) in Hrun
    as (s & [Hinv Hcov] & Hret).
  2:{ intros s s' [Hi Hc] Hstep. split; [by eapply greedy_iter_inv|by eapply greedy_cover_step]. }
  2:{ split; [apply greedy_init_inv|apply greedy_cover_init]. }
  pose proof Hcov as [H1 H2 H3 H4 H5].
  assert (∀ x, x ∈ g_visited_order s -> is_Some (g_came_from s !! x)) as Hdom.
  { apply (gi_visited _ _ _ _ _ _ Hinv). }
  apply greedy_iter_cases in Hret as [[Hpop [= -> -> ->]]|(q & cur & rest & Hpop & Hcase)].
  - apply heappop_None in Hpop. rewrite Hpop in *. split_and!.
    + destruct H5 as [[_ Hos]|Hh]; done.
    + intros x Hx. by apply (greedy_found_walk s), Hdom.
    + intros x Hx. by apply (gi_cells _ _ _ _ _ _ Hinv), Hdom.
    + done.
    + intros x [n Hw]. induction Hw as [|b c n Hw IH Hbc].
      * destruct (gi_tree _ _ _ _ _ _ Hinv) as [d Ht].
        destruct (H1 start) as [Hv|Ho]; [|done|by apply elem_of_nil in Ho].
        rewrite (tree_cf_start _ _ _ _ Ht). by eexists.
      * destruct (H1 c) as [Hv|Ho]; [|done|by apply elem_of_nil in Ho].
        apply (H2 b c IH Hbc). tauto.
  - destruct Hcase as [(-> & path & Hpath & [= -> -> ->])|(_ & _ & _ & _ & _ & [=])].
    assert ((q, goal) ∈ g_open_list s) as Hin.
    { apply (heappop_elem greedy_leb _ _ _ _ Hpop). by left. }
    assert (∀ x, x ∈ g_visited_order s ++ [goal] -> is_Some (g_came_from s !! x)) as Hdom'.
    { intros x [Hx| ->%list_elem_of_singleton]%elem_of_app; [by apply Hdom|].
      apply (gi_heap _ _ _ _ _ _ Hinv (q, goal) Hin). }
    split_and!.
    + destruct H5 as [[Hnil Hos]|Hh].
      * rewrite Hnil. simpl. f_equal.
        assert (goal ∈ snd <$> g_open_list s) as Hin'.
        { apply list_elem_of_fmap. by exists (q, goal). }
        rewrite Hos in Hin'. by apply list_elem_of_singleton in Hin'.
      * destruct (g_visited_order s); [done|]. done.
    + intros x Hx. by apply (greedy_found_walk s), Hdom'.
    + intros x Hx. by apply (gi_cells _ _ _ _ _ _ Hinv), Hdom'.
    + apply last_snoc.
    + intros x Hx. apply elem_of_app.
      destruct (reconstruct_path_parents _ _ _ x Hpath Hx) as [->|[c Hcx]].
      * right. by apply list_elem_of_singleton.
      * left. by apply (H3 c x).
Qed.
End greedy_more.
(** * More on the searches: the properties *)

(** X1: on a rectangular grid [astar] and [greedy_bfs] return without an
    exception, whatever the start, the goal and the heuristic, and the path
    they return is None exactly when no sequence of steps leads from the
    start to the goal. *)
Theorem search_finds_path_iff_reachable (grid : list (list Z)) (start goal : coord)
    (rows cols : Z) (h : coord -> coord -> Z) :
  grid_wf grid rows cols ->
  (∃ p vis fr, astar grid start goal rows cols h = Ret (p, vis, fr) ∧
               (is_Some p ↔ reachable grid rows cols start goal)) ∧
  (∃ p vis fr, greedy_bfs grid start goal rows cols h = Ret (p, vis, fr) ∧
               (is_Some p ↔ reachable grid rows cols start goal)).
Proof.
  intros Hwf. split.
  - destruct (astar_total grid start goal rows cols h Hwf) as [[[p vis] fr] Hrun].
    exists p, vis, fr. split; [done|].
    destruct (astar_result _ _ _ _ _ _ _ _ _ Hrun) as [_ Hp].
    destruct p as [path|].
    + split; [|by eexists]. intros _. destruct Hp as [Hp _].
      eexists. by apply is_path_walk.
    + split; [by intros [? [=]]|]. intros [n Hw]. by destruct (Hp n).
  - destruct (greedy_total grid start goal rows cols h Hwf) as [[[p vis] fr] Hrun].
    exists p, vis, fr. split; [done|].
    destruct (greedy_result _ _ _ _ _ _ _ _ _ Hrun) as [_ Hp].
    destruct (greedy_outcome _ _ _ _ _ _ _ _ _ Hrun) as (_ & _ & _ & Ho).
    destruct p as [path|].
    + split; [|by eexists]. intros _. destruct Hp as [Hp _].
      eexists. by apply is_path_walk.
    + split; [by intros [? [=]]|]. intros Hr. destruct Ho as [Hg Hall].
      by destruct (Hg (Hall goal Hr)).
Qed.

Lemma search_finds_path_iff_reachable_witness :
  (∃ p vis fr, astar sealed_grid (0, 0) (0, 2) 2 3 manhattan_distance = Ret (p, vis, fr) ∧
               (is_Some p ↔ reachable sealed_grid 2 3 (0, 0) (0, 2))) ∧
  (∃ p vis fr, greedy_bfs sealed_grid (0, 0) (0, 2) 2 3 manhattan_distance = Ret (p, vis, fr) ∧
               (is_Some p ↔ reachable sealed_grid 2 3 (0, 0) (0, 2))).
Proof.
  apply (search_finds_path_iff_reachable sealed_grid (0, 0) (0, 2) 2 3 manhattan_distance).
  split; [reflexivity|repeat constructor].
Defined.

(** X2: every coordinate in the visited_order of [astar] or [greedy_bfs] can
    be reached from the start, and a search that returns no path has visited
    every coordinate that can be reached: it gives up only after exploring
    all of the start's component. *)
Theorem visited_order_reachable (grid : list (list Z)) (start goal : coord)
    (rows cols : Z) (h : coord -> coord -> Z) (p : option (list coord))
    (vis : list coord) (fr : list (gset coord)) :
  astar grid start goal rows cols h = Ret (p, vis, fr) ∨
  greedy_bfs grid start goal rows cols h = Ret (p, vis, fr) ->
  (∀ x, x ∈ vis -> reachable grid rows cols start x) ∧
  (is_Some p ∨ ∀ x, reachable grid rows cols start x -> x ∈ vis).
Proof.
  intros [Hrun|Hrun].
  - destruct (astar_outcome _ _ _ _ _ _ _ _ _ Hrun) as (_ & Hr & _ & Ho).
    split; [done|]. destruct p; [left; by eexists|right; by destruct Ho].
  - destruct (greedy_outcome _ _ _ _ _ _ _ _ _ Hrun) as (_ & Hr & _ & Ho).
    split; [done|]. destruct p; [left; by eexists|right; by destruct Ho].
Qed.

Lemma visited_order_reachable_witness :
  (∀ x, x ∈ sealed_visited -> reachable sealed_grid 2 3 (0, 0) x) ∧
  (is_Some (None : option (list coord)) ∨
   ∀ x, reachable sealed_grid 2 3 (0, 0) x -> x ∈ sealed_visited).
Proof.
  apply (visited_order_reachable sealed_grid (0, 0) (0, 2) 2 3 manhattan_distance None
           sealed_visited sealed_frontier).
  left. vm_compute. reflexivity.
Defined.

(** X3: every coordinate of the path that [astar] or [greedy_bfs] returns is
    in the visited_order: the path runs through expanded nodes only. *)
Theorem path_within_visited_order (grid : list (list Z)) (start goal : coord)
    (rows cols : Z) (h : coord -> coord -> Z) (path vis : list coord)
    (fr : list (gset coord)) :
  astar grid start goal rows cols h = Ret (Some path, vis, fr) ∨
  greedy_bfs grid start goal rows cols h = Ret (Some path, vis, fr) ->
  ∀ x, x ∈ path -> x ∈ vis.
Proof.
  intros [Hrun|Hrun].
  - by destruct (astar_outcome _ _ _ _ _ _ _ _ _ Hrun) as (_ & _ & _ & _ & Hsub).
  - by destruct (greedy_outcome _ _ _ _ _ _ _ _ _ Hrun) as (_ & _ & _ & _ & Hsub).
Qed.

Lemma path_within_visited_order_witness : (1, 1) ∈ wall_path.
Proof.
  apply (path_within_visited_order wall_grid (0, 0) (0, 2) 2 3 manhattan_distance
           wall_path wall_path wall_frontier).
  - right. vm_compute. reflexivity.
  - unfold wall_path. repeat constructor.
Defined.

(** X4: the visited_order of [astar] and of [greedy_bfs] begins with the
    start; it ends with the goal when a path is returned, and does not hold
    the goal when none is. *)
Theorem visited_order_ends (grid : list (list Z)) (start goal : coord)
    (rows cols : Z) (h : coord -> coord -> Z) (p : option (list coord))
    (vis : list coord) (fr : list (gset coord)) :
  astar grid start goal rows cols h = Ret (p, vis, fr) ∨
  greedy_bfs grid start goal rows cols h = Ret (p, vis, fr) ->
  head vis = Some start ∧
  match p with
  | Some _ => last vis = Some goal
  | None => goal ∉ vis
  end.
Proof.
  intros [Hrun|Hrun].
  - destruct (astar_outcome _ _ _ _ _ _ _ _ _ Hrun) as (Hh & _ & _ & Ho).
    split; [done|]. destruct p; by destruct Ho.
  - destruct (greedy_outcome _ _ _ _ _ _ _ _ _ Hrun) as (Hh & _ & _ & Ho).
    split; [done|]. destruct p; by destruct Ho.
Qed.

Lemma visited_order_ends_witness :
  head wall_path = Some (0, 0) ∧ last wall_path = Some (0, 2).
Proof.
  apply (visited_order_ends wall_grid (0, 0) (0, 2) 2 3 manhattan_distance
           (Some wall_path) wall_path wall_frontier).
  left. vm_compute. reflexivity.
Defined.

(** X5: [astar] and [greedy_bfs] expand at most one node per cell of the
    grid, and one more when the start lies outside the grid. *)
Theorem visited_order_bound (grid : list (list Z)) (start goal : coord)
    (rows cols : Z) (h : coord -> coord -> Z) (p : option (list coord))
    (vis : list coord) (fr : list (gset coord)) :
  astar grid start goal rows cols h = Ret (p, vis, fr) ∨
  greedy_bfs grid start goal rows cols h = Ret (p, vis, fr) ->
  (length vis <= S (Z.to_nat rows * Z.to_nat cols))%nat ∧
  (in_bounds rows cols start -> (length vis <= Z.to_nat rows * Z.to_nat cols)%nat).
Proof.
  intros Hrun.
  assert (NoDup vis ∧ ∀ x, x ∈ vis -> x = start ∨ walkable grid rows cols x) as [Hnd Hcells].
  { destruct Hrun as [Hrun|Hrun].
    - destruct (astar_result _ _ _ _ _ _ _ _ _ Hrun) as [Hnd _].
      by destruct (astar_outcome _ _ _ _ _ _ _ _ _ Hrun) as (_ & _ & Hc & _).
    - destruct (greedy_result _ _ _ _ _ _ _ _ _ Hrun) as [Hnd _].
      by destruct (greedy_outcome _ _ _ _ _ _ _ _ _ Hrun) as (_ & _ & Hc & _). }
  split.
  - etrans; [|apply (universe_size start rows cols)].
    apply nodup_length_size; [done|]. intros x Hx.
    destruct (Hcells x Hx) as [->|[Hb _]]; [apply start_universe|by apply in_bounds_universe].
  - intros Hs. rewrite <- (length_all_cells rows cols).
    apply submseteq_length, NoDup_submseteq; [done|]. intros x Hx.
    apply elem_of_all_cells. by destruct (Hcells x Hx) as [->|[Hb _]].
Qed.

Lemma visited_order_bound_witness :
  (length sealed_visited <= S (Z.to_nat 2 * Z.to_nat 3))%nat ∧
  (in_bounds 2 3 (0, 0) -> (length sealed_visited <= Z.to_nat 2 * Z.to_nat 3)%nat).
Proof.
  apply (visited_order_bound sealed_grid (0, 0) (0, 2) 2 3 manhattan_distance None
           sealed_visited sealed_frontier).
  right. vm_compute. reflexivity.
Defined.

(** X6: a search from a coordinate to itself returns the one-node path, with
    that node as the only visited one and no frontier snapshot, whatever the
    grid, the dimensions and the heuristic: the grid is not read. *)
Theorem search_to_itself (grid : list (list Z)) (start : coord) (rows cols : Z)
    (h : coord -> coord -> Z) :
  astar grid start start rows cols h = Ret (Some [start], [start], []) ∧
  greedy_bfs grid start start rows cols h = Ret (Some [start], [start], []).
Proof.
  assert (∃ n, search_fuel rows cols = S n) as [n Hn].
  { unfold search_fuel. exists (4 * (Z.to_nat rows * Z.to_nat cols + 1) + 1)%nat. lia. }
  assert (reconstruct_path {[start := None]} start = Ret [start]) as Hpath.
  { unfold reconstruct_path. rewrite map_size_singleton. simpl.
    by rewrite lookup_singleton_eq. }
  split.
  - unfold astar. rewrite Hn. simpl. unfold astar_iter. simpl.
    rewrite decide_False by apply not_elem_of_empty.
    rewrite decide_True by done. simpl. by rewrite Hpath.
  - unfold greedy_bfs. rewrite Hn. simpl. unfold greedy_iter. simpl.
    rewrite decide_True by done. simpl. by rewrite Hpath.
Qed.

(** X7: [manhattan_distance] never overestimates: on every grid it is at most
    the number of steps of any path to the goal, it is never negative, and it
    drops by at most 1 along a step. *)
Theorem manhattan_distance_admissible_consistent (grid : list (list Z)) (rows cols : Z)
    (goal : coord) :
  admissible manhattan_distance grid rows cols goal ∧
  consistent manhattan_distance grid rows cols goal.
Proof.
  split; [|apply manhattan_consistent].
  intros n. split; [unfold manhattan_distance; lia|].
  intros l Hl. pose proof (is_path_length _ _ _ _ _ _ Hl) as Hlen.
  apply is_path_walk in Hl. apply manhattan_lower_bound in Hl. lia.
Qed.

(** ** Neighbours *)

Lemma neighbor_step_exact grid rows cols row col acc d :
  grid_wf grid rows cols ->
  neighbor_step grid row col rows cols acc d
    = Ret (acc ++ filter (walkable grid rows cols) [(row + d.1, col + d.2)]).
Proof.
  intros Hwf. unfold neighbor_step. simpl. rewrite filter_cons, filter_nil.
  destruct ((0 <=? row + d.1) && (row + d.1 <? rows) && (0 <=? col + d.2) &&
            (col + d.2 <? cols)) eqn:Hb.
  - assert (in_bounds rows cols (row + d.1, col + d.2)) as Hin.
    { unfold in_bounds. simpl. zbool. lia. }
    destruct (cells_get_in_bounds grid rows cols _ Hwf Hin) as [x Hx]. simpl in Hx.
    rewrite Hx. destruct (x =? OBSTACLE) eqn:Ho.
    + rewrite decide_False, app_nil_r; [done|].
      intros [_ (y & Hy & Hne)]. simpl in Hy. rewrite Hx in Hy. inversion Hy; subst.
      zbool. done.
    + rewrite decide_True; [done|]. split; [done|]. exists x. split; [done|].
      zbool. done.
  - rewrite decide_False, app_nil_r; [done|].
    intros [[Hr Hc] _]. simpl in *. zbool; lia.
Qed.

(** X8: on a rectangular grid [get_neighbors] returns, for any position inside
    or outside the grid and without an exception, the cells above, below, left
    and right of it, in that order, that lie in the grid and are no
    Obstacle. *)
Theorem get_neighbors_exact (grid : list (list Z)) (row col rows cols : Z) :
  grid_wf grid rows cols ->
  get_neighbors grid row col rows cols
    = Ret (filter (walkable grid rows cols) (around row col)).
Proof.
  intros Hwf. unfold get_neighbors, directions. simpl.
  rewrite !neighbor_step_exact by done. simpl.
  rewrite !neighbor_step_exact by done. simpl.
  rewrite !neighbor_step_exact by done. simpl.
  rewrite !neighbor_step_exact by done. simpl.
  unfold around.
  change [(row - 1, col); (row + 1, col); (row, col - 1); (row, col + 1)]
    with ([(row - 1, col)] ++ [(row + 1, col)] ++ [(row, col - 1)] ++ [(row, col + 1)]).
  rewrite !filter_app, !Z.add_0_r, <- !app_assoc. simpl.
  replace (row + -1) with (row - 1) by lia. replace (col + -1) with (col - 1) by lia.
  done.
Qed.

Lemma get_neighbors_exact_witness :
  get_neighbors wall_grid 0 0 2 3 = Ret (filter (walkable wall_grid 2 3) (around 0 0)).
Proof.
  apply (get_neighbors_exact wall_grid 0 0 2 3).
  split; [reflexivity|repeat constructor].
Defined.

(** ** Path reconstruction *)

Lemma chain_map_lookup_notin prev l x : x ∉ l -> chain_map prev l !! x = None.
Proof.
  revert prev. induction l as [|a l IH]; intros prev Hx; simpl; [done|].
  apply not_elem_of_cons in Hx as [Hne Hx]. rewrite lookup_insert_ne by done. by apply IH.
Qed.

Lemma chain_map_lookup prev la x lb :
  NoDup (la ++ x :: lb) ->
  chain_map prev (la ++ x :: lb) !! x = Some (from_option Some prev (last la)).
Proof.
  revert prev. induction la as [|a la IH]; intros prev Hnd; simpl.
  - by rewrite lookup_insert_eq.
  - simpl in Hnd. apply NoDup_cons in Hnd as [Ha Hnd].
    rewrite lookup_insert_ne.
    2:{ intros ->. apply Ha. apply elem_of_app. right. by left. }
    rewrite (IH (Some a) Hnd). destruct la as [|b la]; [done|].
    rewrite last_cons_cons. destruct (last (b :: la)) eqn:Hlast; [done|].
    by apply last_None in Hlast.
Qed.

Lemma chain_map_size prev l : NoDup l -> size (chain_map prev l) = length l.
Proof.
  revert prev. induction l as [|a l IH]; intros prev Hnd; simpl.
  - apply map_size_empty.
  - apply NoDup_cons in Hnd as [Ha Hnd]. rewrite map_size_insert_None, IH; [done|done|].
    by apply chain_map_lookup_notin.
Qed.

Lemma reconstruct_loop_chain l :
  NoDup l ->
  ∀ la x lb acc, l = la ++ x :: lb ->
    reconstruct_loop (S (length la)) (chain_map None l) (Some x) acc
      = Ret (acc ++ x :: reverse la).
Proof.
  intros Hnd la. induction la as [|y la IH] using rev_ind; intros x lb acc Hl.
  - simpl. subst l. rewrite (chain_map_lookup None [] x lb Hnd). simpl. done.
  - subst l. rewrite <- app_assoc in Hnd. simpl in Hnd.
    assert (chain_map None ((la ++ [y]) ++ x :: lb) !! x = Some (Some y)) as Hx.
    { rewrite (chain_map_lookup None (la ++ [y]) x lb).
      - by rewrite last_snoc.
      - by rewrite <- app_assoc. }
    rewrite length_app. simpl. rewrite Nat.add_1_r.
    change (reconstruct_loop (S (S (length la))) ?cf (Some x) acc)
      with (match cf !! x with
            | None => Raise KeyError
            | Some next => reconstruct_loop (S (length la)) cf next (acc ++ [x])
            end).
    rewrite Hx. rewrite (IH y (x :: lb) (acc ++ [x])).
    + rewrite reverse_app. simpl. by rewrite <- app_assoc.
    + by rewrite <- app_assoc.
Qed.

(** X9: [reconstruct_path] undoes the encoding of a path as a came-from map:
    for a path without repeated coordinates, with every coordinate mapped to
    the one before it and the first to None, it returns the path from its
    last coordinate. *)
Theorem reconstruct_path_round_trip (l : list coord) (goal : coord) :
  NoDup (l ++ [goal]) ->
  reconstruct_path (chain_map None (l ++ [goal])) goal = Ret (l ++ [goal]).
Proof.
  intros Hnd. unfold reconstruct_path.
  pose proof (reconstruct_loop_chain (l ++ [goal]) Hnd l goal [] [] eq_refl) as Hloop.
  rewrite (reconstruct_loop_mono _ (size (chain_map None (l ++ [goal]))) _ _ _ _ Hloop).
  - simpl. rewrite reverse_cons, reverse_involutive. done.
  - rewrite chain_map_size by done. rewrite length_app. simpl. lia.
Qed.

Lemma reconstruct_path_round_trip_witness :
  reconstruct_path (chain_map None ([(0, 0); (1, 0); (1, 1); (1, 2)] ++ [(0, 2)])) (0, 2)
    = Ret ([(0, 0); (1, 0); (1, 1); (1, 2)] ++ [(0, 2)]).
Proof.
  apply (reconstruct_path_round_trip [(0, 0); (1, 0); (1, 1); (1, 2)] (0, 2)).
  apply NoDup_ListNoDup. repeat constructor; simpl; intuition congruence.
Defined.

(** ** Consistent heuristics *)

(** X25: for every grid, start and goal and every integer-valued heuristic
    that is consistent (it drops by at most 1 along every step, as the
    Manhattan distance does), a path that [astar] returns is a shortest
    4-connected path from start to goal; and on an obstacle-free grid [astar]
    with the Manhattan heuristic returns, for every start and goal in bounds, a
    path with Manhattan distance + 1 nodes. *)
Theorem astar_shortest_when_consistent :
  (∀ grid start goal rows cols h path vis fr,
     consistent h grid rows cols goal ->
     astar grid start goal rows cols h = Ret (Some path, vis, fr) ->
     is_path grid rows cols start goal path ∧
     ∀ l, is_path grid rows cols start goal l -> (length path <= length l)%nat) ∧
  (∀ grid start goal rows cols,
     grid_wf grid rows cols -> obstacle_free grid ->
     in_bounds rows cols start -> in_bounds rows cols goal ->
     ∃ path vis fr,
       astar grid start goal rows cols manhattan_distance = Ret (Some path, vis, fr) ∧
       Z.of_nat (length path) = manhattan_distance start goal + 1).
Proof.
  split.
  - intros grid start goal rows cols h path vis fr Hcons Hrun.
    destruct (astar_result _ _ _ _ _ _ _ _ _ Hrun) as (_ & Hpath & _).
    split; [done|]. intros l Hl.
    pose proof (is_path_length _ _ _ _ _ _ Hl).
    pose proof (astar_least _ _ _ _ _ _ _ _ _ Hcons Hrun _ (is_path_walk _ _ _ _ _ _ Hl)).
    lia.
  - intros grid start goal rows cols Hwf Hfree Hs Hg.
    pose proof (walk_manhattan grid rows cols Hwf Hfree start goal Hs Hg) as Hw.
    destruct (astar_total grid start goal rows cols manhattan_distance Hwf)
      as [[[[path|] vis] fr] Hrun].
    2:{ destruct (astar_result _ _ _ _ _ _ _ _ _ Hrun) as (_ & Hno). by apply Hno in Hw. }
    exists path, vis, fr. split; [done|].
    destruct (astar_result _ _ _ _ _ _ _ _ _ Hrun) as (_ & Hpath & _).
    pose proof (is_path_length _ _ _ _ _ _ Hpath).
    pose proof (manhattan_lower_bound _ _ _ _ _ _ (is_path_walk _ _ _ _ _ _ Hpath)).
    pose proof (astar_least _ _ _ _ _ _ _ _ _
                  (manhattan_consistent grid rows cols goal) Hrun _ Hw).
    assert (0 <= manhattan_distance start goal) by (unfold manhattan_distance; lia).
    lia.
Qed.

Lemma astar_shortest_when_consistent_witness :
  (is_path [[EMPTY; EMPTY]] 1 2 (0, 0) (0, 1) [(0, 0); (0, 1)] ∧
   ∀ l, is_path [[EMPTY; EMPTY]] 1 2 (0, 0) (0, 1) l -> (2 <= length l)%nat) ∧
  ∃ path vis fr,
    astar [[EMPTY; EMPTY]; [EMPTY; EMPTY]] (0, 0) (1, 1) 2 2 manhattan_distance
      = Ret (Some path, vis, fr) ∧
    Z.of_nat (length path) = manhattan_distance (0, 0) (1, 1) + 1.
Proof.
  split.
  - eapply (proj1 astar_shortest_when_consistent [[EMPTY; EMPTY]] (0, 0) (0, 1) 1 2
              manhattan_distance [(0, 0); (0, 1)]).
    + intros u v [Hadj _]. unfold manhattan_distance, adjacent4 in *. lia.
    + vm_compute. reflexivity.
  - apply (proj2 astar_shortest_when_consistent).
    + split; [reflexivity|]. repeat constructor.
    + repeat constructor; discriminate.
    + unfold in_bounds; simpl; lia.
    + unfold in_bounds; simpl; lia.
Defined.

(** X26: with an integer-valued consistent heuristic, when both searches
    return a path, the step count of [astar]'s path is at most that of
    [greedy_bfs]'s path. *)
Theorem astar_no_longer_than_greedy :
  ∀ grid start goal rows cols h pa va fa pg vg fg,
    consistent h grid rows cols goal ->
    astar grid start goal rows cols h = Ret (Some pa, va, fa) ->
    greedy_bfs grid start goal rows cols h = Ret (Some pg, vg, fg) ->
    (length pa - 1 <= length pg - 1)%nat.
Proof.
  intros grid start goal rows cols h pa va fa pg vg fg Hcons Ha Hg.
  destruct (greedy_result _ _ _ _ _ _ _ _ _ Hg) as (_ & Hpath & _).
  pose proof (astar_least _ _ _ _ _ _ _ _ _ Hcons Ha _ (is_path_walk _ _ _ _ _ _ Hpath)).
  pose proof (is_path_length _ _ _ _ _ _ Hpath). lia.
Qed.

Lemma astar_no_longer_than_greedy_witness :
  (length corner_path - 1 <= length corner_path - 1)%nat.
Proof.
  eapply (astar_no_longer_than_greedy [[EMPTY; EMPTY]; [EMPTY; EMPTY]] (0, 0) (1, 1) 2 2
            manhattan_distance).
  - intros u v [Hadj _]. unfold manhattan_distance, adjacent4 in *. lia.
  - vm_compute. reflexivity.
  - vm_compute. reflexivity.
Defined.

(** ** A walk back that leaves the came-from map *)

Lemma linked_parents_keys cf l y x :
  linked (parent_of cf) (l ++ [y]) -> x ∈ l -> is_Some (cf !! x).
Proof.
  induction l as [|a l IH]; intros Hl Hx; [by apply elem_of_nil in Hx|].
  simpl in Hl. destruct (l ++ [y]) as [|b t] eqn:E; [by destruct l|].
  destruct Hl as [Hab Hl]. apply elem_of_cons in Hx as [->|Hx]; [by eexists|].
  by apply IH.
Qed.

Lemma reconstruct_loop_key_error cf y l :
  cf !! y = None ->
  ∀ c fuel acc, head (l ++ [y]) = Some c -> linked (parent_of cf) (l ++ [y]) ->
    (length l <= fuel)%nat -> reconstruct_loop fuel cf (Some c) acc = Raise KeyError.
Proof.
  intros Hy. induction l as [|a l IH]; intros c fuel acc Hh Hl Hf.
  - simpl in Hh. inversion Hh; subst c. destruct fuel; simpl; by rewrite Hy.
  - simpl in Hh. inversion Hh; subst c.
    destruct fuel as [|fuel]; [simpl in Hf; lia|].
    simpl in Hl. destruct (l ++ [y]) as [|b t] eqn:E; [by destruct l|].
    destruct Hl as [Hab Hl]. simpl. rewrite Hab.
    apply IH; [done|done|]. simpl in Hf. lia.
Qed.

(** X27: [reconstruct_path] raises KeyError when the walk from the goal back
    along the parents comes, through coordinates [l] without a repetition, to
    a coordinate [y] that [came_from] does not hold; with [l] empty that is
    the goal itself. *)
Theorem reconstruct_path_key_error (came_from : gmap coord (option coord)) (goal : coord)
    (l : list coord) (y : coord) :
  head (l ++ [y]) = Some goal -> linked (parent_of came_from) (l ++ [y]) ->
  NoDup l -> came_from !! y = None ->
  reconstruct_path came_from goal = Raise KeyError.
Proof.
  intros Hh Hl Hnd Hy. unfold reconstruct_path.
  rewrite (reconstruct_loop_key_error came_from y l Hy goal (size came_from) [] Hh Hl);
    [done|].
  rewrite <- (size_dom (D := gset coord)). apply nodup_length_size; [done|].
  intros x Hx. apply elem_of_dom. by apply (linked_parents_keys came_from l y).
Qed.

Lemma reconstruct_path_key_error_witness :
  reconstruct_path {[ (0, 1) := Some (0, 0) ]} (0, 1) = Raise KeyError.
Proof.
  apply (reconstruct_path_key_error {[ (0, 1) := Some (0, 0) ]} (0, 1) [(0, 1)] (0, 0)).
  - reflexivity.
  - split; [|done]. unfold parent_of. by rewrite lookup_singleton_eq.
  - apply NoDup_singleton.
  - by rewrite lookup_singleton_ne.
Defined.
(** * More on the grid manager *)

(** ** Indexing as Python does *)

Lemma py_index_in_range (len : nat) (i : Z) :
  in_range (Z.of_nat len) i ->
  py_index len i = Some (Z.to_nat (wrap_index (Z.of_nat len) i)) ∧
  0 <= wrap_index (Z.of_nat len) i < Z.of_nat len.
Proof.
  unfold in_range, py_index, wrap_index. intros Hi.
  destruct (i <? 0) eqn:Eneg.
  - apply Z.ltb_lt in Eneg.
    destruct (0 <=? i) eqn:Ea; [apply Z.leb_le in Ea; lia|]. simpl.
    destruct (- Z.of_nat len <=? i) eqn:Eb; [|apply Z.leb_gt in Eb; lia]. simpl.
    split; [done|lia].
  - apply Z.ltb_ge in Eneg.
    destruct (0 <=? i) eqn:Ea; [|apply Z.leb_gt in Ea; lia].
    destruct (i <? Z.of_nat len) eqn:Eb; [|apply Z.ltb_ge in Eb; lia]. simpl.
    split; [done|lia].
Qed.

Lemma py_index_out (len : nat) (i : Z) :
  ¬ in_range (Z.of_nat len) i -> py_index len i = None.
Proof.
  unfold in_range, py_index. intros Hi.
  destruct ((0 <=? i) && (i <? Z.of_nat len)) eqn:Ea; [zbool; lia|].
  destruct ((- Z.of_nat len <=? i) && (i <? 0)) eqn:Eb; [zbool; lia|]. done.
Qed.

Lemma py_index_wrap (len : nat) (i : Z) :
  in_range (Z.of_nat len) i -> py_index len i = py_index len (wrap_index (Z.of_nat len) i).
Proof.
  intros Hi. destruct (py_index_in_range len i Hi) as [-> Hw].
  rewrite py_index_nonneg by lia.
  destruct (wrap_index (Z.of_nat len) i <? Z.of_nat len) eqn:Ea; [done|].
  apply Z.ltb_ge in Ea. lia.
Qed.

Lemma cells_set_wrap cells rows cols r c v :
  grid_wf cells rows cols -> in_range rows r -> in_range cols c ->
  cells_set cells r c v = cells_set cells (wrap_index rows r) (wrap_index cols c) v ∧
  in_bounds rows cols (wrap_index rows r, wrap_index cols c).
Proof.
  intros Hwf Hr Hc. pose proof Hwf as [Hlen Hrows]. subst rows.
  destruct (py_index_in_range _ r Hr) as [Hir Hwr].
  split.
  - unfold cells_set. rewrite <- (py_index_wrap _ r Hr), Hir. simpl.
    destruct (cells !! _) as [row|] eqn:Hrow; [|done]. simpl.
    assert (Z.of_nat (length row) = cols) as Hl.
    { eapply grid_wf_row; [exact Hwf|exact Hrow]. }
    unfold py_setitem. subst cols. by rewrite <- (py_index_wrap _ c Hc).
  - split; [done|]. simpl.
    destruct (lookup_lt_is_Some_2 cells (Z.to_nat (wrap_index (Z.of_nat (length cells)) r)))
      as [row Hrow]; [lia|].
    assert (Z.of_nat (length row) = cols) as Hl.
    { eapply grid_wf_row; [exact Hwf|exact Hrow]. }
    subst cols. by destruct (py_index_in_range _ c Hc).
Qed.

Lemma cells_set_out cells rows cols r c v :
  grid_wf cells rows cols -> ¬ (in_range rows r ∧ in_range cols c) ->
  cells_set cells r c v = None.
Proof.
  intros Hwf Hout. pose proof Hwf as [Hlen Hrows]. subst rows. unfold cells_set.
  destruct (decide (in_range (Z.of_nat (length cells)) r)) as [Hr|Hr].
  2:{ by rewrite py_index_out. }
  destruct (py_index_in_range _ r Hr) as [-> Hwr]. simpl.
  destruct (cells !! _) as [row|] eqn:Hrow; [|done]. simpl.
  assert (Z.of_nat (length row) = cols) as Hl.
  { eapply grid_wf_row; [exact Hwf|exact Hrow]. }
  unfold py_setitem. rewrite py_index_out; [done|]. rewrite Hl. tauto.
Qed.

Lemma cells_get_wrap cells rows cols r c :
  grid_wf cells rows cols -> in_range rows r -> in_range cols c ->
  cells_get cells r c = cells_get cells (wrap_index rows r) (wrap_index cols c).
Proof.
  intros Hwf Hr Hc. pose proof Hwf as [Hlen Hrows]. subst rows.
  destruct (py_index_in_range _ r Hr) as [Hir Hwr].
  unfold cells_get, py_getitem. rewrite <- (py_index_wrap _ r Hr), Hir. simpl.
  destruct (cells !! _) as [row|] eqn:Hrow; [|done]. simpl.
  assert (Z.of_nat (length row) = cols) as Hl.
  { eapply grid_wf_row; [exact Hwf|exact Hrow]. }
  subst cols. by rewrite <- (py_index_wrap _ c Hc).
Qed.

Lemma cells_get_out cells rows cols r c :
  grid_wf cells rows cols -> ¬ (in_range rows r ∧ in_range cols c) ->
  cells_get cells r c = None.
Proof.
  intros Hwf Hout. pose proof Hwf as [Hlen Hrows]. subst rows. unfold cells_get, py_getitem.
  destruct (decide (in_range (Z.of_nat (length cells)) r)) as [Hr|Hr].
  2:{ by rewrite py_index_out. }
  destruct (py_index_in_range _ r Hr) as [-> Hwr]. simpl.
  destruct (cells !! _) as [row|] eqn:Hrow; [|done]. simpl.
  assert (Z.of_nat (length row) = cols) as Hl.
  { eapply grid_wf_row; [exact Hwf|exact Hrow]. }
  rewrite py_index_out; [done|]. rewrite Hl. tauto.
Qed.

(** ** Grids with the same cells are the same *)

Lemma cells_ext cells1 cells2 rows cols :
  grid_wf cells1 rows cols -> grid_wf cells2 rows cols ->
  (∀ q, in_bounds rows cols q -> cells_get cells1 q.1 q.2 = cells_get cells2 q.1 q.2) ->
  cells1 = cells2.
Proof.
  intros Hwf1 Hwf2 Hget. pose proof Hwf1 as [Hl1 _]. pose proof Hwf2 as [Hl2 _].
  apply list_eq. intros i.
  destruct (decide (i < length cells1)%nat) as [Hi|Hi].
  2:{ rewrite !lookup_ge_None_2; [done|lia|lia]. }
  destruct (lookup_lt_is_Some_2 cells1 i) as [row1 Hrow1]; [done|].
  destruct (lookup_lt_is_Some_2 cells2 i) as [row2 Hrow2]; [lia|].
  rewrite Hrow1, Hrow2. f_equal.
  pose proof (grid_wf_row _ _ _ _ _ Hwf1 Hrow1) as Hc1.
  pose proof (grid_wf_row _ _ _ _ _ Hwf2 Hrow2) as Hc2.
  apply list_eq. intros j.
  destruct (decide (j < length row1)%nat) as [Hj|Hj].
  2:{ rewrite !lookup_ge_None_2; [done|lia|lia]. }
  specialize (Hget (Z.of_nat i, Z.of_nat j)). simpl in Hget.
  rewrite !cells_get_nonneg in Hget by lia. rewrite !Nat2Z.id in Hget.
  rewrite Hrow1, Hrow2 in Hget. simpl in Hget. apply Hget.
  unfold in_bounds. simpl. lia.
Qed.

Lemma manager_ext (self self' : GridManager) :
  manager_wf self -> same_frame self self' ->
  (∀ q, in_bounds (gm_rows self) (gm_cols self) q ->
        cells_get (gm_cells self') q.1 q.2 = cells_get (gm_cells self) q.1 q.2) ->
  self' = self.
Proof.
  intros Hwf (H1 & H2 & H3 & H4 & Hwf') Hget.
  unfold manager_wf in *. rewrite H1, H2 in Hwf'.
  pose proof (cells_ext _ _ _ _ Hwf' Hwf Hget) as Hc.
  destruct self, self'. simpl in *. by subst.
Qed.

(** ** One assignment to a cell *)

Lemma wrap_index_nonneg n i : 0 <= i -> wrap_index n i = i.
Proof. intros Hi. unfold wrap_index. destruct (i <? 0) eqn:Ea; [apply Z.ltb_lt in Ea; lia|done]. Qed.

Lemma wrap_cell_in_bounds self p :
  in_bounds (gm_rows self) (gm_cols self) p -> wrap_cell self p = p.
Proof.
  intros [Hr Hc]. unfold wrap_cell. rewrite !wrap_index_nonneg by lia. by destruct p.
Qed.

Lemma in_bounds_in_range rows cols p :
  in_bounds rows cols p -> in_range rows p.1 ∧ in_range cols p.2.
Proof. unfold in_bounds, in_range. lia. Qed.

Lemma same_frame_refl self : manager_wf self -> same_frame self self.
Proof. intros Hwf. by split_and!. Qed.

Lemma same_frame_trans s1 s2 s3 : same_frame s1 s2 -> same_frame s2 s3 -> same_frame s1 s3.
Proof.
  intros (A1 & A2 & A3 & A4 & A5) (B1 & B2 & B3 & B4 & B5).
  split_and!; try done; congruence.
Qed.

(** [self.cells[r][c] = v] writes the cell that the indices stand for, or
    raises IndexError and leaves the manager as it was. *)
Lemma assign_cell_cases self r c v :
  manager_wf self ->
  if decide (in_range (gm_rows self) r ∧ in_range (gm_cols self) c) then
    ∃ self', assign_cell r c v self = (Ret tt, self') ∧ same_frame self self' ∧
             in_bounds (gm_rows self) (gm_cols self) (wrap_cell self (r, c)) ∧
             cells_written self (wrap_cell self (r, c)) v self'
  else assign_cell r c v self = (Raise IndexError, self).
Proof.
  intros Hwf. case_decide as Hin.
  - destruct Hin as [Hr Hc].
    destruct (cells_set_wrap (gm_cells self) _ _ r c v Hwf Hr Hc) as [Hset Hb].
    destruct (assign_cell_spec self _ _ (wrap_cell self (r, c)) v Hwf Hb)
      as (cells' & Hassign & Hwf' & Hget).
    exists (set_cells self cells'). unfold assign_cell in *. rewrite Hset.
    split; [exact Hassign|]. split; [by split_and!|]. split; [exact Hb|exact Hget].
  - unfold assign_cell. by rewrite (cells_set_out _ _ _ r c v Hwf Hin).
Qed.

Lemma assign_cell_in_bounds self p v :
  manager_wf self -> in_bounds (gm_rows self) (gm_cols self) p ->
  ∃ self', assign_cell p.1 p.2 v self = (Ret tt, self') ∧ same_frame self self' ∧
           cells_written self p v self'.
Proof.
  intros Hwf Hb. pose proof (assign_cell_cases self p.1 p.2 v Hwf) as Hc.
  rewrite decide_True in Hc by by apply in_bounds_in_range.
  destruct Hc as (self' & Hrun & Hf & _ & Hw). exists self'. split_and!; try done.
  replace (p.1, p.2) with p in Hw by by destruct p.
  by rewrite wrap_cell_in_bounds in Hw.
Qed.

Lemma cells_written_get self p v self' :
  cells_written self p v self' -> in_bounds (gm_rows self) (gm_cols self) p ->
  cells_get (gm_cells self') p.1 p.2 = Some v.
Proof. intros Hw Hb. rewrite (Hw p Hb). by rewrite decide_True. Qed.

(** ** Editing obstacles *)

Lemma safe_to_edit_editable self row col :
  _is_safe_to_edit self row col = true ↔ editable self (row, col).
Proof.
  split.
  - intros H. apply safe_to_edit_true in H. unfold editable. tauto.
  - intros (Hb & Hs & Hg). destruct (_is_safe_to_edit self row col) eqn:Hsafe; [done|].
    apply safe_to_edit_false in Hsafe. tauto.
Qed.

Lemma toggle_obstacle_cases self row col :
  manager_wf self ->
  if decide (editable self (row, col)) then
    ∃ x self', cells_get (gm_cells self) row col = Some x ∧
      toggle_obstacle self row col = (Ret (Some (toggled x)), self') ∧
      same_frame self self' ∧ cells_written self (row, col) (toggled x) self'
  else toggle_obstacle self row col = (Ret None, self).
Proof.
  intros Hwf. unfold toggle_obstacle. case_decide as He.
  - rewrite (proj2 (safe_to_edit_editable self row col) He). simpl.
    destruct He as (Hb & _).
    destruct (cells_get_in_bounds _ _ _ (row, col) Hwf Hb) as [x Hx]. simpl in Hx.
    rewrite Hx. exists x. unfold toggled.
    destruct (x =? OBSTACLE).
    + destruct (assign_cell_in_bounds self (row, col) EMPTY Hwf Hb) as (self' & Hrun & Hf & Hw).
      simpl in Hrun. rewrite Hrun. by exists self'.
    + destruct (assign_cell_in_bounds self (row, col) OBSTACLE Hwf Hb) as (self' & Hrun & Hf & Hw).
      simpl in Hrun. rewrite Hrun. by exists self'.
  - destruct (_is_safe_to_edit self row col) eqn:Hsafe; [|done].
    by apply safe_to_edit_editable in Hsafe.
Qed.

Lemma place_obstacle_cases self row col :
  manager_wf self ->
  if decide (editable self (row, col) ∧ cells_get (gm_cells self) row col ≠ Some OBSTACLE) then
    ∃ self', place_obstacle self row col = (Ret true, self') ∧
      same_frame self self' ∧ cells_written self (row, col) OBSTACLE self'
  else place_obstacle self row col = (Ret false, self).
Proof.
  intros Hwf. unfold place_obstacle. case_decide as He.
  - destruct He as [He Hno]. rewrite (proj2 (safe_to_edit_editable self row col) He). simpl.
    destruct He as (Hb & _).
    destruct (cells_get_in_bounds _ _ _ (row, col) Hwf Hb) as [x Hx]. simpl in Hx.
    rewrite Hx in *. destruct (x =? OBSTACLE) eqn:Ea; [apply Z.eqb_eq in Ea; by subst|].
    destruct (assign_cell_in_bounds self (row, col) OBSTACLE Hwf Hb) as (self' & Hrun & Hf & Hw).
    simpl in Hrun. rewrite Hrun. by exists self'.
  - destruct (_is_safe_to_edit self row col) eqn:Hsafe; [|done]. simpl.
    apply safe_to_edit_editable in Hsafe. pose proof Hsafe as (Hb & _).
    destruct (cells_get_in_bounds _ _ _ (row, col) Hwf Hb) as [x Hx]. simpl in Hx.
    rewrite Hx in *. destruct (x =? OBSTACLE) eqn:Ea; [done|].
    exfalso. apply He. split; [done|]. intros [= ->]. done.
Qed.

(** ** The loops over all cells as one loop *)

Lemma for_each_app {St A : Type} (body : A -> St -> res unit * St) (l1 l2 : list A) (s : St) :
  for_each body (l1 ++ l2) s =
    match for_each body l1 s with
    | (Ret _, s') => for_each body l2 s'
    | other => other
    end.
Proof.
  revert s. induction l1 as [|x l1 IH]; intros s; simpl; [done|].
  destruct (body x s) as [[[]| |] s1]; [apply IH|done|done].
Qed.

Lemma for_each_row {St : Type} (body : Z -> Z -> St -> res unit * St)
    (r : Z) (cs : list Z) (s : St) :
  for_each (fun c => body r c) cs s =
    for_each (fun q : coord => body q.1 q.2) (c ← cs; [(r, c)]) s.
Proof.
  revert s. induction cs as [|c cs IH]; intros s; [done|].
  rewrite bind_cons. simpl. destruct (body r c s) as [[[]| |] s1]; [apply IH|done|done].
Qed.

Lemma for_each_nested {St : Type} (body : Z -> Z -> St -> res unit * St)
    (rs cs : list Z) (s : St) :
  for_each (fun r => for_each (fun c => body r c) cs) rs s =
    for_each (fun q : coord => body q.1 q.2) (r ← rs; c ← cs; [(r, c)]) s.
Proof.
  revert s. induction rs as [|r rs IH]; intros s; [done|].
  rewrite bind_cons, for_each_app. simpl. rewrite for_each_row.
  destruct (for_each (fun q : coord => body q.1 q.2) (c ← cs; [(r, c)]) s)
    as [[[]| |] s1]; [apply IH|done|done].
Qed.

(** ** Clearing *)

Lemma clear_list self (l : list coord) :
  (∀ q, q ∈ l -> in_bounds (gm_rows self) (gm_cols self) q) ->
  ∀ s, same_frame self s ->
    ∃ s', for_each (fun (q : coord) self0 =>
            match cells_get (gm_cells self0) q.1 q.2 with
            | None => (Raise IndexError, self0)
            | Some x => if x =? OBSTACLE then assign_cell q.1 q.2 EMPTY self0 else (Ret tt, self0)
            end) l s = (Ret tt, s') ∧
          same_frame self s' ∧
          ∀ q, in_bounds (gm_rows self) (gm_cols self) q ->
               cells_get (gm_cells s') q.1 q.2 =
                 if decide (q ∈ l ∧ cells_get (gm_cells s) q.1 q.2 = Some OBSTACLE)
                 then Some EMPTY else cells_get (gm_cells s) q.1 q.2.
Proof.
  induction l as [|a l IH]; intros Hl s Hs.
  - exists s. split; [done|]. split; [done|]. intros q Hq.
    rewrite decide_False; [done|]. intros [Hin _]. by apply elem_of_nil in Hin.
  - pose proof Hs as (S1 & S2 & S3 & S4 & S5).
    assert (in_bounds (gm_rows s) (gm_cols s) a) as Ha.
    { rewrite S1, S2. apply Hl. by left. }
    destruct (cells_get_in_bounds _ _ _ a S5 Ha) as [x Hx].
    cbn [for_each]. rewrite Hx.
    assert (∀ q, q ∈ l -> in_bounds (gm_rows self) (gm_cols self) q) as Hl'.
    { intros q Hq. apply Hl. by right. }
    destruct (x =? OBSTACLE) eqn:Ea.
    + apply Z.eqb_eq in Ea. subst x.
      destruct (assign_cell_in_bounds s a EMPTY S5 Ha) as (s1 & Hrun & Hf & Hw).
      rewrite Hrun.
      destruct (IH Hl' s1 (same_frame_trans _ _ _ Hs Hf)) as (s' & Hrun' & Hf' & Hget).
      exists s'. split; [done|]. split; [done|]. intros q Hq.
      rewrite (Hget q Hq). rewrite (Hw q) by (by rewrite S1, S2).
      destruct (decide (q = a)) as [->|Hne].
      * rewrite Hx. rewrite (decide_True (P := a ∈ a :: l ∧ _)); [|split; [by left|done]].
        by case_decide.
      * case_decide as H1; case_decide as H2; try done.
        -- exfalso. apply H2. destruct H1. split; [by right|done].
        -- exfalso. apply H1. destruct H2 as [[?|?]%elem_of_cons ?]; done.
    + destruct (IH Hl' s Hs) as (s' & Hrun' & Hf' & Hget).
      exists s'. split; [done|]. split; [done|]. intros q Hq.
      rewrite (Hget q Hq).
      case_decide as H1; case_decide as H2; try done.
      * exfalso. apply H2. destruct H1. split; [by right|done].
      * exfalso. apply H1. destruct H2 as [[->|?]%elem_of_cons H2]; [|done].
        rewrite Hx in H2. inversion H2; subst. done.
Qed.

Lemma clear_obstacles_cases self :
  manager_wf self ->
  ∃ self', clear_obstacles self = (Ret tt, self') ∧ same_frame self self' ∧
    ∀ q, in_bounds (gm_rows self) (gm_cols self) q ->
         cells_get (gm_cells self') q.1 q.2 =
           if decide (cells_get (gm_cells self) q.1 q.2 = Some OBSTACLE)
           then Some EMPTY else cells_get (gm_cells self) q.1 q.2.
Proof.
  intros Hwf. unfold clear_obstacles.
  rewrite (for_each_nested
             (fun r c self0 =>
                match cells_get (gm_cells self0) r c with
                | None => (Raise IndexError, self0)
                | Some x => if x =? OBSTACLE then assign_cell r c EMPTY self0 else (Ret tt, self0)
                end)).
  destruct (clear_list self (grid_coords (gm_rows self) (gm_cols self)))
    with (s := self) as (s' & Hrun & Hf & Hget).
  - intros q Hq. by apply elem_of_all_cells.
  - by apply same_frame_refl.
  - exists s'. split; [exact Hrun|]. split; [done|]. intros q Hq. rewrite (Hget q Hq).
    case_decide as H1; case_decide as H2; try done.
    + by destruct H1.
    + exfalso. apply H1. split; [|done]. by apply elem_of_all_cells.
Qed.

(** ** Random generation, draw by draw *)

Lemma generate_list self (percent : Z) (l : list coord) :
  NoDup l -> (∀ q, q ∈ l -> in_bounds (gm_rows self) (gm_cols self) q) ->
  ∀ s g, same_frame self s ->
    ∃ s', for_each (fun q : coord => generate_random_cell (inject_Z percent / 100) q.1 q.2)
            l (s, g)
            = (Ret tt, (s', rng_skip (length (filter (fun q => ¬ anchor self q) l)) g)) ∧
          same_frame self s' ∧
          (∀ q, in_bounds (gm_rows self) (gm_cols self) q ->
                q ∉ filter (fun q => ¬ anchor self q) l ->
                cells_get (gm_cells s') q.1 q.2 = cells_get (gm_cells s) q.1 q.2) ∧
          (∀ k q, filter (fun q => ¬ anchor self q) l !! k = Some q ->
                  cells_get (gm_cells s') q.1 q.2 = Some (rolled percent (rng_skip k g))).
Proof.
  induction l as [|a l IH]; intros Hnd Hl s g Hs.
  - exists s. simpl. split_and!; try done.
    f_equal. f_equal. unfold rng_skip. destruct g. simpl. by rewrite Nat.add_0_r.
  - apply NoDup_cons in Hnd as [Ha Hnd].
    assert (∀ q, q ∈ l -> in_bounds (gm_rows self) (gm_cols self) q) as Hl'.
    { intros q Hq. apply Hl. by right. }
    pose proof Hs as (S1 & S2 & S3 & S4 & S5).
    assert (in_bounds (gm_rows self) (gm_cols self) a) as Hab by (apply Hl; by left).
    cbn [for_each]. unfold generate_random_cell at 1. rewrite S3, S4.
    rewrite filter_cons. destruct a as [r c]. simpl.
    destruct (decide ((r, c) = gm_start self)) as [Hst|Hst].
    { rewrite decide_False by (intros Hn; apply Hn; by left).
      apply (IH Hnd Hl' s g Hs). }
    destruct (decide ((r, c) = gm_goal self)) as [Hgl|Hgl].
    { rewrite decide_False by (intros Hn; apply Hn; by right).
      apply (IH Hnd Hl' s g Hs). }
    rewrite decide_True by (by intros [?|?]).
    assert (in_bounds (gm_rows s) (gm_cols s) (r, c)) as Hab' by (by rewrite S1, S2).
    unfold py_random.
    destruct (assign_cell_in_bounds s (r, c) (rolled percent g) S5 Hab')
      as (s1 & Hrun & Hf & Hw).
    assert ((let '(out, self') :=
               if Qlt_le_dec (random_value g) (inject_Z percent / 100)
               then assign_cell r c OBSTACLE s else assign_cell r c EMPTY s in
             (out, (self', rng_next g))) = (Ret tt, (s1, rng_next g))) as ->.
    { unfold rolled in Hrun. simpl in Hrun.
      destruct (Qlt_le_dec (random_value g) (inject_Z percent / 100)); by rewrite Hrun. }
    destruct (IH Hnd Hl' s1 (rng_next g) (same_frame_trans _ _ _ Hs Hf))
      as (s' & Hrun' & Hf' & Hsame & Hroll).
    exists s'. split_and!.
    + rewrite Hrun'. do 2 f_equal. rewrite rng_next_skip, rng_skip_skip. done.
    + done.
    + intros q Hq Hnot. apply not_elem_of_cons in Hnot as [Hne Hnot].
      rewrite (Hsame q Hq Hnot). rewrite (Hw q) by (by rewrite S1, S2).
      by rewrite decide_False.
    + intros [|k] q Hk; simpl in Hk.
      * inversion Hk; subst q. rewrite (Hsame (r, c) Hab).
        -- rewrite (Hw (r, c) Hab'). rewrite decide_True by done. f_equal. f_equal.
           unfold rng_skip. destruct g. simpl. by rewrite Nat.add_0_r.
        -- intros Hin%list_elem_of_filter. by destruct Hin.
      * rewrite (Hroll k q Hk). do 2 f_equal.
        rewrite rng_next_skip, rng_skip_skip. done.
Qed.

(** ** Moving the anchors *)

Lemma move_start_cases self new_row new_col :
  manager_wf self -> in_bounds (gm_rows self) (gm_cols self) (gm_start self) ->
  if decide ((new_row, new_col) = gm_goal self) then
    move_start self new_row new_col = (Ret None, self)
  else if decide (in_range (gm_rows self) new_row ∧ in_range (gm_cols self) new_col) then
    ∃ self', move_start self new_row new_col = (Ret (Some (gm_start self)), self') ∧
      same_shape self self' ∧
      gm_start self' = (new_row, new_col) ∧ gm_goal self' = gm_goal self ∧
      in_bounds (gm_rows self) (gm_cols self) (wrap_cell self (new_row, new_col)) ∧
      cells_moved self (gm_start self) (wrap_cell self (new_row, new_col)) START self'
  else
    ∃ self', move_start self new_row new_col = (Raise IndexError, self') ∧
      same_shape self self' ∧
      gm_start self' = (new_row, new_col) ∧ gm_goal self' = gm_goal self ∧
      cells_written self (gm_start self) EMPTY self'.
Proof.
  intros Hwf Hs. unfold move_start. case_decide as Hg; [done|].
  destruct (assign_cell_in_bounds self (gm_start self) EMPTY Hwf Hs)
    as (s1 & -> & (A1 & A2 & A3 & A4 & A5) & Hw1).
  set (s2 := set_start s1 (new_row, new_col)).
  assert (manager_wf s2) as Hwf2 by done.
  pose proof (assign_cell_cases s2 new_row new_col START Hwf2) as Hc.
  change (gm_rows s2) with (gm_rows s1) in Hc. change (gm_cols s2) with (gm_cols s1) in Hc.
  assert (wrap_cell s2 (new_row, new_col) = wrap_cell self (new_row, new_col)) as Hwrap.
  { unfold wrap_cell. simpl. by rewrite A1, A2. }
  rewrite Hwrap, A1, A2 in Hc. case_decide as Hin.
  - destruct Hc as (s3 & -> & (B1 & B2 & B3 & B4 & B5) & Hb & Hw3).
    exists s3. split; [done|]. simpl in *.
    split; [split_and!; congruence|]. split; [done|]. split; [congruence|].
    split; [done|]. intros q Hq.
    rewrite (Hw3 q) by (simpl; by rewrite A1, A2). case_decide; [done|].
    simpl. by rewrite (Hw1 q Hq).
  - rewrite Hc. exists s2. split; [done|]. simpl.
    split; [by split_and!|]. split; [done|]. split; [done|]. exact Hw1.
Qed.

Lemma move_goal_cases self new_row new_col :
  manager_wf self -> in_bounds (gm_rows self) (gm_cols self) (gm_goal self) ->
  if decide ((new_row, new_col) = gm_start self) then
    move_goal self new_row new_col = (Ret None, self)
  else if decide (in_range (gm_rows self) new_row ∧ in_range (gm_cols self) new_col) then
    ∃ self', move_goal self new_row new_col = (Ret (Some (gm_goal self)), self') ∧
      same_shape self self' ∧
      gm_goal self' = (new_row, new_col) ∧ gm_start self' = gm_start self ∧
      in_bounds (gm_rows self) (gm_cols self) (wrap_cell self (new_row, new_col)) ∧
      cells_moved self (gm_goal self) (wrap_cell self (new_row, new_col)) GOAL self'
  else
    ∃ self', move_goal self new_row new_col = (Raise IndexError, self') ∧
      same_shape self self' ∧
      gm_goal self' = (new_row, new_col) ∧ gm_start self' = gm_start self ∧
      cells_written self (gm_goal self) EMPTY self'.
Proof.
  intros Hwf Hs. unfold move_goal. case_decide as Hg; [done|].
  destruct (assign_cell_in_bounds self (gm_goal self) EMPTY Hwf Hs)
    as (s1 & -> & (A1 & A2 & A3 & A4 & A5) & Hw1).
  set (s2 := set_goal s1 (new_row, new_col)).
  assert (manager_wf s2) as Hwf2 by done.
  pose proof (assign_cell_cases s2 new_row new_col GOAL Hwf2) as Hc.
  change (gm_rows s2) with (gm_rows s1) in Hc. change (gm_cols s2) with (gm_cols s1) in Hc.
  assert (wrap_cell s2 (new_row, new_col) = wrap_cell self (new_row, new_col)) as Hwrap.
  { unfold wrap_cell. simpl. by rewrite A1, A2. }
  rewrite Hwrap, A1, A2 in Hc. case_decide as Hin.
  - destruct Hc as (s3 & -> & (B1 & B2 & B3 & B4 & B5) & Hb & Hw3).
    exists s3. split; [done|]. simpl in *.
    split; [split_and!; congruence|]. split; [done|]. split; [congruence|].
    split; [done|]. intros q Hq.
    rewrite (Hw3 q) by (simpl; by rewrite A1, A2). case_decide; [done|].
    simpl. by rewrite (Hw1 q Hq).
  - rewrite Hc. exists s2. split; [done|]. simpl.
    split; [by split_and!|]. split; [done|]. split; [done|]. exact Hw1.
Qed.

(** ** Construction and resizing *)

Lemma blank_grid_assign rows cols :
  if decide (1 <= rows ∧ 1 <= cols) then
    ∃ s1 s2, assign_cell 0 0 START (blank_grid rows cols) = (Ret tt, s1) ∧
             assign_cell (rows - 1) (cols - 1) GOAL s1 = (Ret tt, s2)
  else assign_cell 0 0 START (blank_grid rows cols) = (Raise IndexError, blank_grid rows cols).
Proof.
  case_decide as Hd.
  - destruct Hd as [Hr Hc].
    assert (manager_wf (blank_grid rows cols)) as Hwf.
    { unfold manager_wf, blank_grid. simpl. apply empty_grid_wf; lia. }
    destruct (assign_cell_in_bounds (blank_grid rows cols) (0, 0) START Hwf)
      as (s1 & Hrun1 & (A1 & A2 & A3 & A4 & A5) & _).
    { unfold in_bounds. simpl. lia. }
    destruct (assign_cell_in_bounds s1 (rows - 1, cols - 1) GOAL A5)
      as (s2 & Hrun2 & _).
    { rewrite A1, A2. unfold in_bounds. simpl. lia. }
    by exists s1, s2.
  - unfold assign_cell, cells_set, blank_grid, _make_empty_grid. simpl.
    rewrite py_index_nonneg, length_replicate by lia.
    destruct (0 <? Z.of_nat (Z.to_nat rows)) eqn:Ea; [|done]. simpl.
    apply Z.ltb_lt in Ea. rewrite lookup_replicate_2 by lia. simpl.
    unfold py_setitem. rewrite py_index_nonneg, length_replicate by lia.
    destruct (0 <? Z.of_nat (Z.to_nat cols)) eqn:Eb; [|done].
    apply Z.ltb_lt in Eb. exfalso. apply Hd. lia.
Qed.

(** ** What never changes *)

Lemma for_each_always {St A : Type} (body : A -> St -> res unit * St)
    (Q : St -> Prop) (R : res unit -> Prop) :
  (∀ x s, Q s -> Q (body x s).2 ∧ R (body x s).1) -> R (Ret tt) ->
  ∀ l s, Q s -> Q (for_each body l s).2 ∧ R (for_each body l s).1.
Proof.
  intros Hbody Hret l. induction l as [|x l IH]; intros s Hs; simpl; [done|].
  destruct (Hbody x s Hs) as [HQ HR]. destruct (body x s) as [[[]| |] s1]; simpl in *.
  - by apply IH.
  - done.
  - done.
Qed.

Lemma same_shape_refl self : manager_wf self -> same_shape self self.
Proof. intros Hwf. by split_and!. Qed.

Lemma same_shape_trans s1 s2 s3 : same_shape s1 s2 -> same_shape s2 s3 -> same_shape s1 s3.
Proof. intros (A1 & A2 & A3) (B1 & B2 & B3). split_and!; [congruence|congruence|done]. Qed.

Lemma same_frame_shape self self' : same_frame self self' -> same_shape self self'.
Proof. intros (A1 & A2 & A3 & A4 & A5). by split_and!. Qed.

Lemma assign_cell_shape self r c v :
  manager_wf self ->
  same_frame self (assign_cell r c v self).2 ∧
  returns_or_index_error (assign_cell r c v self).1.
Proof.
  intros Hwf. pose proof (assign_cell_cases self r c v Hwf) as Hc. case_decide.
  - destruct Hc as (s' & -> & Hf & _). simpl. split; [done|]. left. by eexists.
  - rewrite Hc. simpl. split; [by apply same_frame_refl|by right].
Qed.

Lemma move_start_shape self r c :
  manager_wf self ->
  same_shape self (move_start self r c).2 ∧ returns_or_index_error (move_start self r c).1.
Proof.
  intros Hwf. unfold move_start. case_decide.
  { simpl. split; [by apply same_shape_refl|left; by eexists]. }
  destruct (assign_cell_shape self (gm_start self).1 (gm_start self).2 EMPTY Hwf) as [Hf1 Hr1].
  destruct (assign_cell _ _ EMPTY self) as [[[]| |] s1]; simpl in *.
  - assert (manager_wf (set_start s1 (r, c))) as Hwf2 by (by destruct Hf1 as (_ & _ & _ & _ & ?)).
    destruct (assign_cell_shape (set_start s1 (r, c)) r c START Hwf2) as [Hf2 Hr2].
    apply same_frame_shape in Hf1, Hf2.
    assert (same_shape self (assign_cell r c START (set_start s1 (r, c))).2) as Hsh.
    { eapply same_shape_trans; [exact Hf1|]. exact Hf2. }
    destruct (assign_cell r c START (set_start s1 (r, c))) as [[[]| |] s3]; simpl in *.
    + split; [done|left; by eexists].
    + split; [done|]. destruct Hr2 as [[? [=]]|[= ->]]; by right.
    + destruct Hr2 as [[? [=]]|[=]].
  - split; [by apply same_frame_shape|]. destruct Hr1 as [[? [=]]|[= ->]]; by right.
  - destruct Hr1 as [[? [=]]|[=]].
Qed.

Lemma move_goal_shape self r c :
  manager_wf self ->
  same_shape self (move_goal self r c).2 ∧ returns_or_index_error (move_goal self r c).1.
Proof.
  intros Hwf. unfold move_goal. case_decide.
  { simpl. split; [by apply same_shape_refl|left; by eexists]. }
  destruct (assign_cell_shape self (gm_goal self).1 (gm_goal self).2 EMPTY Hwf) as [Hf1 Hr1].
  destruct (assign_cell _ _ EMPTY self) as [[[]| |] s1]; simpl in *.
  - assert (manager_wf (set_goal s1 (r, c))) as Hwf2 by (by destruct Hf1 as (_ & _ & _ & _ & ?)).
    destruct (assign_cell_shape (set_goal s1 (r, c)) r c GOAL Hwf2) as [Hf2 Hr2].
    apply same_frame_shape in Hf1, Hf2.
    assert (same_shape self (assign_cell r c GOAL (set_goal s1 (r, c))).2) as Hsh.
    { eapply same_shape_trans; [exact Hf1|]. exact Hf2. }
    destruct (assign_cell r c GOAL (set_goal s1 (r, c))) as [[[]| |] s3]; simpl in *.
    + split; [done|left; by eexists].
    + split; [done|]. destruct Hr2 as [[? [=]]|[= ->]]; by right.
    + destruct Hr2 as [[? [=]]|[=]].
  - split; [by apply same_frame_shape|]. destruct Hr1 as [[? [=]]|[= ->]]; by right.
  - destruct Hr1 as [[? [=]]|[=]].
Qed.

(** ** Spawning, case by case *)

Lemma try_spawn_cases self agent_pos current_path spawn_prob g :
  manager_wf self -> 1 <= gm_rows self -> 1 <= gm_cols self ->
  ∃ o b self' g',
    try_spawn_dynamic_obstacle self agent_pos current_path spawn_prob g
      = (Ret (o, b), (self', g')) ∧
    match o with
    | None => b = false ∧ self' = self
    | Some p => b = bool_decide (p ∈ current_path) ∧ marked self p self' ∧
                spawn_free self agent_pos p ∧
                in_bounds (gm_rows self) (gm_cols self) p
    end.
Proof.
  intros Hwf Hr Hc. unfold try_spawn_dynamic_obstacle, py_random.
  destruct (Qlt_le_dec _ _); [by eexists None, false, _, _|].
  pose proof (spawn_attempts_spec self agent_pos current_path Hwf Hr Hc 20%nat (rng_next g))
    as Hspec.
  destruct (list_find _ _) as [[k p]|] eqn:Hfind.
  - destruct Hspec as (self' & -> & Hm).
    apply list_find_Some in Hfind as (Hk & Hfree & _).
    exists (Some p), (bool_decide (p ∈ current_path)), self', (rng_skip (2 * S k) (rng_next g)).
    split; [done|].
    split_and!; try done.
    apply list_lookup_fmap_Some in Hk as (i & -> & _). by apply spawn_pick_in_bounds.
  - rewrite Hspec. by eexists None, false, _, _.
Qed.

Lemma linked_impl_mem (R R' : coord -> coord -> Prop) (l : list coord) (x : coord) :
  (∀ a b, b ∈ l -> R a b -> R' a b) -> linked R (x :: l) -> linked R' (x :: l).
Proof.
  revert x. induction l as [|y l IH]; intros x Himp Hl; [done|].
  destruct Hl as [Hxy Hl]. split; [apply Himp; [by left|done]|].
  apply IH; [|done]. intros a b Hb. apply Himp. by right.
Qed.

(** ** Every operation keeps the shape *)

Lemma outcome_returns {A : Type} (r : res A) :
  returns_or_index_error r -> returns_or_index_error (outcome r).
Proof. intros [[a ->]| ->]; [left; by exists tt|by right]. Qed.

Lemma apply_op_shape op w :
  manager_wf w.1 -> 1 <= gm_rows w.1 -> 1 <= gm_cols w.1 ->
  same_shape w.1 (apply_op op w).2.1 ∧ returns_or_index_error (apply_op op w).1.
Proof.
  destruct w as [self g]. simpl. intros Hwf Hr Hc. destruct op; simpl.
  - pose proof (toggle_obstacle_cases self row col Hwf) as Ht. case_decide.
    + destruct Ht as (x & self' & _ & -> & Hf & _). simpl.
      split; [by apply same_frame_shape|left; by exists tt].
    + rewrite Ht. simpl. split; [by apply same_shape_refl|left; by exists tt].
  - pose proof (place_obstacle_cases self row col Hwf) as Ht. case_decide.
    + destruct Ht as (self' & -> & Hf & _). simpl.
      split; [by apply same_frame_shape|left; by exists tt].
    + rewrite Ht. simpl. split; [by apply same_shape_refl|left; by exists tt].
  - destruct (generate_random_spec self density_percent (fun _ => True) g Hwf)
      as (w' & -> & G1 & G2 & G3 & G4 & G5 & _).
    { intros g0. by destruct (Qlt_le_dec _ _). }
    simpl. split; [|left; by exists tt].
    split_and!; [done|done|]. unfold manager_wf. by rewrite G1, G2.
  - destruct (clear_obstacles_cases self Hwf) as (self' & -> & Hf & _). simpl.
    split; [by apply same_frame_shape|left; by exists tt].
  - destruct (move_start_shape self new_row new_col Hwf) as [Hs Hret].
    destruct (move_start self new_row new_col) as [r s']. simpl in *.
    split; [done|by apply outcome_returns].
  - destruct (move_goal_shape self new_row new_col Hwf) as [Hs Hret].
    destruct (move_goal self new_row new_col) as [r s']. simpl in *.
    split; [done|by apply outcome_returns].
  - destruct (try_spawn_cases self agent_pos current_path spawn_prob g Hwf Hr Hc)
      as (o & b & self' & g' & -> & Ho). simpl.
    split; [|left; by exists tt]. destruct o as [p|].
    + destruct Ho as (_ & (M1 & M2 & M3 & M4 & M5 & _) & _).
      split_and!; [done|done|]. unfold manager_wf. by rewrite M1, M2.
    + destruct Ho as [_ ->]. by apply same_shape_refl.
Qed.

(** ** Only the four states, Start and Goal at the anchors only *)

Lemma toggled_plain x : toggled x = EMPTY ∨ toggled x = OBSTACLE.
Proof. unfold toggled. destruct (x =? OBSTACLE); auto. Qed.

Lemma plain_cells_written self p v self' :
  plain_cells self -> same_frame self self' -> cells_written self p v self' ->
  v = EMPTY ∨ v = OBSTACLE -> plain_cells self'.
Proof.
  intros Hp (F1 & F2 & F3 & F4 & _) Hw Hv q Hq Ha.
  rewrite F1, F2 in Hq. unfold anchor in Ha. rewrite F3, F4 in Ha.
  rewrite (Hw q Hq). case_decide; [destruct Hv as [-> | ->]; auto|]. by apply Hp.
Qed.

Lemma apply_op_plain rows cols op w :
  grid_inv rows cols w.1 -> plain_cells w.1 -> op_in_bounds rows cols op ->
  ∃ w', apply_op op w = (Ret tt, w') ∧ grid_inv rows cols w'.1 ∧ plain_cells w'.1.
Proof.
  intros Hinv Hplain Hb.
  destruct (apply_op_inv rows cols op w Hinv Hb) as (w' & Hrun & Hinv').
  exists w'. split; [done|]. split; [done|].
  destruct w as [self g]. simpl in *.
  pose proof Hinv as [I1 I2 I3 I4 I5 I6 I7 I8]. subst rows cols.
  destruct op; simpl in Hrun.
  - pose proof (toggle_obstacle_cases self row col I3) as Hc. case_decide.
    + destruct Hc as (x & s' & _ & Heq & Hf & Hw). rewrite Heq in Hrun.
      inversion Hrun; subst w'. simpl.
      apply (plain_cells_written self (row, col) (toggled x)); try done. apply toggled_plain.
    + rewrite Hc in Hrun. by inversion Hrun; subst w'.
  - pose proof (place_obstacle_cases self row col I3) as Hc. case_decide.
    + destruct Hc as (s' & Heq & Hf & Hw). rewrite Heq in Hrun.
      inversion Hrun; subst w'. simpl.
      apply (plain_cells_written self (row, col) OBSTACLE); try done. by right.
    + rewrite Hc in Hrun. by inversion Hrun; subst w'.
  - destruct (generate_random_spec self density_percent (fun v => v = OBSTACLE ∨ v = EMPTY) g I3)
      as (w1 & Heq & G1 & G2 & G3 & G4 & G5 & G6 & G7).
    { intros g0. destruct (Qlt_le_dec _ _); auto. }
    rewrite Heq in Hrun. inversion Hrun; subst w'.
    intros q Hq Ha. rewrite G1, G2 in Hq. unfold anchor in Ha. rewrite G3, G4 in Ha.
    destruct (G7 q Hq Ha) as (v & -> & [-> | ->]); [tauto|by right|by left].
  - destruct (clear_obstacles_cases self I3) as (s' & Heq & (F1 & F2 & F3 & F4 & _) & Hget).
    rewrite Heq in Hrun. inversion Hrun; subst w'. simpl.
    intros q Hq Ha. rewrite F1, F2 in Hq. unfold anchor in Ha. rewrite F3, F4 in Ha.
    rewrite (Hget q Hq). case_decide; [by left|by apply Hplain].
  - pose proof (move_start_cases self new_row new_col I3 I4) as Hc. simpl in Hb.
    case_decide as Hg.
    { rewrite Hc in Hrun. by inversion Hrun; subst w'. }
    rewrite decide_True in Hc by (by apply (in_bounds_in_range _ _ (new_row, new_col))).
    destruct Hc as (s' & Heq & (S1 & S2 & S3) & H1 & H2 & _ & Hm).
    rewrite (wrap_cell_in_bounds self _ Hb) in Hm.
    rewrite Heq in Hrun. inversion Hrun; subst w'. simpl.
    intros q Hq Ha. rewrite S1, S2 in Hq. unfold anchor in Ha. rewrite H1, H2 in Ha.
    rewrite (Hm q Hq). rewrite decide_False by tauto.
    case_decide; [by left|]. apply Hplain; [done|]. unfold anchor. tauto.
  - pose proof (move_goal_cases self new_row new_col I3 I5) as Hc. simpl in Hb.
    case_decide as Hg.
    { rewrite Hc in Hrun. by inversion Hrun; subst w'. }
    rewrite decide_True in Hc by (by apply (in_bounds_in_range _ _ (new_row, new_col))).
    destruct Hc as (s' & Heq & (S1 & S2 & S3) & H1 & H2 & _ & Hm).
    rewrite (wrap_cell_in_bounds self _ Hb) in Hm.
    rewrite Heq in Hrun. inversion Hrun; subst w'. simpl.
    intros q Hq Ha. rewrite S1, S2 in Hq. unfold anchor in Ha. rewrite H1, H2 in Ha.
    rewrite (Hm q Hq). rewrite decide_False by tauto.
    case_decide; [by left|]. apply Hplain; [done|]. unfold anchor. tauto.
  - destruct I4 as [Hr Hc].
    destruct (try_spawn_cases self agent_pos current_path spawn_prob g I3)
      as (o & b & s' & g' & Heq & Ho); [lia|lia|].
    rewrite Heq in Hrun. inversion Hrun; subst w'. simpl.
    destruct o as [p|]; [|by destruct Ho as [_ ->]].
    destruct Ho as (_ & (M1 & M2 & M3 & M4 & M5 & Hget) & _).
    intros q Hq Ha. rewrite M1, M2 in Hq. unfold anchor in Ha. rewrite M3, M4 in Ha.
    rewrite (Hget q Hq). case_decide; [by right|by apply Hplain].
Qed.

Lemma GridManager_init_plain rows cols self :
  GridManager_init rows cols = Ret self -> plain_cells self.
Proof.
  intros Hinit.
  destruct (GridManager_init_spec _ _ _ Hinit) as (_ & _ & _ & E1 & E2 & E3 & E4 & Hget).
  intros q Hq Ha. rewrite E1, E2 in Hq. unfold anchor in Ha. rewrite E3, E4 in Ha.
  rewrite (Hget q Hq). rewrite !decide_False by tauto. by left.
Qed.
(** * More on the grid manager: the properties *)

(** X10: the constructor succeeds exactly when both dimensions are at least
    1, and otherwise raises IndexError; the grid it builds has the start at
    (0, 0), the goal in the last cell, Goal in the goal cell, Start in the
    start cell unless that is the goal cell too, and Empty elsewhere. *)
Theorem GridManager_init_cases (rows cols : Z) :
  match GridManager_init rows cols with
  | Ret self =>
      1 <= rows ∧ 1 <= cols ∧ manager_wf self ∧
      gm_rows self = rows ∧ gm_cols self = cols ∧
      gm_start self = (0, 0) ∧ gm_goal self = (rows - 1, cols - 1) ∧
      ∀ q, in_bounds rows cols q ->
           cells_get (gm_cells self) q.1 q.2 =
             if decide (q = (rows - 1, cols - 1)) then Some GOAL
             else if decide (q = (0, 0)) then Some START else Some EMPTY
  | Raise e => e = IndexError ∧ (rows < 1 ∨ cols < 1)
  | OutOfFuel => False
  end.
Proof.
  destruct (GridManager_init rows cols) as [self|e|] eqn:Hinit.
  - by apply GridManager_init_spec.
  - pose proof (blank_grid_assign rows cols) as Ha. unfold GridManager_init in Hinit.
    change {| gm_rows := rows; gm_cols := cols; gm_start := (0, 0);
              gm_goal := (rows - 1, cols - 1);
              gm_cells := _make_empty_grid rows cols |} with (blank_grid rows cols) in Hinit.
    case_decide as Hd.
    + destruct Ha as (s1 & s2 & H1 & H2). by rewrite H1, H2 in Hinit.
    + rewrite Ha in Hinit. inversion Hinit. split; [done|lia].
  - pose proof (blank_grid_assign rows cols) as Ha. unfold GridManager_init in Hinit.
    change {| gm_rows := rows; gm_cols := cols; gm_start := (0, 0);
              gm_goal := (rows - 1, cols - 1);
              gm_cells := _make_empty_grid rows cols |} with (blank_grid rows cols) in Hinit.
    case_decide as Hd.
    + destruct Ha as (s1 & s2 & H1 & H2). by rewrite H1, H2 in Hinit.
    + by rewrite Ha in Hinit.
Qed.

(** X11: [resize] forgets the old grid: when the constructor succeeds for the
    new dimensions, the manager becomes the grid the constructor builds;
    otherwise [resize] raises IndexError and leaves the manager with the new
    dimensions and an all-Empty cell list without Start and Goal. *)
Theorem resize_like_constructor (self : GridManager) (new_rows new_cols : Z) :
  match GridManager_init new_rows new_cols with
  | Ret fresh => resize self new_rows new_cols = (Ret tt, fresh)
  | _ => resize self new_rows new_cols = (Raise IndexError, blank_grid new_rows new_cols) ∧
         (new_rows < 1 ∨ new_cols < 1)
  end.
Proof.
  pose proof (blank_grid_assign new_rows new_cols) as Ha.
  unfold GridManager_init, resize.
  change {| gm_rows := new_rows; gm_cols := new_cols; gm_start := (0, 0);
            gm_goal := (new_rows - 1, new_cols - 1);
            gm_cells := _make_empty_grid new_rows new_cols |}
    with (blank_grid new_rows new_cols).
  case_decide as Hd.
  - destruct Ha as (s1 & s2 & H1 & H2). by rewrite H1, H2.
  - rewrite Ha. split; [done|lia].
Qed.

(** X12: on a rectangular grid [toggle_obstacle] never raises.  For a cell of
    the grid that is neither the start nor the goal it turns an Obstacle into
    Empty and any other state into an Obstacle, returns the new state, which
    [get_cell] then reads back, and leaves every other cell and the anchors
    as they were; for any other coordinates it returns None and changes
    nothing. *)
Theorem toggle_obstacle_spec (self : GridManager) (row col : Z) :
  manager_wf self ->
  if decide (editable self (row, col)) then
    ∃ x self', cells_get (gm_cells self) row col = Some x ∧
      toggle_obstacle self row col = (Ret (Some (toggled x)), self') ∧
      same_frame self self' ∧ cells_written self (row, col) (toggled x) self' ∧
      get_cell self' row col = Ret (toggled x)
  else toggle_obstacle self row col = (Ret None, self).
Proof.
  intros Hwf. pose proof (toggle_obstacle_cases self row col Hwf) as Hc.
  case_decide as He; [|done].
  destruct Hc as (x & self' & Hx & Hrun & Hf & Hw). exists x, self'. split_and!; try done.
  unfold get_cell. destruct He as [Hb _].
  pose proof (cells_written_get self (row, col) _ self' Hw Hb) as Hget. simpl in Hget.
  by rewrite Hget.
Qed.

Lemma toggle_obstacle_spec_witness :
  ∃ x self', cells_get (gm_cells dotted_3x3) 0 1 = Some x ∧
    toggle_obstacle dotted_3x3 0 1 = (Ret (Some (toggled x)), self') ∧
    same_frame dotted_3x3 self' ∧ cells_written dotted_3x3 (0, 1) (toggled x) self' ∧
    get_cell self' 0 1 = Ret (toggled x).
Proof.
  assert (manager_wf dotted_3x3) as Hwf by (split; [reflexivity|repeat constructor]).
  exact (toggle_obstacle_spec dotted_3x3 0 1 Hwf).
Defined.

(** X13: toggling an editable cell that is Empty or an Obstacle twice gives
    back the grid as it was. *)
Theorem toggle_obstacle_twice (self : GridManager) (row col x : Z) :
  manager_wf self -> editable self (row, col) ->
  cells_get (gm_cells self) row col = Some x -> x = EMPTY ∨ x = OBSTACLE ->
  ∃ self', toggle_obstacle self row col = (Ret (Some (toggled x)), self') ∧
           toggle_obstacle self' row col = (Ret (Some x), self).
Proof.
  intros Hwf He Hx Hval.
  pose proof (toggle_obstacle_cases self row col Hwf) as Hc.
  rewrite decide_True in Hc by done.
  destruct Hc as (x0 & self' & Hx0 & Hrun & Hf & Hw).
  rewrite Hx in Hx0. inversion Hx0; subst x0.
  exists self'. split; [done|].
  pose proof Hf as (F1 & F2 & F3 & F4 & F5).
  pose proof (toggle_obstacle_cases self' row col F5) as Hc'.
  rewrite decide_True in Hc'.
  2:{ unfold editable. rewrite F1, F2, F3, F4. exact He. }
  destruct Hc' as (x1 & self'' & Hx1 & Hrun' & Hf' & Hw').
  destruct He as (Hb & _).
  pose proof (cells_written_get self (row, col) _ self' Hw Hb) as Hget. simpl in Hget.
  rewrite Hget in Hx1. inversion Hx1; subst x1.
  assert (toggled (toggled x) = x) as Htt by (by destruct Hval as [-> | ->]).
  rewrite Htt in *. rewrite Hrun'. f_equal.
  apply manager_ext; [done|by eapply same_frame_trans|].
  intros q Hq. rewrite (Hw' q) by (by rewrite F1, F2). rewrite (Hw q Hq).
  case_decide as Hqp; [|done]. subst q. simpl. by rewrite Hx.
Qed.

Lemma toggle_obstacle_twice_witness :
  ∃ self', toggle_obstacle dotted_3x3 0 1 = (Ret (Some (toggled OBSTACLE)), self') ∧
           toggle_obstacle self' 0 1 = (Ret (Some OBSTACLE), dotted_3x3).
Proof.
  apply (toggle_obstacle_twice dotted_3x3 0 1 OBSTACLE).
  - split; [reflexivity|repeat constructor].
  - unfold editable, in_bounds. simpl. split_and!; [lia|lia|lia|lia|done|done].
  - reflexivity.
  - by right.
Defined.

(** X14: on a rectangular grid [place_obstacle] never raises.  It returns
    True exactly for a cell of the grid that is neither the start nor the
    goal and is not yet an Obstacle; the cell is then an Obstacle, as
    [is_obstacle] reads back, nothing else has changed, and placing again
    returns False and changes nothing.  Otherwise it returns False and
    changes nothing. *)
Theorem place_obstacle_spec (self : GridManager) (row col : Z) :
  manager_wf self ->
  if decide (editable self (row, col) ∧ cells_get (gm_cells self) row col ≠ Some OBSTACLE) then
    ∃ self', place_obstacle self row col = (Ret true, self') ∧
      same_frame self self' ∧ cells_written self (row, col) OBSTACLE self' ∧
      is_obstacle self' row col = Ret true ∧
      place_obstacle self' row col = (Ret false, self')
  else place_obstacle self row col = (Ret false, self).
Proof.
  intros Hwf. pose proof (place_obstacle_cases self row col Hwf) as Hc.
  case_decide as He; [|done].
  destruct Hc as (self' & Hrun & Hf & Hw). exists self'.
  destruct He as [[Hb He] _].
  pose proof (cells_written_get self (row, col) _ self' Hw Hb) as Hget. simpl in Hget.
  split_and!; try done.
  - unfold is_obstacle. by rewrite Hget.
  - pose proof Hf as (F1 & F2 & F3 & F4 & F5).
    pose proof (place_obstacle_cases self' row col F5) as Hc'.
    rewrite decide_False in Hc'; [done|]. intros [_ Hno]. by apply Hno.
Qed.

Lemma place_obstacle_spec_witness :
  ∃ self', place_obstacle dotted_3x3 1 1 = (Ret true, self') ∧
    same_frame dotted_3x3 self' ∧ cells_written dotted_3x3 (1, 1) OBSTACLE self' ∧
    is_obstacle self' 1 1 = Ret true ∧
    place_obstacle self' 1 1 = (Ret false, self').
Proof.
  assert (manager_wf dotted_3x3) as Hwf by (split; [reflexivity|repeat constructor]).
  exact (place_obstacle_spec dotted_3x3 1 1 Hwf).
Defined.

(** X15: on a rectangular grid [clear_obstacles] returns, turns every
    Obstacle of the grid into Empty and leaves every other cell and the
    anchors as they were, so no cell holds an Obstacle afterwards, and a
    second call changes nothing. *)
Theorem clear_obstacles_spec (self : GridManager) :
  manager_wf self ->
  ∃ self', clear_obstacles self = (Ret tt, self') ∧ same_frame self self' ∧
    (∀ q, in_bounds (gm_rows self) (gm_cols self) q ->
          cells_get (gm_cells self') q.1 q.2 =
            if decide (cells_get (gm_cells self) q.1 q.2 = Some OBSTACLE)
            then Some EMPTY else cells_get (gm_cells self) q.1 q.2) ∧
    cells_holding self' OBSTACLE = [] ∧
    clear_obstacles self' = (Ret tt, self').
Proof.
  intros Hwf.
  destruct (clear_obstacles_cases self Hwf) as (self' & Hrun & Hf & Hget).
  exists self'. split_and!; try done.
  - pose proof Hf as (F1 & F2 & _). unfold cells_holding. apply filter_none.
    intros q Hq. rewrite F1, F2 in Hq. apply elem_of_all_cells in Hq.
    rewrite (Hget q Hq). by case_decide.
  - pose proof Hf as (F1 & F2 & F3 & F4 & F5).
    destruct (clear_obstacles_cases self' F5) as (self'' & Hrun' & Hf' & Hget').
    rewrite Hrun'. f_equal. apply manager_ext; [done|done|].
    intros q Hq. rewrite (Hget' q Hq). case_decide as Ho; [|done].
    rewrite F1, F2 in Hq. rewrite (Hget q Hq) in Ho. by case_decide.
Qed.

Lemma clear_obstacles_spec_witness :
  ∃ self', clear_obstacles dotted_3x3 = (Ret tt, self') ∧ same_frame dotted_3x3 self' ∧
    (∀ q, in_bounds (gm_rows dotted_3x3) (gm_cols dotted_3x3) q ->
          cells_get (gm_cells self') q.1 q.2 =
            if decide (cells_get (gm_cells dotted_3x3) q.1 q.2 = Some OBSTACLE)
            then Some EMPTY else cells_get (gm_cells dotted_3x3) q.1 q.2) ∧
    cells_holding self' OBSTACLE = [] ∧
    clear_obstacles self' = (Ret tt, self').
Proof.
  apply (clear_obstacles_spec dotted_3x3).
  split; [reflexivity|repeat constructor].
Defined.

(** X16: [move_start] on a rectangular grid whose start lies in the grid.  A
    move onto the goal returns None and changes nothing.  For any other
    target whose row and column are valid Python indices the start cell
    becomes Empty and the target cell Start, whatever it held, the stored
    start becomes the coordinates as given (negative ones count from the
    end and are stored as given), the old start is returned and [get_cell]
    reads Start at the target.  For any other target the call raises
    IndexError after the start cell was made Empty and the stored start
    replaced. *)
Theorem move_start_spec (self : GridManager) (new_row new_col : Z) :
  manager_wf self -> in_bounds (gm_rows self) (gm_cols self) (gm_start self) ->
  if decide ((new_row, new_col) = gm_goal self) then
    move_start self new_row new_col = (Ret None, self)
  else if decide (in_range (gm_rows self) new_row ∧ in_range (gm_cols self) new_col) then
    ∃ self', move_start self new_row new_col = (Ret (Some (gm_start self)), self') ∧
      same_shape self self' ∧
      gm_start self' = (new_row, new_col) ∧ gm_goal self' = gm_goal self ∧
      cells_moved self (gm_start self) (wrap_cell self (new_row, new_col)) START self' ∧
      get_cell self' new_row new_col = Ret START
  else
    ∃ self', move_start self new_row new_col = (Raise IndexError, self') ∧
      same_shape self self' ∧
      gm_start self' = (new_row, new_col) ∧ gm_goal self' = gm_goal self ∧
      cells_written self (gm_start self) EMPTY self'.
Proof.
  intros Hwf Hs. pose proof (move_start_cases self new_row new_col Hwf Hs) as Hc.
  case_decide as Hg; [done|]. case_decide as Hin; [|done].
  destruct Hc as (self' & Hrun & Hsh & H1 & H2 & Hb & Hm).
  exists self'. split_and!; try done.
  destruct Hsh as (S1 & S2 & S3). destruct Hin as [Hr Hc].
  unfold get_cell. rewrite (cells_get_wrap _ _ _ new_row new_col S3) by (by rewrite ?S1, ?S2).
  rewrite S1, S2. specialize (Hm _ Hb). simpl in Hm. rewrite Hm.
  by rewrite decide_True.
Qed.

Lemma move_start_spec_witness :
  ∃ self', move_start dotted_3x3 0 1 = (Ret (Some (gm_start dotted_3x3)), self') ∧
    same_shape dotted_3x3 self' ∧
    gm_start self' = (0, 1) ∧ gm_goal self' = gm_goal dotted_3x3 ∧
    cells_moved dotted_3x3 (gm_start dotted_3x3) (wrap_cell dotted_3x3 (0, 1)) START self' ∧
    get_cell self' 0 1 = Ret START.
Proof.
  assert (manager_wf dotted_3x3) as Hwf by (split; [reflexivity|repeat constructor]).
  assert (in_bounds (gm_rows dotted_3x3) (gm_cols dotted_3x3) (gm_start dotted_3x3)) as Hs.
  { unfold in_bounds. simpl. lia. }
  exact (move_start_spec dotted_3x3 0 1 Hwf Hs).
Defined.

(** X17: [move_goal] on a rectangular grid whose goal lies in the grid: as
    [move_start], with the goal in place of the start.  A move onto the start
    returns None; a target with valid Python indices gets Goal, the old goal
    cell Empty; any other target raises IndexError after the goal cell was
    made Empty and the stored goal replaced. *)
Theorem move_goal_spec (self : GridManager) (new_row new_col : Z) :
  manager_wf self -> in_bounds (gm_rows self) (gm_cols self) (gm_goal self) ->
  if decide ((new_row, new_col) = gm_start self) then
    move_goal self new_row new_col = (Ret None, self)
  else if decide (in_range (gm_rows self) new_row ∧ in_range (gm_cols self) new_col) then
    ∃ self', move_goal self new_row new_col = (Ret (Some (gm_goal self)), self') ∧
      same_shape self self' ∧
      gm_goal self' = (new_row, new_col) ∧ gm_start self' = gm_start self ∧
      cells_moved self (gm_goal self) (wrap_cell self (new_row, new_col)) GOAL self' ∧
      get_cell self' new_row new_col = Ret GOAL
  else
    ∃ self', move_goal self new_row new_col = (Raise IndexError, self') ∧
      same_shape self self' ∧
      gm_goal self' = (new_row, new_col) ∧ gm_start self' = gm_start self ∧
      cells_written self (gm_goal self) EMPTY self'.
Proof.
  intros Hwf Hs. pose proof (move_goal_cases self new_row new_col Hwf Hs) as Hc.
  case_decide as Hg; [done|]. case_decide as Hin; [|done].
  destruct Hc as (self' & Hrun & Hsh & H1 & H2 & Hb & Hm).
  exists self'. split_and!; try done.
  destruct Hsh as (S1 & S2 & S3). destruct Hin as [Hr Hc].
  unfold get_cell. rewrite (cells_get_wrap _ _ _ new_row new_col S3) by (by rewrite ?S1, ?S2).
  rewrite S1, S2. specialize (Hm _ Hb). simpl in Hm. rewrite Hm.
  by rewrite decide_True.
Qed.

Lemma move_goal_spec_witness :
  ∃ self', move_goal dotted_3x3 3 0 = (Raise IndexError, self') ∧
    same_shape dotted_3x3 self' ∧
    gm_goal self' = (3, 0) ∧ gm_start self' = gm_start dotted_3x3 ∧
    cells_written dotted_3x3 (gm_goal dotted_3x3) EMPTY self'.
Proof.
  assert (manager_wf dotted_3x3) as Hwf by (split; [reflexivity|repeat constructor]).
  assert (in_bounds (gm_rows dotted_3x3) (gm_cols dotted_3x3) (gm_goal dotted_3x3)) as Hs.
  { unfold in_bounds. simpl. lia. }
  exact (move_goal_spec dotted_3x3 3 0 Hwf Hs).
Defined.

(** X18: on a grid whose anchors lie apart in their own cells, moving the
    start to an Empty cell and back gives the grid as it was. *)
Theorem move_start_round_trip (rows cols : Z) (self : GridManager) (new_row new_col : Z) :
  grid_inv rows cols self -> in_bounds rows cols (new_row, new_col) ->
  (new_row, new_col) ≠ gm_start self ->
  cells_get (gm_cells self) new_row new_col = Some EMPTY ->
  ∃ self',
    move_start self new_row new_col = (Ret (Some (gm_start self)), self') ∧
    move_start self' (gm_start self).1 (gm_start self).2 = (Ret (Some (new_row, new_col)), self).
Proof.
  intros [I1 I2 I3 I4 I5 I6 I7 I8] Hb Hns Hempty. subst rows cols.
  assert ((new_row, new_col) ≠ gm_goal self) as Hng.
  { intros Heq. pose proof (proj2 (I8 _ Hb) Heq) as Hg. simpl in Hg.
    rewrite Hempty in Hg. inversion Hg. }
  pose proof (move_start_cases self new_row new_col I3 I4) as Hc.
  rewrite decide_False in Hc by done.
  rewrite decide_True in Hc by (by apply (in_bounds_in_range _ _ (new_row, new_col))).
  destruct Hc as (self' & Hrun & (S1 & S2 & S3) & H1 & H2 & _ & Hm).
  rewrite (wrap_cell_in_bounds self _ Hb) in Hm.
  exists self'. split; [done|].
  destruct (gm_start self) as [sr sc] eqn:Hstart. simpl.
  pose proof (move_start_cases self' sr sc S3) as Hc'.
  rewrite H1, H2, S1, S2 in Hc'. specialize (Hc' Hb).
  rewrite decide_False in Hc' by done.
  rewrite decide_True in Hc' by (by apply (in_bounds_in_range _ _ (sr, sc))).
  destruct Hc' as (self'' & Hrun' & (T1 & T2 & T3) & K1 & K2 & _ & Hm').
  rewrite Hrun'. f_equal.
  assert (wrap_cell self' (sr, sc) = (sr, sc)) as Hwrap.
  { apply wrap_cell_in_bounds. by rewrite S1, S2. }
  rewrite Hwrap in Hm'.
  apply manager_ext; [done| |].
  - split_and!; try congruence.
  - intros q Hq. rewrite (Hm' q) by (by rewrite S1, S2). rewrite (Hm q Hq).
    destruct (decide (q = (sr, sc))) as [->|Hq1].
    + symmetry. by apply (I7 _ I4).
    + destruct (decide (q = (new_row, new_col))) as [->|Hq2]; [simpl; by rewrite Hempty|done].
Qed.

Lemma move_start_round_trip_witness :
  ∃ self',
    move_start fresh_3x3 1 1 = (Ret (Some (gm_start fresh_3x3)), self') ∧
    move_start self' (gm_start fresh_3x3).1 (gm_start fresh_3x3).2
      = (Ret (Some (1, 1)), fresh_3x3).
Proof.
  apply (move_start_round_trip 3 3 fresh_3x3 1 1).
  - apply (GridManager_init_inv 3 3 fresh_3x3); [reflexivity|lia].
  - unfold in_bounds. simpl. lia.
  - done.
  - reflexivity.
Defined.

(** X19: on a rectangular grid, with a density that has a float,
    [generate_random] returns and takes exactly one draw for each cell of the
    grid that is neither the start nor the goal, row by row; the cells at the
    anchors stay as they were.  The cell that gets the [k]-th draw holds
    Obstacle or Empty afterwards, whatever it held: Empty when the draw is at
    least [density_percent / 100], and Obstacle when even the next value a
    draw can take is at most [density_percent / 100] (the one value between
    the two depends on how the float density is rounded). *)
Theorem generate_random_draw_by_draw (self : GridManager) (density_percent : Z)
    (g : rng_state) :
  manager_wf self -> density_fits density_percent ->
  ∃ self', generate_random self density_percent g
             = (Ret tt, (self', rng_skip (length (free_cells self)) g)) ∧
           same_frame self self' ∧
           (∀ q, in_bounds (gm_rows self) (gm_cols self) q -> anchor self q ->
                 cells_get (gm_cells self') q.1 q.2 = cells_get (gm_cells self) q.1 q.2) ∧
           (∀ k q, free_cells self !! k = Some q ->
                   ∃ x, cells_get (gm_cells self') q.1 q.2 = Some x ∧
                        (x = OBSTACLE ∨ x = EMPTY) ∧
                        ((inject_Z density_percent / 100
                            <= random_value (rng_skip k g))%Q -> x = EMPTY) ∧
                        ((random_value (rng_skip k g) + draw_step
                            <= inject_Z density_percent / 100)%Q -> x = OBSTACLE)).
Proof.
  intros Hwf _. unfold generate_random.
  rewrite (for_each_nested
             (fun r c => generate_random_cell (inject_Z density_percent / 100) r c)).
  destruct (generate_list self density_percent (grid_coords (gm_rows self) (gm_cols self)))
    with (s := self) (g := g) as (s' & Hrun & Hf & Hsame & Hroll).
  - apply NoDup_grid_coords.
  - intros q Hq. by apply elem_of_all_cells.
  - by apply same_frame_refl.
  - exists s'. split; [exact Hrun|]. split; [done|]. split.
    + intros q Hq Ha. apply (Hsame q Hq). intros Hin%list_elem_of_filter. by destruct Hin.
    + intros k q Hk. exists (rolled density_percent (rng_skip k g)).
      split; [by apply Hroll|]. unfold rolled.
      destruct (Qlt_le_dec (random_value (rng_skip k g)) (inject_Z density_percent / 100))
        as [Hlt|Hle].
      * split; [by left|]. split; [|done].
        intros Hge. by apply Qle_not_lt in Hge.
      * split; [by right|]. split; [done|].
        intros Hstep. exfalso. apply (Qle_not_lt _ _ Hle).
        eapply Qlt_le_trans; [|exact Hstep].
        rewrite <- (Qplus_0_r (random_value (rng_skip k g))) at 1.
        apply Qplus_lt_r. reflexivity.
Qed.

Lemma generate_random_draw_by_draw_witness :
  ∃ self', generate_random dotted_3x3 30 sample_rng
             = (Ret tt, (self', rng_skip (length (free_cells dotted_3x3)) sample_rng)) ∧
           same_frame dotted_3x3 self' ∧
           (∀ q, in_bounds (gm_rows dotted_3x3) (gm_cols dotted_3x3) q -> anchor dotted_3x3 q ->
                 cells_get (gm_cells self') q.1 q.2 = cells_get (gm_cells dotted_3x3) q.1 q.2) ∧
           (∀ k q, free_cells dotted_3x3 !! k = Some q ->
                   ∃ x, cells_get (gm_cells self') q.1 q.2 = Some x ∧
                        (x = OBSTACLE ∨ x = EMPTY) ∧
                        ((inject_Z 30 / 100 <= random_value (rng_skip k sample_rng))%Q
                           -> x = EMPTY) ∧
                        ((random_value (rng_skip k sample_rng) + draw_step
                            <= inject_Z 30 / 100)%Q -> x = OBSTACLE)).
Proof.
  apply (generate_random_draw_by_draw dotted_3x3 30 sample_rng).
  - split; [reflexivity|repeat constructor].
  - reflexivity.
Defined.

(** X20: whatever sequence of operations is called on a constructed grid,
    also with coordinates outside the grid, and with densities that have a
    float, the grid keeps its dimensions and its rectangular shape, and the
    only exception the sequence can end in is IndexError. *)
Theorem run_ops_keeps_shape (rows cols : Z) (self : GridManager) (ops : list grid_op)
    (g : rng_state) :
  GridManager_init rows cols = Ret self ->
  Forall op_density_fits ops ->
  same_shape self (run_ops ops (self, g)).2.1 ∧
  returns_or_index_error (run_ops ops (self, g)).1.
Proof.
  intros Hinit _.
  destruct (GridManager_init_spec rows cols self Hinit) as (Hr & Hc & Hwf & E1 & E2 & _).
  unfold run_ops.
  apply (for_each_always apply_op (fun w => same_shape self w.1) returns_or_index_error).
  - intros op w (S1 & S2 & S3).
    destruct (apply_op_shape op w S3) as [Hs Hret]; [rewrite S1; lia|rewrite S2; lia|].
    split; [|done]. by apply (same_shape_trans self w.1).
  - left. by exists tt.
  - by apply same_shape_refl.
Qed.

Lemma run_ops_keeps_shape_witness :
  same_shape fresh_3x3
    (run_ops [OpToggle 1 1; OpGenerate 30; OpMoveStart 3 0; OpClear]
       (fresh_3x3, sample_rng)).2.1 ∧
  returns_or_index_error
    (run_ops [OpToggle 1 1; OpGenerate 30; OpMoveStart 3 0; OpClear]
       (fresh_3x3, sample_rng)).1.
Proof.
  apply (run_ops_keeps_shape 3 3 fresh_3x3).
  - reflexivity.
  - repeat constructor.
Defined.

(** X21: when [try_spawn_dynamic_obstacle] reports that the path is not
    blocked, every step of the remaining path, from the agent's position on,
    is still a step on the grid as the call leaves it: the caller may keep
    its path without searching again. *)
Theorem unblocked_path_stays_valid (self : GridManager) (agent_pos : coord)
    (remaining_path : list coord) (spawn_prob : Q) (g : rng_state)
    (spawned : option coord) (self' : GridManager) (g' : rng_state) :
  manager_wf self -> 1 <= gm_rows self -> 1 <= gm_cols self ->
  try_spawn_dynamic_obstacle self agent_pos remaining_path spawn_prob g
    = (Ret (spawned, false), (self', g')) ->
  linked (edge (gm_cells self) (gm_rows self) (gm_cols self)) (agent_pos :: remaining_path) ->
  linked (edge (gm_cells self') (gm_rows self') (gm_cols self')) (agent_pos :: remaining_path).
Proof.
  intros Hwf Hr Hc Hrun Hlink.
  destruct (try_spawn_cases self agent_pos remaining_path spawn_prob g Hwf Hr Hc)
    as (o & b & s1 & g1 & Hrun1 & Ho).
  rewrite Hrun in Hrun1. inversion Hrun1; subst o b s1 g1.
  destruct spawned as [p|]; [|by destruct Ho as [_ ->]].
  destruct Ho as (Hb & (M1 & M2 & M3 & M4 & M5 & Hget) & _ & _).
  rewrite M1, M2. symmetry in Hb. apply bool_decide_eq_false in Hb.
  apply (linked_impl_mem (edge (gm_cells self) (gm_rows self) (gm_cols self))); [|done].
  intros u v Hv [Hadj (Hin & x & Hx & Hne)]. split; [done|]. split; [done|].
  exists x. split; [|done]. rewrite (Hget v Hin). rewrite decide_False; [done|].
  intros ->. done.
Qed.

Lemma unblocked_path_stays_valid_witness :
  linked (edge (gm_cells (try_spawn_dynamic_obstacle fresh_3x3 (0, 0) [(0, 1); (0, 2)] (1 # 2)
                            sample_rng).2.1) 3 3) ((0, 0) :: [(0, 1); (0, 2)]).
Proof.
  assert (manager_wf fresh_3x3) as Hwf by (split; [reflexivity|repeat constructor]).
  assert (1 <= gm_rows fresh_3x3) as Hr by (simpl; lia).
  assert (1 <= gm_cols fresh_3x3) as Hc by (simpl; lia).
  refine (unblocked_path_stays_valid fresh_3x3 (0, 0) [(0, 1); (0, 2)] (1 # 2) sample_rng
            (Some (2, 1)) _ _ Hwf Hr Hc _ _).
  - vm_compute. reflexivity.
  - unfold fresh_3x3, edge, adjacent4, walkable, in_bounds. simpl.
    split_and!; try lia; by eexists.
Defined.

(** X22: a path that [run_algorithm] returns on the grid after
    [try_spawn_dynamic_obstacle] has spawned an obstacle, searched from the
    agent's position, leads from the agent to the goal and does not pass
    through the spawned cell. *)
Theorem replanned_path_avoids_spawn (self : GridManager) (agent_pos : coord)
    (remaining_path : list coord) (spawn_prob : Q) (g : rng_state)
    (p : coord) (blocked : bool) (self' : GridManager) (g' : rng_state)
    (algo_name : string) (h : coord -> coord -> Z)
    (new_path vis : list coord) (fr : list (gset coord)) :
  manager_wf self -> 1 <= gm_rows self -> 1 <= gm_cols self ->
  try_spawn_dynamic_obstacle self agent_pos remaining_path spawn_prob g
    = (Ret (Some p, blocked), (self', g')) ->
  run_algorithm algo_name (gm_cells self') agent_pos (gm_goal self')
    (gm_rows self') (gm_cols self') h = Ret (Some new_path, vis, fr) ->
  is_path (gm_cells self') (gm_rows self') (gm_cols self') agent_pos (gm_goal self') new_path ∧
  p ∉ new_path.
Proof.
  intros Hwf Hr Hc Hrun Hsearch.
  destruct (try_spawn_cases self agent_pos remaining_path spawn_prob g Hwf Hr Hc)
    as (o & b & s1 & g1 & Hrun1 & Ho).
  rewrite Hrun in Hrun1. inversion Hrun1; subst o b s1 g1.
  destruct Ho as (_ & (M1 & M2 & M3 & M4 & M5 & Hget) & (_ & _ & Hpa & _) & Hpb).
  assert (is_path (gm_cells self') (gm_rows self') (gm_cols self') agent_pos (gm_goal self')
            new_path) as Hpath.
  { unfold run_algorithm in Hsearch. destruct (String.eqb algo_name "A*").
    - by destruct (astar_result _ _ _ _ _ _ _ _ _ Hsearch) as [_ [Hp _]].
    - by destruct (greedy_result _ _ _ _ _ _ _ _ _ Hsearch) as [_ [Hp _]]. }
  split; [done|]. intros Hin.
  destruct (is_path_shape _ _ _ _ _ _ Hpath) as (_ & _ & _ & Hcells).
  destruct (Hcells p Hin) as [->|(_ & x & Hx & Hne)]; [done|].
  rewrite (Hget p Hpb), decide_True in Hx by done. inversion Hx. by subst x.
Qed.

Lemma replanned_path_avoids_spawn_witness :
  is_path (gm_cells (try_spawn_dynamic_obstacle fresh_3x3 (1, 1) [(2, 1); (2, 2)] (1 # 2)
                       sample_rng).2.1) 3 3 (1, 1) (2, 2) [(1, 1); (1, 2); (2, 2)] ∧
  (2, 1) ∉ [(1, 1); (1, 2); (2, 2)].
Proof.
  assert (manager_wf fresh_3x3) as Hwf by (split; [reflexivity|repeat constructor]).
  assert (1 <= gm_rows fresh_3x3) as Hr by (simpl; lia).
  assert (1 <= gm_cols fresh_3x3) as Hc by (simpl; lia).
  refine (replanned_path_avoids_spawn fresh_3x3 (1, 1) [(2, 1); (2, 2)] (1 # 2) sample_rng
            (2, 1) true _ _ "A*" manhattan_distance [(1, 1); (1, 2); (2, 2)] _ _
            Hwf Hr Hc _ _).
  - vm_compute. reflexivity.
  - vm_compute. reflexivity.
Defined.

(** X23: on a rectangular grid [get_cell] and [is_obstacle] read the cell
    that the row and column stand for as Python list indices, negative ones
    counting from the end, and raise IndexError for indices outside
    [-rows, rows) or [-cols, cols). *)
Theorem get_cell_spec (self : GridManager) (row col : Z) :
  manager_wf self ->
  if decide (in_range (gm_rows self) row ∧ in_range (gm_cols self) col) then
    ∃ x, in_bounds (gm_rows self) (gm_cols self) (wrap_cell self (row, col)) ∧
         (gm_cells self !! Z.to_nat (wrap_index (gm_rows self) row)) ≫=
           (fun cells_row => cells_row !! Z.to_nat (wrap_index (gm_cols self) col)) = Some x ∧
         get_cell self row col = Ret x ∧
         is_obstacle self row col = Ret (x =? OBSTACLE)
  else get_cell self row col = Raise IndexError ∧
       is_obstacle self row col = Raise IndexError.
Proof.
  intros Hwf. unfold get_cell, is_obstacle. case_decide as Hin.
  - destruct Hin as [Hr Hc].
    destruct (cells_set_wrap (gm_cells self) _ _ row col EMPTY Hwf Hr Hc) as [_ Hb].
    rewrite (cells_get_wrap _ _ _ row col Hwf Hr Hc).
    destruct (cells_get_in_bounds _ _ _ _ Hwf Hb) as [x Hx]. simpl in Hx.
    exists x. rewrite Hx. split_and!; try done.
    destruct Hb as [Hb1 Hb2]. simpl in Hb1, Hb2.
    by rewrite <- cells_get_nonneg by lia.
  - by rewrite (cells_get_out _ _ _ row col Hwf Hin).
Qed.

Lemma get_cell_spec_witness :
  ∃ x, in_bounds (gm_rows dotted_3x3) (gm_cols dotted_3x3) (wrap_cell dotted_3x3 (-1, -1)) ∧
       (gm_cells dotted_3x3 !! Z.to_nat (wrap_index (gm_rows dotted_3x3) (-1))) ≫=
         (fun cells_row => cells_row !! Z.to_nat (wrap_index (gm_cols dotted_3x3) (-1)))
         = Some x ∧
       get_cell dotted_3x3 (-1) (-1) = Ret x ∧
       is_obstacle dotted_3x3 (-1) (-1) = Ret (x =? OBSTACLE).
Proof.
  assert (manager_wf dotted_3x3) as Hwf by (split; [reflexivity|repeat constructor]).
  exact (get_cell_spec dotted_3x3 (-1) (-1) Hwf).
Defined.

(** X24: after every sequence of the mutating operations on a freshly
    created grid of at least two cells, with moves that target cells of the
    grid, the cell at the stored start holds Start, the cell at the stored
    goal holds Goal, and every other cell is Empty or an Obstacle. *)
Theorem cells_hold_four_states (rows cols : Z) (self : GridManager)
    (ops : list grid_op) (g : rng_state) :
  GridManager_init rows cols = Ret self -> 2 <= rows * cols ->
  Forall (op_in_bounds rows cols) ops ->
  ∃ self' g',
    run_ops ops (self, g) = (Ret tt, (self', g')) ∧
    ∀ q, in_bounds rows cols q ->
         if decide (q = gm_start self') then cells_get (gm_cells self') q.1 q.2 = Some START
         else if decide (q = gm_goal self') then cells_get (gm_cells self') q.1 q.2 = Some GOAL
         else cells_get (gm_cells self') q.1 q.2 = Some EMPTY ∨
              cells_get (gm_cells self') q.1 q.2 = Some OBSTACLE.
Proof.
  intros Hinit Hsz Hops.
  pose proof (GridManager_init_inv rows cols self Hinit Hsz) as Hinv.
  pose proof (GridManager_init_plain rows cols self Hinit) as Hplain.
  destruct (for_each_inv apply_op
              (fun rest w => (grid_inv rows cols w.1 ∧ plain_cells w.1) ∧
                             Forall (op_in_bounds rows cols) rest))
    with (l := ops) (s := (self, g)) as ([self' g'] & Hrun & [Hinv' Hplain'] & _).
  - intros op rest w [[Hi Hp] Hrest]. apply Forall_cons in Hrest as [Hop Hrest].
    destruct (apply_op_plain rows cols op w Hi Hp Hop) as (w1 & Hrun & Hi1 & Hp1). eauto.
  - done.
  - exists self', g'. split; [exact Hrun|]. simpl in *.
    pose proof Hinv' as [I1 I2 I3 I4 I5 I6 I7 I8].
    intros q Hq. case_decide as Hs; [by apply (I7 q Hq)|].
    case_decide as Hg; [by apply (I8 q Hq)|].
    apply Hplain'; [by rewrite I1, I2|]. by intros [?|?].
Qed.

Lemma cells_hold_four_states_witness :
  ∃ self' g',
    run_ops sample_ops (fresh_3x3, sample_rng) = (Ret tt, (self', g')) ∧
    ∀ q, in_bounds 3 3 q ->
         if decide (q = gm_start self') then cells_get (gm_cells self') q.1 q.2 = Some START
         else if decide (q = gm_goal self') then cells_get (gm_cells self') q.1 q.2 = Some GOAL
         else cells_get (gm_cells self') q.1 q.2 = Some EMPTY ∨
              cells_get (gm_cells self') q.1 q.2 = Some OBSTACLE.
Proof.
  apply (cells_hold_four_states 3 3 fresh_3x3 sample_ops sample_rng).
  - vm_compute. reflexivity.
  - lia.
  - unfold sample_ops, op_in_bounds, in_bounds. repeat constructor; simpl; lia.
Defined.
